(** * zotero-arxiv-daily: the typeset-source pipeline of [paper.py]

    A shallow embedding of [ArxivPaper] (src/paper.py): the [pdf_url]
    accessor, the [tex] pipeline (archive fetch, main-document resolver,
    content normalizer, include inliner), the region search of [tldr] and
    the reply parsing of [affiliations].

    Python text is modelled as [list ascii].  The regular expressions of the
    source are terms of a small pattern language executed by a backtracking
    matcher with the priorities of Python's [re] module (leftmost match,
    ordered alternation, greedy and lazy quantifiers). *)

From Stdlib Require Import Ascii String Bool Arith Lia ZArith Permutation List.
From Stdlib Require DecimalString.
Import ListNotations.

Set Implicit Arguments.

(** ** Text *)

Definition str := list ascii.

Abbreviation txt := list_ascii_of_string.

Definition nl : ascii := "010"%char.
Definition tab : ascii := "009"%char.
Definition cr : ascii := "013"%char.
Definition ff : ascii := "012"%char.
Definition bslash : ascii := "\"%char.
Definition percent : ascii := "%"%char.
Definition space : ascii := " "%char.

Fixpoint str_eqb (a b : str) : bool :=
  match a, b with
  | [], [] => true
  | x :: a', y :: b' => Ascii.eqb x y && str_eqb a' b'
  | _, _ => false
  end.

(** [strip_prefix l s] is [Some t] when [s = l ++ t]. *)
Fixpoint strip_prefix (l s : str) : option str :=
  match l, s with
  | [], _ => Some s
  | a :: l', c :: s' => if Ascii.eqb a c then strip_prefix l' s' else None
  | _ :: _, [] => None
  end.

(** Python [s.startswith(l)] and [s.endswith(l)]. *)
Definition startswith (s l : str) : bool :=
  match strip_prefix l s with Some _ => true | None => false end.

Definition endswith (s l : str) : bool :=
  startswith (rev s) (rev l).

(** Python [s.replace(old, new)]: every occurrence of [old], leftmost first,
    without overlap; the inserted text is not scanned again.  [skip] counts
    the characters of an occurrence still to be dropped.  (With an empty
    [old] Python inserts [new] around every character.) *)
Fixpoint replace_from (old new : str) (skip : nat) (s : str) : str :=
  match skip with
  | S n => match s with [] => [] | _ :: s' => replace_from old new n s' end
  | 0 =>
      match s with
      | [] => []
      | c :: s' =>
          if startswith s old
          then new ++ replace_from old new (pred (length old)) s'
          else c :: replace_from old new 0 s'
      end
  end.

Fixpoint intersperse_str (new s : str) : str :=
  match s with
  | [] => new
  | c :: s' => new ++ c :: intersperse_str new s'
  end.

Definition str_replace (s old new : str) : str :=
  match old with
  | [] => intersperse_str new s
  | _ :: _ => replace_from old new 0 s
  end.

(** Python [sep.join(parts)]. *)
Fixpoint str_join (sep : str) (parts : list str) : str :=
  match parts with
  | [] => []
  | [p] => p
  | p :: ps => p ++ sep ++ str_join sep ps
  end.

(** [str_find l s]: offset of the first occurrence of [l] in [s]. *)
Fixpoint str_find (l s : str) : option nat :=
  if startswith s l then Some 0
  else match s with
       | [] => None
       | _ :: s' => option_map S (str_find l s')
       end.

(** ** The pattern language and its matcher *)

Module Re.

(** [Rep greedy lo hi cls] is a quantified character class: between [lo] and
    [hi] characters of [cls] ([hi = None]: unbounded), as many as possible
    when [greedy], as few as possible otherwise.  Every quantifier of the
    source patterns applies to a single character class. *)
Inductive regex : Type :=
| Lit (l : str)
| Rep (greedy : bool) (lo : nat) (hi : option nat) (cls : ascii -> bool)
| Cat (r1 r2 : regex)
| Alt (r1 r2 : regex)
| Grp (r : regex)
| Eos.

Declare Scope re_scope.
Delimit Scope re_scope with re.
Bind Scope re_scope with regex.
Infix ">>" := Cat (at level 41, right associativity) : re_scope.
Infix "<|>" := Alt (at level 42, right associativity) : re_scope.

(** Character classes. *)
Definition any (_ : ascii) : bool := true.
Definition dot (c : ascii) : bool := negb (Ascii.eqb c nl).
Definition chr (a c : ascii) : bool := Ascii.eqb a c.
Definition hspace (c : ascii) : bool :=
  Ascii.eqb c space || Ascii.eqb c tab || Ascii.eqb c cr || Ascii.eqb c ff.
Definition digit (c : ascii) : bool :=
  let n := nat_of_ascii c in (48 <=? n) && (n <=? 57).

Definition has_room (hi : option nat) : bool :=
  match hi with Some 0 => false | _ => true end.

Definition one_less (hi : option nat) : option nat :=
  match hi with Some n => Some (pred n) | None => None end.

Section Matcher.
Variable A : Type.

(** Quantified class with continuation [k]: the greedy form tries one more
    character before stopping, the lazy form stops before trying more. *)
Fixpoint rep (greedy : bool) (cls : ascii -> bool) (lo : nat) (hi : option nat)
         (s : str) (k : str -> option A) : option A :=
  let stop := match lo with 0 => k s | S _ => None end in
  match s with
  | c :: s' =>
      if cls c && has_room hi then
        if greedy then
          match rep greedy cls (pred lo) (one_less hi) s' k with
          | Some x => Some x
          | None => stop
          end
        else
          match stop with
          | Some x => Some x
          | None => rep greedy cls (pred lo) (one_less hi) s' k
          end
      else stop
  | [] => stop
  end.

(** [exec r s caps k]: match [r] at the head of [s], then continue with
    [k] on the rest of the text and the groups captured so far; a [None]
    from [k] makes the matcher backtrack. *)
Fixpoint exec (r : regex) (s : str) (caps : list str)
         (k : str -> list str -> option A) : option A :=
  match r with
  | Lit l =>
      match strip_prefix l s with
      | Some s' => k s' caps
      | None => None
      end
  | Rep g lo hi cls => rep g cls lo hi s (fun s' => k s' caps)
  | Cat r1 r2 => exec r1 s caps (fun s' caps' => exec r2 s' caps' k)
  | Alt r1 r2 =>
      match exec r1 s caps k with
      | Some x => Some x
      | None => exec r2 s caps k
      end
  | Grp r1 =>
      exec r1 s caps
        (fun s' caps' => k s' (caps' ++ [firstn (length s - length s') s]))
  | Eos =>
      match s with
      | [] => k s caps
      | [c] => if Ascii.eqb c nl then k s caps else None
      | _ => None
      end
  end.
End Matcher.

(** A match at the head of [s]: the text after the match and the groups. *)
Definition match_at (r : regex) (s : str) : option (str * list str) :=
  exec r s [] (fun s' caps => Some (s', caps)).

(** The match object of [re.search]: offset, [group(0)], the groups. *)
Record mtch : Type := Match { m_start : nat; m_group0 : str; m_groups : list str }.

Definition consumed (s rest : str) : str := firstn (length s - length rest) s.

Definition shift (m : mtch) : mtch :=
  Match (S (m_start m)) (m_group0 m) (m_groups m).

(** [re.search]: the match at the leftmost offset that has one. *)
Fixpoint search (r : regex) (s : str) : option mtch :=
  match match_at r s with
  | Some (rest, caps) => Some (Match 0 (consumed s rest) caps)
  | None =>
      match s with
      | [] => None
      | _ :: s' => option_map shift (search r s')
      end
  end.

(** [re.finditer]: the matches from left to right, without overlap; [skip]
    counts the characters of the last match still to be passed over. *)
Fixpoint finditer_from (r : regex) (skip : nat) (s : str) : list (str * list str) :=
  match skip with
  | S n => match s with [] => [] | _ :: s' => finditer_from r n s' end
  | 0 =>
      match match_at r s with
      | Some (rest, caps) =>
          (consumed s rest, caps) ::
          match s with
          | [] => []
          | _ :: s' => finditer_from r (pred (length s - length rest)) s'
          end
      | None =>
          match s with [] => [] | _ :: s' => finditer_from r 0 s' end
      end
  end.

(** [re.findall] for a pattern with one group: the texts of group 1. *)
Definition findall (r : regex) (s : str) : list str :=
  map (fun m => hd [] (snd m)) (finditer_from r 0 s).

(** [re.sub(r, repl, s)] for a literal replacement text.  An empty match
    inserts [repl] and copies one character; no pattern of the program
    matches the empty text. *)
Fixpoint sub_from (r : regex) (repl : str) (skip : nat) (s : str) : str :=
  match skip with
  | S n => match s with [] => [] | _ :: s' => sub_from r repl n s' end
  | 0 =>
      match match_at r s with
      | Some (rest, _) =>
          match length s - length rest with
          | 0 => repl ++ match s with [] => [] | c :: s' => c :: sub_from r repl 0 s' end
          | S n => repl ++ match s with [] => [] | _ :: s' => sub_from r repl n s' end
          end
      | None =>
          match s with [] => [] | c :: s' => c :: sub_from r repl 0 s' end
      end
  end.

Definition sub (r : regex) (repl s : str) : str := sub_from r repl 0 s.

End Re.

Import Re.
Local Open Scope re_scope.

(** ** Content normalizer ([tex], the body of the loop over [tex_files]) *)

(** [r'%.*\n'] *)
Definition re_line_comment : regex :=
  Lit (txt "%") >> Rep true 0 None dot >> Lit [nl].
(** [r'\\begin{comment}.*?\\end{comment}'] with [re.DOTALL] *)
Definition re_comment_block : regex :=
  Lit (txt "\begin{comment}") >> Rep false 0 None any >> Lit (txt "\end{comment}").
(** [r'\\iffalse.*?\\fi'] with [re.DOTALL] *)
Definition re_iffalse_block : regex :=
  Lit (txt "\iffalse") >> Rep false 0 None any >> Lit (txt "\fi").
(** [r'\n+'] *)
Definition re_newlines : regex := Rep true 1 None (chr nl).
(** [r'\\\\'] *)
Definition re_linebreak : regex := Lit [bslash; bslash].
(** [r'[ \t\r\f]{3,}'] *)
Definition re_hspaces : regex := Rep true 3 None hspace.
(** [r'\\begin\{document\}'] *)
Definition re_begin_document : regex := Lit (txt "\begin{document}").

Definition strip_line_comments (content : str) : str := sub re_line_comment [nl] content.
Definition strip_comment_blocks (content : str) : str := sub re_comment_block [] content.
Definition strip_iffalse_blocks (content : str) : str := sub re_iffalse_block [] content.
Definition collapse_newlines (content : str) : str := sub re_newlines [nl] content.
Definition remove_linebreaks (content : str) : str := sub re_linebreak [] content.
Definition collapse_hspaces (content : str) : str := sub re_hspaces [space] content.

Definition normalize (content : str) : str :=
  let content := strip_line_comments content in
  let content := strip_comment_blocks content in
  let content := strip_iffalse_blocks content in
  let content := collapse_newlines content in
  let content := remove_linebreaks content in
  let content := collapse_hspaces content in
  content.

(** ** Exceptions *)

(** The exceptions the program meets.  [HTTPError] is
    [urllib.error.HTTPError] with its status code; all of them are
    subclasses of Python's [Exception]. *)
Inductive exn : Type :=
| HTTPError (code : Z)
| ReadError
| KeyError
| IndexError
| AttributeError
| OtherException (name : str).

Inductive result (A : Type) : Type :=
| Ok (a : A)
| Raise (e : exn).

Arguments Ok {A} a.
Arguments Raise {A} e.

Definition bind {A B : Type} (m : result A) (f : A -> result B) : result B :=
  match m with
  | Ok a => f a
  | Raise e => Raise e
  end.

Notation "x <- m ;; f" := (bind m (fun x => f))
  (at level 61, m at next level, right associativity).

(** What code that runs the text of a reply can end in: a value, an
    exception that is an [Exception], or one that is none ([SystemExit],
    [KeyboardInterrupt], ...), given by the name of its class. *)
Inductive outcome (A : Type) : Type :=
| Returns (a : A)
| Raises (e : exn)
| Escapes (name : str).

Arguments Returns {A} a.
Arguments Raises {A} e.
Arguments Escapes {A} name.

Definition and_then {A B : Type} (m : outcome A) (f : A -> outcome B) : outcome B :=
  match m with
  | Returns a => f a
  | Raises e => Raises e
  | Escapes name => Escapes name
  end.

Notation "x <<- m ;; f" := (and_then m (fun x => f))
  (at level 61, m at next level, right associativity).

(** [[f(a) for a in l]] *)
Fixpoint mapM {A B : Type} (f : A -> outcome B) (l : list A) : outcome (list B) :=
  match l with
  | [] => Returns []
  | a :: l' => b <<- f a ;; bs <<- mapM f l' ;; Returns (b :: bs)
  end.

(** [try: m except Exception: return None]: what is no [Exception] is not
    caught. *)
Definition except_none {A : Type} (m : outcome A) : outcome (option A) :=
  match m with
  | Returns a => Returns (Some a)
  | Raises _ => Returns None
  | Escapes name => Escapes name
  end.

(** ** Dictionaries and archives *)

(** A Python [dict] with text keys, in insertion order. *)
Definition dict := list (str * str).

Fixpoint dict_get (d : dict) (k : str) : option str :=
  match d with
  | [] => None
  | (k', v) :: d' => if str_eqb k' k then Some v else dict_get d' k
  end.

(** [d.get(k, default)] *)
Definition dict_get_default (d : dict) (k default : str) : str :=
  match dict_get d k with Some v => v | None => default end.

(** [d[k] = v]: an existing key keeps its place. *)
Fixpoint dict_set (d : dict) (k v : str) : dict :=
  match d with
  | [] => [(k, v)]
  | (k', v') :: d' =>
      if str_eqb k' k then (k', v) :: d' else (k', v') :: dict_set d' k v
  end.

Definition dict_keys (d : dict) : list str := map fst d.
Definition dict_values (d : dict) : list str := map snd d.

(** A member of an opened archive.  [File c] is a regular file, or a link to
    one, [c] being its bytes decoded as the loop of [tex] decodes them.
    [NotFile] is a directory or another member that is no file:
    [tar.extractfile] returns [None] for it.  [Unreadable e] is a member
    whose extraction or reading raises [e] ([KeyError] for a link to a
    missing member). *)
Inductive member : Type :=
| File (content : str)
| NotFile
| Unreadable (e : exn).

(** An opened archive: its members in enumeration order, or, for an archive
    that is cut short after [tarfile.open] has read its first header, the
    exception that reading the other headers raises. *)
Inductive tarball : Type :=
| Archive (members : list (str * member))
| Truncated (e : exn).

(** [tar.getnames()] *)
Definition getnames (tar : tarball) : result (list str) :=
  match tar with
  | Archive members => Ok (map fst members)
  | Truncated e => Raise e
  end.

(** The last member of that name, as [tar.getmember] finds it. *)
Fixpoint getmember (members : list (str * member)) (t : str) : option member :=
  match members with
  | [] => None
  | (name, m) :: rest =>
      match getmember rest t with
      | Some m' => Some m'
      | None => if str_eqb name t then Some m else None
      end
  end.

(** [tar.extractfile(t).read().decode('utf-8', errors='ignore')]: calling
    [read] on the [None] that a member which is no file gives raises
    [AttributeError]. *)
Definition extractfile (tar : tarball) (t : str) : result str :=
  match tar with
  | Archive members =>
      match getmember members t with
      | Some (File content) => Ok content
      | Some NotFile => Raise AttributeError
      | Some (Unreadable e) => Raise e
      | None => Raise KeyError
      end
  | Truncated e => Raise e
  end.

(** [[f for f in tar.getnames() if f.endswith(suffix)]] *)
Definition names_ending (tar : tarball) (suffix : str) : result (list str) :=
  names <- getnames tar ;;
  Ok (filter (fun f => endswith f suffix) names).

Definition mem_str (x : str) (l : list str) : bool := existsb (str_eqb x) l.

(** ** The wrapped metadata record and [pdf_url] *)

Record Link : Type := { href : str; link_title : option str }.

(** [arxiv.Result]; [short_id] is what its [get_short_id()] returns. *)
Record ArxivResult : Type := {
  short_id : str;
  title : str;
  summary : str;
  authors : list str;
  pdf_url_field : option str;
  links : option (list Link)
}.

(** [ArxivPaper]: the wrapped record, the score, and the slot in which
    [cached_property] keeps [arxiv_id]. *)
Record ArxivPaper : Type := {
  _paper : ArxivResult;
  score : option Z;
  arxiv_id_slot : option str
}.

Definition set_pdf_url (r : ArxivResult) (u : str) : ArxivResult :=
  {| short_id := short_id r; title := title r; summary := summary r;
     authors := authors r; pdf_url_field := Some u; links := links r |}.

(** [r'v\d+$'] *)
Definition re_version : regex := Lit (txt "v") >> Rep true 1 None digit >> Eos.

(** [arxiv_id], a [cached_property]. *)
Definition arxiv_id (self : ArxivPaper) : str * ArxivPaper :=
  match arxiv_id_slot self with
  | Some v => (v, self)
  | None =>
      let v := sub re_version [] (short_id (_paper self)) in
      (v, {| _paper := _paper self; score := score self; arxiv_id_slot := Some v |})
  end.

(** [pdf_url]: the value returned or the exception raised, and the paper
    afterwards. *)
Definition pdf_url (self : ArxivPaper) : result str * ArxivPaper :=
  match pdf_url_field (_paper self) with
  | Some u => (Ok u, self)
  | None =>
      let (id, self) := arxiv_id self in
      let pdf_url := txt "https://arxiv.org/pdf/" ++ id ++ txt ".pdf" in
      let computed :=
        match links (_paper self) with
        | Some ls =>
            match ls with
            | l :: _ => Ok (str_replace (href l) (txt "abs") (txt "pdf"))
            | [] => Raise IndexError
            end
        | None => Ok pdf_url
        end in
      match computed with
      | Ok pdf_url =>
          (Ok pdf_url,
           {| _paper := set_pdf_url (_paper self) pdf_url; score := score self;
              arxiv_id_slot := arxiv_id_slot self |})
      | Raise e => (Raise e, self)
      end
  end.

(** ** The [tex] pipeline *)

(** What the fetch and the archive library answer: [download_source] for
    [self._paper.download_source(dirpath=tmpdirname)], [tarfile_open] for
    [tarfile.open(file)]. *)
Record source_env : Type := {
  download_source : result str;
  tarfile_open : str -> result tarball
}.

(** *** Main-document resolver (the [match len(bbl_file)] statement) *)

Definition resolve_main (tex_files bbl_file : list str) : option str :=
  match bbl_file with
  | [] => if 1 <? length tex_files then None else hd_error tex_files
  | [b] =>
      let main_name := str_replace b (txt ".bbl") [] in
      let main_tex := main_name ++ txt ".tex" in
      if mem_str main_tex tex_files then Some main_tex else None
  | _ :: _ :: _ => None
  end.

(** *** Reading and normalizing every file (the [for t in tex_files] loop) *)

Definition is_match (r : regex) (s : str) : bool :=
  match search r s with Some _ => true | None => false end.

Fixpoint read_files (tar : tarball) (tex_files : list str)
         (main_tex : option str) (file_contents : dict) : result (option str * dict) :=
  match tex_files with
  | [] => Ok (main_tex, file_contents)
  | t :: rest =>
      content <- extractfile tar t ;;
      let content := normalize content in
      let main_tex :=
        match main_tex with
        | None => if is_match re_begin_document content then Some t else None
        | Some m => Some m
        end in
      read_files tar rest main_tex (dict_set file_contents t content)
  end.

(** *** Include inliner *)

(** [r'\\input\{(.+?)\}'] and [r'\\include\{(.+?)\}'] *)
Definition re_input : regex :=
  Lit (txt "\input{") >> Grp (Rep false 1 None dot) >> Lit (txt "}").
Definition re_include : regex :=
  Lit (txt "\include{") >> Grp (Rep false 1 None dot) >> Lit (txt "}").

Definition include_files (main_source : str) : list str :=
  findall re_input main_source ++ findall re_include main_source.

Definition tex_file_name (f : str) : str :=
  if negb (endswith f (txt ".tex")) then f ++ txt ".tex" else f.

(** The body of [for f in include_files]. *)
Definition inline_one (file_contents : dict) (main_source f : str) : str :=
  str_replace main_source (txt "\input{" ++ f ++ txt "}")
    (dict_get_default file_contents (tex_file_name f) []).

Definition inline_includes (file_contents : dict) (main_source : str) : str :=
  fold_left (inline_one file_contents) (include_files main_source) main_source.

(** *** The whole property *)

Definition tex_of_tar (tar : tarball) : result (option dict) :=
  tex_files <- names_ending tar (txt ".tex") ;;
  if length tex_files =? 0 then Ok None
  else
    bbl_file <- names_ending tar (txt ".bbl") ;;
    let main_tex := resolve_main tex_files bbl_file in
    after_loop <- read_files tar tex_files main_tex [] ;;
    let (main_tex, file_contents) := after_loop in
    match main_tex with
    | Some main_tex =>
        match dict_get file_contents main_tex with
        | Some main_source =>
            Ok (Some (dict_set file_contents (txt "all")
                        (inline_includes file_contents main_source)))
        | None => Raise KeyError
        end
    | None => Ok None
    end.

Definition tex (env : source_env) : result (option dict) :=
  match download_source env with
  | Raise (HTTPError code) =>
      if (code =? 404)%Z then Ok None else Raise (HTTPError code)
  | Raise _ => Ok None
  | Ok file =>
      match tarfile_open env file with
      | Raise ReadError => Ok None
      | Raise e => Raise e
      | Ok tar => tex_of_tar tar
      end
  end.

(** The value of [main_tex] after the loop: the main document the pipeline
    settles on. *)
Definition main_document (tar : tarball) : result (option str) :=
  tex_files <- names_ending tar (txt ".tex") ;;
  bbl_file <- names_ending tar (txt ".bbl") ;;
  after_loop <- read_files tar tex_files (resolve_main tex_files bbl_file) [] ;;
  Ok (fst after_loop).

(** ** Region search of [tldr] *)

(** [r'~?\\cite.?\{.*?\}'] *)
Definition re_cite : regex :=
  Rep true 0 (Some 1) (chr "~") >> Lit (txt "\cite") >> Rep true 0 (Some 1) dot >>
  Lit (txt "{") >> Rep false 0 None dot >> Lit (txt "}").
(** [r'\\begin\{figure\}.*?\\end\{figure\}'] with [re.DOTALL] *)
Definition re_figure : regex :=
  Lit (txt "\begin{figure}") >> Rep false 0 None any >> Lit (txt "\end{figure}").
(** [r'\\begin\{table\}.*?\\end\{table\}'] with [re.DOTALL] *)
Definition re_table : regex :=
  Lit (txt "\begin{table}") >> Rep false 0 None any >> Lit (txt "\end{table}").

(** [r'\\section\{NAME\}.*?(\\section|\\end\{document\}|\\bibliography|\\appendix|$)']
    with [re.DOTALL]: the heading, a lazy run of any characters, and the
    group of end words. *)
Definition re_end_word : regex :=
  Lit (txt "\section") <|> Lit (txt "\end{document}") <|>
  Lit (txt "\bibliography") <|> Lit (txt "\appendix") <|> Eos.

Definition section_heading (name : str) : str := txt "\section{" ++ name ++ txt "}".

Definition re_section (name : str) : regex :=
  Lit (section_heading name) >> Rep false 0 None any >> Grp re_end_word.

Definition remove_noise (content : str) : str :=
  let content := sub re_cite [] content in
  let content := sub re_figure [] content in
  let content := sub re_table [] content in
  content.

(** [match = re.search(...); if match: region = match.group(0)] *)
Definition find_region (name content : str) : str :=
  match search (re_section name) content with
  | Some m => m_group0 m
  | None => []
  end.

(** The values of [introduction] and [conclusion] when the prompt is built. *)
Definition tldr_regions (tex : option dict) : str * str :=
  match tex with
  | Some d =>
      let content :=
        match dict_get d (txt "all") with
        | Some c => c
        | None => str_join [nl] (dict_values d)
        end in
      let content := remove_noise content in
      (find_region (txt "Introduction") content,
       find_region (txt "Conclusion") content)
  | None => ([], [])
  end.

(** ** [affiliations] *)

(** [r'\\author.*?\\maketitle'] and [r'\\begin{document}.*?\\begin{abstract}'],
    with [re.DOTALL] *)
Definition re_author_block : regex :=
  Lit (txt "\author") >> Rep false 0 None any >> Lit (txt "\maketitle").
Definition re_document_head : regex :=
  Lit (txt "\begin{document}") >> Rep false 0 None any >> Lit (txt "\begin{abstract}").

Definition possible_regions : list regex := [re_author_block; re_document_head].

(** [matches = [re.search(p, content) ...]; match = next((m for m in matches if m), None)] *)
Definition information_region (content : str) : option str :=
  let matches := map (fun p => search p content) possible_regions in
  match find (fun m => match m with Some _ => true | None => false end) matches with
  | Some (Some m) => Some (m_group0 m)
  | _ => None
  end.

Definition affiliation_prompt (information_region : str) : str :=
  txt "Given the author information of a paper in latex format, extract the affiliations of the authors in a python list format, which is sorted by the author order. If there is no affiliation found, return an empty list '[]'. Following is the author information:"
  ++ [nl] ++ information_region.

(** [r'\[.*?\]'] with [re.DOTALL] *)
Definition re_bracket : regex :=
  Lit (txt "[") >> Rep false 0 None any >> Lit (txt "]").

Section Affiliations.
(** Python's own evaluator and conversions, on Python objects:
    [py_eval] is [eval], [py_list_set x] is [list(set(x))] and [py_str] is
    [str]; each runs what the reply says and may raise anything.
    [truncate_tokens] cuts a prompt to 4000 tokens and [llm_generate] is the
    reply of the language model to a prompt. *)
Variable pyobj : Type.
Variable py_eval : str -> outcome pyobj.
Variable py_list_set : pyobj -> outcome (list pyobj).
Variable py_str : pyobj -> outcome str.
Variable truncate_tokens : str -> str.
Variable llm_generate : str -> str.

(** The body of the [try]. *)
Definition parse_reply (reply : str) : outcome (list str) :=
  affiliations <<-
    match search re_bracket reply with
    | Some m => Returns (m_group0 m)
    | None => Raises AttributeError
    end ;;
  affiliations <<- py_eval affiliations ;;
  affiliations <<- py_list_set affiliations ;;
  affiliations <<- mapM py_str affiliations ;;
  Returns affiliations.

(** [try: ... except Exception: return None]. *)
Definition parse_affiliations (reply : str) : outcome (option (list str)) :=
  except_none (parse_reply reply).

(** The property, given what [self.tex] returned. *)
Definition affiliations (tex : option dict) : outcome (option (list str)) :=
  match tex with
  | None | Some [] => Returns None
  | Some d =>
      match dict_get d (txt "all") with
      | None | Some [] => Returns None
      | Some content =>
          match information_region content with
          | Some region =>
              let prompt := truncate_tokens (affiliation_prompt region) in
              parse_affiliations (llm_generate prompt)
          | None => Returns None
          end
      end
  end.
End Affiliations.

(** * The code-repository lookup: [_make_session], [_session], [_get_json], [code_url] *)

(** The class attributes [_PWC_SESSION] and [_CODE_URL_CACHE] are shared by
    all objects; the methods run in a state made of one object and the class
    attributes, and may raise.  The network is a function of the requests
    sent before.  The [logger.debug] calls are left out. *)

From Stdlib Require SpecFloat.

Module Pwc.

(** ** Values that [r.json()] builds *)

#[local] Set Warnings "-register-all".

Inductive pyval : Type :=
| PNone
| PBool (b : bool)
| PInt (n : Z)
| PFloat (f : SpecFloat.spec_float)
| PStr (s : str)
| PList (l : list pyval)
| PDict (d : list (str * pyval)).

Definition TypeError : exn := OtherException (txt "TypeError").

(** A [dict] with string keys: [k in d], [d[k] = v] (an existing key keeps
    its place). *)
Fixpoint item {V : Type} (d : list (str * V)) (k : str) : option V :=
  match d with
  | [] => None
  | (k', v) :: d' => if str_eqb k' k then Some v else item d' k
  end.

Fixpoint setitem {V : Type} (d : list (str * V)) (k : str) (v : V) : list (str * V) :=
  match d with
  | [] => [(k, v)]
  | (k', v') :: d' =>
      if str_eqb k' k then (k', v) :: d' else (k', v') :: setitem d' k v
  end.

Definition float_is_zero (f : SpecFloat.spec_float) : bool :=
  match f with SpecFloat.S754_zero _ => true | _ => false end.

Definition is_empty {A : Type} (l : list A) : bool :=
  match l with [] => true | _ :: _ => false end.

(** [bool(x)] *)
Definition truthy (x : pyval) : bool :=
  match x with
  | PNone => false
  | PBool b => b
  | PInt n => negb (n =? 0)%Z
  | PFloat f => negb (float_is_zero f)
  | PStr s => negb (is_empty s)
  | PList l => negb (is_empty l)
  | PDict d => negb (is_empty d)
  end.

(** [x == 0] *)
Definition eq_zero (x : pyval) : bool :=
  match x with
  | PInt n => (n =? 0)%Z
  | PBool b => negb b
  | PFloat f => float_is_zero f
  | _ => false
  end.

(** [x.get(k, default)]: only a dict has the method. *)
Definition get (x : pyval) (k : str) (default : pyval) : result pyval :=
  match x with
  | PDict d => Ok (match item d k with Some v => v | None => default end)
  | _ => Raise AttributeError
  end.

(** [x[k]] for a string [k]. *)
Definition getitem_str (x : pyval) (k : str) : result pyval :=
  match x with
  | PDict d => match item d k with Some v => Ok v | None => Raise KeyError end
  | _ => Raise TypeError
  end.

(** [x[0]]; the keys of a decoded object are strings, none is [0]. *)
Definition getitem_0 (x : pyval) : result pyval :=
  match x with
  | PList (v :: _) => Ok v
  | PList [] => Raise IndexError
  | PStr (c :: _) => Ok (PStr [c])
  | PStr [] => Raise IndexError
  | PDict _ => Raise KeyError
  | _ => Raise TypeError
  end.

(** [str.lower] on a header value, whose characters are Latin-1 code
    points. *)
Definition lower_char (c : ascii) : ascii :=
  let n := nat_of_ascii c in
  if ((65 <=? n) && (n <=? 90)) || ((192 <=? n) && (n <=? 222) && negb (n =? 215))
  then ascii_of_nat (n + 32) else c.

Definition lower (s : str) : str := map lower_char s.

(** [l in s] *)
Definition contains (l s : str) : bool :=
  match str_find l s with Some _ => true | None => false end.

(** ** Sessions, requests and answers *)

Record Retry : Type := {
  total : Z;
  connect : Z;
  read : Z;
  backoff_factor : SpecFloat.spec_float;
  status_forcelist : list Z;
  allowed_methods : list str;
  respect_retry_after_header : bool;
  raise_on_status : bool
}.

Record HTTPAdapter : Type := {
  max_retries : Retry;
  pool_connections : Z;
  pool_maxsize : Z
}.

(** What the code sets on a [requests.Session]; [session_no] tells the
    session objects apart. *)
Record Session : Type := {
  session_no : nat;
  mounts : list (str * HTTPAdapter);
  headers : list (str * str)
}.

Record Request : Type := {
  via : Session;
  url : str;
  timeout : Z * Z
}.

(** [r.json()]: the decoded value, a [ValueError], or another exception. *)
Inductive json_outcome : Type :=
| Decoded (v : pyval)
| DecodeFails
| JsonRaises (e : exn).

Record Response : Type := {
  status_code : Z;
  content_type : option str;
  json : json_outcome
}.

(** [s.get(...)]: a response, a [requests.RequestException], or another
    exception. *)
Inductive get_outcome : Type :=
| Responds (r : Response)
| RequestFails
| GetRaises (e : exn).

(** ** Class attributes and instances *)

(** The class attributes, with the number of [requests.Session()] calls and
    the requests sent so far (oldest first). *)
Record World : Type := {
  _PWC_SESSION : option Session;
  _CODE_URL_CACHE : list (str * pyval);
  sessions_made : nat;
  sent : list Request
}.

(** An [ArxivPaper] object with the slot in which [cached_property] keeps
    [code_url]. *)
Record Instance : Type := {
  paper : ArxivPaper;
  code_url_slot : option pyval
}.

Record State : Type := { this : Instance; klass : World }.

(** ** State and exceptions *)

Definition M (A : Type) : Type := State -> result A * State.

Definition ret {A : Type} (a : A) : M A := fun st => (Ok a, st).

Definition lift {A : Type} (r : result A) : M A := fun st => (r, st).

Definition bindM {A B : Type} (m : M A) (f : A -> M B) : M B :=
  fun st =>
    match m st with
    | (Ok a, st') => f a st'
    | (Raise e, st') => (Raise e, st')
    end.

Notation "x <~ m ;; f" := (bindM m (fun x => f))
  (at level 61, m at next level, right associativity).

Definition with_klass (st : State) (w : World) : State :=
  {| this := this st; klass := w |}.

(** [self.arxiv_id] *)
Definition self_arxiv_id : M str :=
  fun st =>
    let (id, p) := arxiv_id (paper (this st)) in
    (Ok id, {| this := {| paper := p; code_url_slot := code_url_slot (this st) |};
               klass := klass st |}).

(** [k in cache], [cache[k]], [cache[k] = v] on [_CODE_URL_CACHE] *)
Definition cache_contains (k : str) : M bool :=
  fun st =>
    (Ok (match item (_CODE_URL_CACHE (klass st)) k with Some _ => true | None => false end),
     st).

Definition cache_getitem (k : str) : M pyval :=
  fun st =>
    (match item (_CODE_URL_CACHE (klass st)) k with Some v => Ok v | None => Raise KeyError end,
     st).

Definition cache_setitem (k : str) (v : pyval) : M unit :=
  fun st =>
    let w := klass st in
    (Ok tt, with_klass st
              {| _PWC_SESSION := _PWC_SESSION w;
                 _CODE_URL_CACHE := setitem (_CODE_URL_CACHE w) k v;
                 sessions_made := sessions_made w;
                 sent := sent w |}).

(** ** The methods *)

Definition user_agent : str := txt "zotero-arxiv-daily/1.0 (contact: you@example.com)".

(** [0.5] *)
Definition one_half : SpecFloat.spec_float :=
  SpecFloat.S754_finite false 4503599627370496 (-53).

Definition _make_session : M Session :=
  fun st =>
    let w := klass st in
    let retries :=
      {| total := 5; connect := 5; read := 5; backoff_factor := one_half;
         status_forcelist := [429; 500; 502; 503; 504]%Z;
         allowed_methods := [txt "GET"];
         respect_retry_after_header := true;
         raise_on_status := false |} in
    let adapter :=
      {| max_retries := retries; pool_connections := 10; pool_maxsize := 10 |} in
    let s :=
      {| session_no := sessions_made w;
         mounts := [(txt "https://", adapter); (txt "http://", adapter)];
         headers := [(txt "User-Agent", user_agent)] |} in
    (Ok s, with_klass st
             {| _PWC_SESSION := _PWC_SESSION w;
                _CODE_URL_CACHE := _CODE_URL_CACHE w;
                sessions_made := S (sessions_made w);
                sent := sent w |}).

Definition set_PWC_SESSION (s : Session) : M unit :=
  fun st =>
    let w := klass st in
    (Ok tt, with_klass st
              {| _PWC_SESSION := Some s;
                 _CODE_URL_CACHE := _CODE_URL_CACHE w;
                 sessions_made := sessions_made w;
                 sent := sent w |}).

Definition _session : M Session :=
  fun st =>
    match _PWC_SESSION (klass st) with
    | None => (s <~ _make_session ;; _ <~ set_PWC_SESSION s ;; ret s) st
    | Some s => (Ok s, st)
    end.

Section Network.

(** The answer to a request, given the requests sent before it. *)
Variable http_get : list Request -> Request -> get_outcome.

(** [str(x)], as an f-string formats a value. *)
Variable format_value : pyval -> str.

(** [s.get(url, timeout=(5, 15))] *)
Definition session_get (s : Session) (u : str) : State -> get_outcome * State :=
  fun st =>
    let w := klass st in
    let rq := {| via := s; url := u; timeout := (5, 15)%Z |} in
    (http_get (sent w) rq,
     with_klass st
       {| _PWC_SESSION := _PWC_SESSION w;
          _CODE_URL_CACHE := _CODE_URL_CACHE w;
          sessions_made := sessions_made w;
          sent := sent w ++ [rq] |}).

(** [h or ""] for the header value [h]. *)
Definition or_empty (h : option str) : str :=
  match h with
  | Some v => if is_empty v then [] else v
  | None => []
  end.

Definition _get_json (s : Session) (u : str) : M pyval :=
  fun st =>
    let (answer, st) := session_get s u st in
    match answer with
    | RequestFails => (Ok PNone, st)
    | GetRaises e => (Raise e, st)
    | Responds r =>
        let ct := lower (or_empty (content_type r)) in
        if negb (status_code r =? 200)%Z then (Ok PNone, st)
        else if negb (contains (txt "application/json") ct) then (Ok PNone, st)
        else match json r with
             | Decoded v => (Ok v, st)
             | DecodeFails => (Ok PNone, st)
             | JsonRaises e => (Raise e, st)
             end
    end.

(** [not x or x.get("count", 0) == 0] *)
Definition nothing_found (x : pyval) : result bool :=
  if negb (truthy x) then Ok true
  else c <- get x (txt "count") (PInt 0) ;; Ok (eq_zero c).

Definition papers_url (id : str) : str :=
  txt "https://paperswithcode.com/api/v1/papers/?arxiv_id=" ++ id.

Definition repositories_url (paper_id : pyval) : str :=
  txt "https://paperswithcode.com/api/v1/papers/" ++ format_value paper_id
    ++ txt "/repositories/".

(** The function that [cached_property] wraps. *)
Definition code_url_body : M pyval :=
  id <~ self_arxiv_id ;;
  hit <~ cache_contains id ;;
  if hit then
    id <~ self_arxiv_id ;;
    cache_getitem id
  else
    s <~ _session ;;
    id <~ self_arxiv_id ;;
    paper_list <~ _get_json s (papers_url id) ;;
    none <~ lift (nothing_found paper_list) ;;
    if none then
      id <~ self_arxiv_id ;;
      _ <~ cache_setitem id PNone ;;
      ret PNone
    else
      results <~ lift (getitem_str paper_list (txt "results")) ;;
      first <~ lift (getitem_0 results) ;;
      paper_id <~ lift (getitem_str first (txt "id")) ;;
      repo_list <~ _get_json s (repositories_url paper_id) ;;
      none <~ lift (nothing_found repo_list) ;;
      if none then
        id <~ self_arxiv_id ;;
        _ <~ cache_setitem id PNone ;;
        ret PNone
      else
        results <~ lift (getitem_str repo_list (txt "results")) ;;
        first <~ lift (getitem_0 results) ;;
        found <~ lift (get first (txt "url") PNone) ;;
        id <~ self_arxiv_id ;;
        _ <~ cache_setitem id found ;;
        ret found.

(** [code_url], a [cached_property]: the first normal return is kept in the
    instance. *)
Definition code_url : M pyval :=
  fun st =>
    match code_url_slot (this st) with
    | Some v => (Ok v, st)
    | None =>
        match code_url_body st with
        | (Ok v, st') =>
            (Ok v, {| this := {| paper := paper (this st'); code_url_slot := Some v |};
                      klass := klass st' |})
        | (Raise e, st') => (Raise e, st')
        end
    end.

End Network.

End Pwc.

(** * Vocabulary of the properties *)

(** ** Texts *)

Definition occurs (l s : str) : Prop := exists p q, s = p ++ l ++ q.

(** A text on which a run of [cls] cannot go on. *)
Definition stops (cls : ascii -> bool) (s : str) : Prop :=
  match s with [] => True | c :: _ => cls c = false end.

(** [first_suffix k s]: the answer of [k] on the first suffix of [s] that it
    accepts. *)
Fixpoint first_suffix (A : Type) (k : str -> option A) (s : str) : option A :=
  match k s with
  | Some x => Some x
  | None =>
      match s with
      | [] => None
      | _ :: s' => first_suffix k s'
      end
  end.

Definition input_directive (f : str) : str := txt "\input{" ++ f ++ txt "}".

(** The part of a line before its first [%]. *)
Fixpoint before_percent (l : str) : str :=
  match l with
  | [] => []
  | c :: l' => if Ascii.eqb c percent then [] else c :: before_percent l'
  end.

(** The text made of the newline-terminated lines [ls] and a last line. *)
Definition unlines (ls : list str) (last : str) : str :=
  fold_right (fun l acc => l ++ nl :: acc) last ls.

(** [shape U d s t]: [t] is [s] with some segments, each in [U], replaced
    by the single character [d]. *)
Inductive shape (U : str -> Prop) (d : ascii) : str -> str -> Prop :=
| shape_nil : shape U d [] []
| shape_copy (c : ascii) (s t : str) :
    shape U d s t -> shape U d (c :: s) (c :: t)
| shape_repl (u s t : str) :
    U u -> shape U d s t -> shape U d (u ++ s) (d :: t).

(** A [%] with a newline somewhere after it. *)
Definition pct_before_nl (s : str) : Prop :=
  exists p l r, s = p ++ percent :: l ++ nl :: r.

(** Three horizontal-whitespace characters in a row. *)
Definition long_run (s : str) : Prop :=
  exists p a b c q,
    s = p ++ a :: b :: c :: q /\
    hspace a = true /\ hspace b = true /\ hspace c = true.

(** None of the three markers whose removal can splice new text. *)
Definition marker_free (s : str) : Prop :=
  ~ occurs [bslash; bslash] s /\
  ~ occurs (txt "\begin{comment}") s /\
  ~ occurs (txt "\iffalse") s.

(** ** Regions *)

Definition end_words : list str :=
  [txt "\section"; txt "\end{document}"; txt "\bibliography"; txt "\appendix"].

(** [ends_with_word m after]: [m] is an end word, or [m] is empty at the end
    of the text ([$] also holds just before a final newline). *)
Definition ends_with_word (m after : str) : Prop :=
  In m end_words \/ (m = [] /\ (after = [] \/ after = [nl])).

Definition end_word_here (s : str) : Prop :=
  exists m after, s = m ++ after /\ ends_with_word m after.

Definition occurs_first (l pre s : str) : Prop :=
  forall p q, s = p ++ l ++ q -> length pre <= length p.

(** What [region] is for the section [name] of [content]: empty when the
    heading does not occur; otherwise the text from the first occurrence of
    the heading through the end word [m] at the earliest place after the
    heading that has one. *)
Definition region_of (name content region : str) : Prop :=
  (~ occurs (section_heading name) content -> region = []) /\
  (occurs (section_heading name) content ->
   exists pre body m after,
     content = pre ++ section_heading name ++ body ++ m ++ after /\
     occurs_first (section_heading name) pre content /\
     ends_with_word m after /\
     (forall b1 b2, body = b1 ++ b2 -> b2 <> [] ->
        ~ end_word_here (b2 ++ m ++ after)) /\
     region = section_heading name ++ body ++ m).

(** The end word at the head of [s], as the alternation tries them. *)
Definition end_word_at (s : str) : option str :=
  if startswith s (txt "\section") then Some (txt "\section")
  else if startswith s (txt "\end{document}") then Some (txt "\end{document}")
  else if startswith s (txt "\bibliography") then Some (txt "\bibliography")
  else if startswith s (txt "\appendix") then Some (txt "\appendix")
  else match s with
       | [] => Some []
       | [c] => if Ascii.eqb c nl then Some [] else None
       | _ => None
       end.

Definition end_cont (s : str) : option (str * list str) :=
  match end_word_at s with
  | Some m => Some (skipn (length m) s, [m])
  | None => None
  end.

(** The continuation with which a group at the end of a pattern records
    its text. *)
Definition grp_top (s0 : str) (s' : str) (caps' : list str) : option (str * list str) :=
  Some (s', caps' ++ [firstn (length s0 - length s') s0]).

(** ** Replies *)

Definition lbracket : ascii := "["%char.
Definition rbracket : ascii := "]"%char.

Definition close_cont (t : str) : option (str * list str) :=
  match strip_prefix [rbracket] t with
  | Some t' => Some (t', [])
  | None => None
  end.

(** ** Archives, environments and records *)

(** An archive whose members are all regular files. *)
Definition files (l : list (str * str)) : tarball :=
  Archive (map (fun p => (fst p, File (snd p))) l).

(** Every name of [l] is read as a regular file of [tar]. *)
Definition regular_files (tar : tarball) (l : list str) : Prop :=
  forall t, In t l -> exists content, extractfile tar t = Ok content.

Definition env_of_tar (tar : tarball) : source_env :=
  {| download_source := Ok (txt "source.tar.gz"); tarfile_open := fun _ => Ok tar |}.

Definition env_raising (e : exn) : source_env :=
  {| download_source := Raise e; tarfile_open := fun _ => Raise ReadError |}.

Definition same_but_pdf_url (r r' : ArxivResult) : Prop :=
  short_id r' = short_id r /\ title r' = title r /\ summary r' = summary r /\
  authors r' = authors r /\ links r' = links r.

(** ** Sample inputs *)

Definition bundle_with_include : tarball :=
  files [(txt "main.tex", txt "\begin{document}\include{a}\end{document}");
         (txt "a.tex", txt "AAA")].

(** No [.tex] member. *)
Definition bundle_without_tex : tarball :=
  files [(txt "refs.bbl", txt "x"); (txt "fig.png", [])].

Definition doc_two_sections : str :=
  txt "\begin{document}\section{Introduction}Foo bar.\section{Conclusion}Baz.\end{document}".

Definition nested_contents : dict :=
  [(txt "main.tex", txt "A:\input{a}.");
   (txt "a.tex", txt "[\input{b}]");
   (txt "b.tex", txt "BBB")].

Definition plain_text : str :=
  txt "\section{A}  % first" ++ [nl; nl; nl] ++ txt "x     y 50\% z" ++ [nl] ++ txt "end %".

(** One [.bbl] member, [a.bbl.bbl], whose stem [a.bbl] matches the member
    [a.bbl.tex]. *)
Definition inner_bbl_members : list (str * str) :=
  [(txt "b.tex", txt "\begin{document}B\end{document}");
   (txt "a.bbl.tex", txt "\begin{document}A\end{document}");
   (txt "a.bbl.bbl", txt "refs")].

Definition bundle_inner_bbl : tarball := files inner_bbl_members.

(** A record as [arxiv.Result] builds it by default: no stored link and an
    empty list of links. *)
Definition paper_without_links : ArxivPaper :=
  {| _paper := {| short_id := txt "2101.00001v2"; title := txt "T";
                  summary := txt "S"; authors := [];
                  pdf_url_field := None; links := Some [] |};
     score := None; arxiv_id_slot := None |}.

(** A stand-in for Python's evaluator, enough to run the parser on the
    sample replies.  An object is a text, an integer or a list of those.
    Four literals are evaluated as Python evaluates them; every other
    literal is outside the stand-in, which answers [SyntaxError] for it.
    [list(set(x))] keeps the first occurrence of each element, in the order
    of [x] (Python leaves the order open). *)
Inductive toy_atom : Type :=
| AStr (s : str)
| AInt (n : Z).

Inductive toy_obj : Type :=
| Atom (a : toy_atom)
| TList (items : list toy_atom).

Definition toy_atom_eq_dec (a b : toy_atom) : {a = b} + {a <> b}.
Proof.
  decide equality; [apply (list_eq_dec Ascii.ascii_dec) | apply Z.eq_dec].
Defined.

Definition toy_eval (literal : str) : outcome toy_obj :=
  if str_eqb literal (txt "[]") then Returns (TList [])
  else if str_eqb literal (txt "['MIT', 'MIT', 7]")
  then Returns (TList [AStr (txt "MIT"); AStr (txt "MIT"); AInt 7])
  else if str_eqb literal (txt "[exit()]") then Escapes (txt "SystemExit")
  else if str_eqb literal (txt "[x, y]") then Raises (OtherException (txt "NameError"))
  else Raises (OtherException (txt "SyntaxError")).

Definition toy_list_set (x : toy_obj) : outcome (list toy_obj) :=
  match x with
  | TList items => Returns (map Atom (nodup toy_atom_eq_dec items))
  | Atom (AStr s) => Returns (map (fun c => Atom (AStr [c])) (nodup Ascii.ascii_dec s))
  | Atom (AInt _) => Raises (OtherException (txt "TypeError"))
  end.

Definition decimal (n : Z) : str :=
  list_ascii_of_string (DecimalString.NilZero.string_of_int (Z.to_int n)).

Definition toy_repr (a : toy_atom) : str :=
  match a with
  | AStr s => txt "'" ++ s ++ txt "'"
  | AInt n => decimal n
  end.

Definition toy_str (x : toy_obj) : outcome str :=
  match x with
  | Atom (AStr s) => Returns s
  | Atom (AInt n) => Returns (decimal n)
  | TList items => Returns (txt "[" ++ str_join (txt ", ") (map toy_repr items) ++ txt "]")
  end.

Ltac not_in_text :=
  let H := fresh "H" in
  intros H; cbn in H; repeat (destruct H as [H | H]; [discriminate H |]); exact H.

(** ** Vocabulary of the further properties *)

(** [cut s t]: [t] is [s] with some segments deleted. *)
Inductive cut : str -> str -> Prop :=
| cut_nil : cut [] []
| cut_copy (c : ascii) (s t : str) : cut s t -> cut (c :: s) (c :: t)
| cut_drop (u s t : str) : cut s t -> cut (u ++ s) t.

(** The continuation of a closing literal [c] at the end of a pattern. *)
Definition lit_cont (c : str) (t : str) : option (str * list str) :=
  match strip_prefix c t with
  | Some t' => Some (t', [])
  | None => None
  end.

(** The pattern of a delimited block: the opening text [o], a lazy run of
    any characters, the closing text [c]. *)
Definition block_regex (o c : str) : regex :=
  Lit o >> Rep false 0 None any >> Lit c.

(** The least number of characters a match of a pattern takes. *)
Fixpoint min_len (r : regex) : nat :=
  match r with
  | Lit l => length l
  | Rep _ lo _ _ => lo
  | Cat r1 r2 => min_len r1 + min_len r2
  | Alt r1 r2 => Nat.min (min_len r1) (min_len r2)
  | Grp r1 => min_len r1
  | Eos => 0
  end.

(** The members named [*.tex] and [*.bbl], and the mapping after the loop. *)
Definition tex_members (tar : tarball) : result (list str) :=
  names_ending tar (txt ".tex").

Definition bbl_members (tar : tarball) : result (list str) :=
  names_ending tar (txt ".bbl").

Definition normalized_files (tar : tarball) : result dict :=
  tex_files <- tex_members tar ;;
  bbl_file <- bbl_members tar ;;
  after_loop <- read_files tar tex_files (resolve_main tex_files bbl_file) [] ;;
  Ok (snd after_loop).

(** The member [t] is a regular file whose normalized content holds, or
    does not hold, [\begin{document}]. *)
Definition has_document_block (tar : tarball) (t : str) : Prop :=
  exists content,
    extractfile tar t = Ok content /\
    occurs (txt "\begin{document}") (normalize content).

Definition lacks_document_block (tar : tarball) (t : str) : Prop :=
  exists content,
    extractfile tar t = Ok content /\
    ~ occurs (txt "\begin{document}") (normalize content).

(** The test of the loop on the member [t], once it is read. *)
Definition block_found (tar : tarball) (t : str) : bool :=
  match extractfile tar t with
  | Ok content => is_match re_begin_document (normalize content)
  | Raise _ => false
  end.

(** The resolver defers to the search for the document block: no [.bbl]
    member and several [.tex] members, one [.bbl] member whose candidate is
    no [.tex] member, or several [.bbl] members. *)
Definition deferred (tex_files bbl_file : list str) : Prop :=
  (bbl_file = [] /\ 2 <= length tex_files) \/
  (exists b, bbl_file = [b] /\
             ~ In (str_replace b (txt ".bbl") [] ++ txt ".tex") tex_files) \/
  2 <= length bbl_file.

(** Sample bundles for the further properties. *)
Definition bundle_two_tex : tarball :=
  files [(txt "notes.tex", txt "% \begin{document}" ++ [nl] ++ txt "notes");
         (txt "paper.tex", txt "\begin{document}\input{notes}\end{document}");
         (txt "fig.png", [])].

Definition bundle_one_tex : tarball :=
  files [(txt "only.tex", txt "no document block %x" ++ [nl]); (txt "readme.md", txt "r")].

Definition bundle_no_block : tarball :=
  files [(txt "a.tex", txt "A"); (txt "b.tex", txt "B"); (txt "a.bbl", []);
         (txt "b.bbl", [])].

(** A directory named like a source file, before the main document. *)
Definition bundle_with_directory : tarball :=
  Archive [(txt "d.tex", NotFile);
           (txt "main.tex", File (txt "\begin{document}x\end{document}"))].

Definition clean_text : str :=
  txt "\section{A} 50 percent" ++ [nl] ++ txt "x  y \emph{z}" ++ [nl] ++ txt "end % open".

Definition doc_conclusion_only : str :=
  txt "\begin{document}Text~\cite{k}.\section{Conclusion}Baz." ++ [nl].

Definition doc_with_author : str :=
  txt "\title{T}\author{A. B.\\ Univ}\maketitle\begin{document}\begin{abstract}".

Definition doc_with_head : str :=
  txt "\begin{document}\title{T} C. D., Inst\begin{abstract}Abs".

Definition paper_versioned : ArxivPaper :=
  {| _paper := {| short_id := txt "2101.00001v12"; title := txt "T"; summary := txt "S";
                  authors := []; pdf_url_field := None;
                  links := Some [{| href := txt "http://arxiv.org/abs/2101.00001v12";
                                    link_title := None |}] |};
     score := None; arxiv_id_slot := None |}.

Definition with_arxiv_id (self : ArxivPaper) (v : str) : ArxivPaper :=
  {| _paper := _paper self; score := score self; arxiv_id_slot := Some v |}.

(** ** Vocabulary of the lookup *)

Module PwcSpec.
Import Pwc.

(** The class state before any access. *)
Definition initial : World :=
  {| _PWC_SESSION := None; _CODE_URL_CACHE := []; sessions_made := 0; sent := [] |}.

Definition fresh (p : ArxivPaper) : Instance :=
  {| paper := p; code_url_slot := None |}.

(** The identifier that [self.arxiv_id] gives. *)
Definition id_of (o : Instance) : str := fst (arxiv_id (paper o)).

(** The object once [arxiv_id] has been read. *)
Definition id_read (o : Instance) : Instance :=
  {| paper := snd (arxiv_id (paper o)); code_url_slot := code_url_slot o |}.

Definition at_object (o : Instance) (w : World) : State :=
  {| this := id_read o; klass := w |}.

(** The object once [code_url] has returned [v]. *)
Definition url_read (o : Instance) (v : pyval) : Instance :=
  {| paper := snd (arxiv_id (paper o)); code_url_slot := Some v |}.

(** [m], run on [o] in the class state [w], leaves [o] as it is after
    [arxiv_id] was read, and its result and class state satisfy [Q]. *)
Definition runs {A : Type} (o : Instance) (m : M A) (w : World)
    (Q : result A -> World -> Prop) : Prop :=
  exists r w', m (at_object o w) = (r, at_object o w') /\ Q r w'.

(** The session that [_make_session] configures when [n] sessions were made
    before. *)
Definition retry_policy : Retry :=
  {| total := 5; connect := 5; read := 5; backoff_factor := one_half;
     status_forcelist := [429; 500; 502; 503; 504]%Z;
     allowed_methods := [txt "GET"];
     respect_retry_after_header := true;
     raise_on_status := false |}.

Definition configured (n : nat) : Session :=
  let adapter :=
    {| max_retries := retry_policy; pool_connections := 10; pool_maxsize := 10 |} in
  {| session_no := n;
     mounts := [(txt "https://", adapter); (txt "http://", adapter)];
     headers := [(txt "User-Agent", user_agent)] |}.

(** The session that [_session] returns in [w], and [w] afterwards. *)
Definition session_for (w : World) : Session :=
  match _PWC_SESSION w with
  | Some s => s
  | None => configured (sessions_made w)
  end.

Definition with_session (w : World) : World :=
  match _PWC_SESSION w with
  | Some _ => w
  | None =>
      {| _PWC_SESSION := Some (configured (sessions_made w));
         _CODE_URL_CACHE := _CODE_URL_CACHE w;
         sessions_made := S (sessions_made w);
         sent := sent w |}
  end.

Definition the_request (s : Session) (u : str) : Request :=
  {| via := s; url := u; timeout := (5, 15)%Z |}.

Definition request_sent (w : World) (rq : Request) : World :=
  {| _PWC_SESSION := _PWC_SESSION w;
     _CODE_URL_CACHE := _CODE_URL_CACHE w;
     sessions_made := sessions_made w;
     sent := sent w ++ [rq] |}.

Definition cached (w : World) (k : str) (v : pyval) : World :=
  {| _PWC_SESSION := _PWC_SESSION w;
     _CODE_URL_CACHE := setitem (_CODE_URL_CACHE w) k v;
     sessions_made := sessions_made w;
     sent := sent w |}.

(** What one run of the wrapped function does to the class state. *)
Definition lookup_effect (id : str) (w : World) (r : result pyval) (w' : World) : Prop :=
  match item (_CODE_URL_CACHE w) id with
  | Some v => r = Ok v /\ w' = w
  | None =>
      exists new,
        _PWC_SESSION w' = Some (session_for w) /\
        sessions_made w' = sessions_made (with_session w) /\
        sent w' = sent w ++ new /\
        1 <= length new <= 2 /\
        Forall (fun rq => via rq = session_for w /\ timeout rq = (5, 15)%Z) new /\
        _CODE_URL_CACHE w' =
          match r with
          | Ok v => setitem (_CODE_URL_CACHE w) id v
          | Raise _ => _CODE_URL_CACHE w
          end
  end.

(** Reading [code_url] of the objects [os] one after the other, whatever
    each access returns or raises. *)
Fixpoint accesses (http_get : list Request -> Request -> get_outcome)
    (format_value : pyval -> str) (os : list Instance) (w : World) : World :=
  match os with
  | [] => w
  | o :: os' =>
      accesses http_get format_value os'
        (klass (snd (code_url http_get format_value {| this := o; klass := w |})))
  end.

(** A class state with at most one session, through which every request
    went. *)
Definition one_session (w : World) : Prop :=
  match _PWC_SESSION w with
  | None => sessions_made w = 0 /\ sent w = []
  | Some s =>
      sessions_made w = 1 /\ s = configured 0 /\
      Forall (fun rq => via rq = s /\ timeout rq = (5, 15)%Z) (sent w)
  end.

(** A network that is down, and one that knows a repository. *)
Definition network_down (_ : list Request) (_ : Request) : get_outcome := RequestFails.

Definition json_answer (v : pyval) : get_outcome :=
  Responds {| status_code := 200;
              content_type := Some (txt "Application/JSON; charset=utf-8");
              json := Decoded v |}.

Definition one_result (v : pyval) : pyval :=
  PDict [(txt "count", PInt 1); (txt "results", PList [v])].

Definition network_up (before : list Request) (_ : Request) : get_outcome :=
  match before with
  | [] => json_answer (one_result (PDict [(txt "id", PStr (txt "some-paper"))]))
  | _ => json_answer (one_result (PDict [(txt "url", PStr (txt "https://github.com/a/b"))]))
  end.

(** A network that answers with a JSON array. *)
Definition network_array (_ : list Request) (_ : Request) : get_outcome :=
  json_answer (PList [PInt 1]).

Definition show (v : pyval) : str :=
  match v with PStr s => s | _ => txt "?" end.

Definition paper_plain : ArxivPaper :=
  {| _paper := {| short_id := txt "2101.00001v2"; title := txt "T"; summary := txt "S";
                  authors := []; pdf_url_field := None; links := None |};
     score := None; arxiv_id_slot := None |}.

End PwcSpec.

(** * Properties *)

(** ** Text and matcher lemmas *)

Lemma strip_prefix_app (l t : str) : strip_prefix l (l ++ t) = Some t.
Proof.
  induction l as [| a l IH]; cbn; [reflexivity |].
  rewrite Ascii.eqb_refl. exact IH.
Qed.

Lemma strip_prefix_Some (l s t : str) : strip_prefix l s = Some t -> s = l ++ t.
Proof.
  revert s. induction l as [| a l IH]; intros s H; cbn in *.
  - congruence.
  - destruct s as [| c s]; [discriminate |].
    destruct (Ascii.eqb_spec a c) as [-> | _]; [| discriminate].
    f_equal. apply IH. exact H.
Qed.

Lemma strip_prefix_head (a c : ascii) (l s : str) :
  a <> c -> strip_prefix (a :: l) (c :: s) = None.
Proof.
  intros H. cbn. destruct (Ascii.eqb_spec a c); [contradiction | reflexivity].
Qed.

Lemma consumed_app (u rest : str) : consumed (u ++ rest) rest = u.
Proof.
  unfold consumed. rewrite length_app.
  replace (length u + length rest - length rest) with (length u + 0) by lia.
  rewrite firstn_app_2. cbn. apply app_nil_r.
Qed.

Lemma no_nl_dot (l : str) : ~ In nl l <-> forallb dot l = true.
Proof.
  induction l as [| c l IH]; cbn.
  - tauto.
  - rewrite andb_true_iff, <- IH. unfold dot.
    destruct (Ascii.eqb_spec c nl) as [-> | Hc]; cbn.
    + split; [intros H; exfalso; apply H; auto | intros [H _]; discriminate].
    + split; [intros H; split; auto | intros [_ H] [E | E]; auto].
Qed.

Lemma startswith_true (s l : str) : startswith s l = true -> exists t, s = l ++ t.
Proof.
  unfold startswith. destruct (strip_prefix l s) as [t |] eqn:E; [| discriminate].
  intros _. exists t. apply strip_prefix_Some. exact E.
Qed.

Lemma startswith_false (s l : str) : startswith s l = false -> forall t, s <> l ++ t.
Proof.
  unfold startswith. intros H t ->. rewrite strip_prefix_app in H. discriminate.
Qed.

Lemma startswith_app (l t : str) : startswith (l ++ t) l = true.
Proof. unfold startswith. rewrite strip_prefix_app. reflexivity. Qed.

Lemma str_eqb_eq (a b : str) : str_eqb a b = true <-> a = b.
Proof.
  revert b. induction a as [| x a IH]; intros [| y b]; cbn; try (split; congruence).
  rewrite andb_true_iff, IH, Ascii.eqb_eq.
  split; [intros [-> ->]; reflexivity | intros E; injection E; auto].
Qed.

Lemma mem_str_In (x : str) (l : list str) : mem_str x l = true <-> In x l.
Proof.
  unfold mem_str. rewrite existsb_exists. split.
  - intros (y & Hy & E). apply str_eqb_eq in E. subst y. exact Hy.
  - intros H. exists x. split; [exact H | apply str_eqb_eq; reflexivity].
Qed.

Lemma endswith_app (a l : str) : endswith (a ++ l) l = true.
Proof. unfold endswith. rewrite rev_app_distr. apply startswith_app. Qed.

Section SubLemmas.
Variables (r : regex) (repl : str).

Lemma sub_from_skip (pre s : str) :
  sub_from r repl (length pre) (pre ++ s) = sub_from r repl 0 s.
Proof. induction pre as [| c pre IH]; cbn; [reflexivity | exact IH]. Qed.

Lemma sub_nil : match_at r [] = None -> sub r repl [] = [].
Proof. unfold sub. cbn. intros ->. reflexivity. Qed.

Lemma sub_miss (c : ascii) (s : str) :
  match_at r (c :: s) = None -> sub r repl (c :: s) = c :: sub r repl s.
Proof. unfold sub. cbn [sub_from]. intros ->. reflexivity. Qed.

Lemma sub_hit (c : ascii) (t u s : str) (caps : list str) :
  t = u ++ s ->
  match_at r (c :: t) = Some (s, caps) ->
  sub r repl (c :: t) = repl ++ sub r repl s.
Proof.
  intros ->. unfold sub. cbn [sub_from]. intros ->.
  replace (length (c :: u ++ s) - length s) with (S (length u))
    by (cbn [length]; rewrite length_app; lia).
  rewrite sub_from_skip. reflexivity.
Qed.
End SubLemmas.

Lemma search_hit (r : regex) (s rest : str) (caps : list str) :
  match_at r s = Some (rest, caps) ->
  search r s = Some (Match 0 (consumed s rest) caps).
Proof. destruct s; cbn; intros ->; reflexivity. Qed.

Lemma search_miss (r : regex) (c : ascii) (s : str) :
  match_at r (c :: s) = None ->
  search r (c :: s) = option_map shift (search r s).
Proof. cbn [search]. intros ->. reflexivity. Qed.

Lemma search_none (r : regex) (s : str) :
  (forall p q, s = p ++ q -> match_at r q = None) -> search r s = None.
Proof.
  induction s as [| c s IH]; intros H.
  - cbn. rewrite (H [] []); reflexivity.
  - rewrite search_miss by (apply (H []); reflexivity).
    rewrite IH; [reflexivity |]. intros p q ->. apply (H (c :: p)). reflexivity.
Qed.

Lemma group0_shift (o : option mtch) :
  option_map m_group0 (option_map shift o) = option_map m_group0 o.
Proof. destruct o; reflexivity. Qed.

Lemma search_skip_prefix (r : regex) (pre s : str) :
  (forall p1 p2, pre = p1 ++ p2 -> p2 <> [] -> match_at r (p2 ++ s) = None) ->
  option_map m_group0 (search r (pre ++ s)) = option_map m_group0 (search r s).
Proof.
  induction pre as [| c pre IH]; intros H; [reflexivity |].
  cbn [app]. rewrite search_miss by (apply (H [] (c :: pre)); [reflexivity | discriminate]).
  rewrite group0_shift. apply IH.
  intros p1 p2 -> Hne. apply (H (c :: p1) p2); [reflexivity | exact Hne].
Qed.

Section RepLemmas.
Variable A : Type.
Variable cls : ascii -> bool.

(** No continuation anywhere: no match. *)
Lemma rep_none (g : bool) (lo : nat) (hi : option nat) (s : str)
      (k : str -> option A) :
  (forall l1 l2, s = l1 ++ l2 -> k l2 = None) ->
  rep g cls lo hi s k = None.
Proof.
  revert lo hi. induction s as [| c s IH]; intros lo hi H.
  - cbn. destruct lo; [apply (H [] []); reflexivity | reflexivity].
  - assert (Hs : match lo with 0 => k (c :: s) | S _ => None end = None).
    { destruct lo; [apply (H [] (c :: s)); reflexivity | reflexivity]. }
    assert (Hr : rep g cls (pred lo) (one_less hi) s k = None).
    { apply IH. intros l1 l2 ->. apply (H (c :: l1) l2). reflexivity. }
    cbn [rep]. rewrite Hs, Hr.
    destruct (cls c && has_room hi), g; reflexivity.
Qed.

(** A greedy unbounded run takes all of [l] when the continuation accepts
    what follows. *)
Lemma rep_greedy_hit (l s' : str) (lo : nat) (k : str -> option A) (x : A) :
  forallb cls l = true -> stops cls s' -> lo <= length l -> k s' = Some x ->
  rep true cls lo None (l ++ s') k = Some x.
Proof.
  revert lo. induction l as [| a l IH]; intros lo Hl Hs Hlo Hk.
  - cbn in Hlo. assert (lo = 0) by lia. subst lo. cbn [app].
    destruct s' as [| c s']; cbn; [exact Hk |].
    cbn in Hs. rewrite Hs. cbn. exact Hk.
  - cbn in Hl. apply andb_true_iff in Hl as [Ha Hl].
    cbn [app rep]. rewrite Ha. cbn [andb has_room one_less].
    rewrite (IH (pred lo)); auto. cbn in Hlo. lia.
Qed.

(** A run shorter than the lower bound is no match. *)
Lemma rep_greedy_short (l s' : str) (lo : nat) (k : str -> option A) :
  forallb cls l = true -> stops cls s' -> length l < lo ->
  rep true cls lo None (l ++ s') k = None.
Proof.
  revert lo. induction l as [| a l IH]; intros lo Hl Hs Hlo.
  - destruct lo; [cbn in Hlo; lia |]. cbn [app].
    destruct s' as [| c s']; cbn; [reflexivity |].
    cbn in Hs. rewrite Hs. reflexivity.
  - cbn in Hl. apply andb_true_iff in Hl as [Ha Hl].
    destruct lo; [cbn in Hlo; lia |].
    cbn [app rep]. rewrite Ha. cbn [andb has_room one_less pred].
    rewrite IH; auto. cbn in Hlo. lia.
Qed.

(** A greedy star whose continuation rejects every text that starts with a
    character of the class gives the continuation the end of the run. *)
Lemma rep_greedy_commit (l s' : str) (k : str -> option A) :
  forallb cls l = true -> stops cls s' ->
  (forall c t, cls c = true -> k (c :: t) = None) ->
  rep true cls 0 None (l ++ s') k = k s'.
Proof.
  intros Hl Hs Hk. induction l as [| a l IH].
  - cbn [app]. destruct s' as [| c s']; cbn; [reflexivity |].
    cbn in Hs. rewrite Hs. reflexivity.
  - cbn in Hl. apply andb_true_iff in Hl as [Ha Hl].
    cbn [app rep]. rewrite Ha. cbn [andb has_room one_less pred].
    rewrite IH by exact Hl. rewrite (Hk a (l ++ s') Ha).
    destruct (k s'); reflexivity.
Qed.
End RepLemmas.

Lemma rep_lazy_any (A : Type) (s : str) (k : str -> option A) :
  rep false any 0 None s k = first_suffix k s.
Proof.
  induction s as [| c s IH]; cbn.
  - destruct (k []); reflexivity.
  - rewrite IH. reflexivity.
Qed.

Lemma rep_greedy_top (cls : ascii -> bool) (lo : nat) (l s' : str) :
  forallb cls l = true -> stops cls s' ->
  match_at (Rep true lo None cls) (l ++ s') =
  if lo <=? length l then Some (s', []) else None.
Proof.
  intros Hl Hs. unfold match_at. cbn [exec].
  destruct (Nat.leb_spec lo (length l)).
  - apply rep_greedy_hit; auto.
  - apply rep_greedy_short; auto.
Qed.

Lemma first_suffix_ext (A : Type) (k k' : str -> option A) (s : str) :
  (forall t, k t = k' t) -> first_suffix k s = first_suffix k' s.
Proof.
  intros H. induction s as [| c s IH]; cbn; rewrite H; [reflexivity |].
  rewrite IH. reflexivity.
Qed.

Lemma first_suffix_spec (A : Type) (k : str -> option A) (s : str) (x : A) :
  first_suffix k s = Some x ->
  exists body tail,
    s = body ++ tail /\ k tail = Some x /\
    forall b1 b2, body = b1 ++ b2 -> b2 <> [] -> k (b2 ++ tail) = None.
Proof.
  induction s as [| c s IH]; cbn.
  - destruct (k []) eqn:E; [| discriminate]. intros Hx. injection Hx as ->.
    exists [], []. repeat split; auto.
    intros b1 b2 Hb Hne. destruct b1, b2; cbn in Hb; congruence.
  - destruct (k (c :: s)) eqn:E.
    + intros Hx. injection Hx as ->. exists [], (c :: s). repeat split; auto.
      intros b1 b2 Hb Hne. destruct b1, b2; cbn in Hb; congruence.
    + intros Hx. destruct (IH Hx) as (body & tail & -> & Hk & Hmin).
      exists (c :: body), tail. repeat split; auto.
      intros b1 b2 Hb Hne. destruct b1 as [| c1 b1]; cbn in Hb.
      * subst b2. exact E.
      * injection Hb as _ Hb. apply (Hmin b1 b2 Hb Hne).
Qed.

Lemma first_suffix_total (A : Type) (k : str -> option A) (s : str) :
  k [] <> None -> first_suffix k s <> None.
Proof.
  intros H. induction s as [| c s IH]; cbn.
  - destruct (k []); congruence.
  - destruct (k (c :: s)); [discriminate | exact IH].
Qed.

Lemma str_length_ind (P : str -> Prop) :
  (forall s, (forall t, length t < length s -> P t) -> P s) -> forall s, P s.
Proof.
  intros H s. remember (length s) as n eqn:En. revert s En.
  induction n as [n IH] using lt_wf_ind. intros s ->.
  apply H. intros t Ht. apply (IH (length t) Ht t eq_refl).
Qed.

Lemma span (cls : ascii -> bool) (s : str) :
  exists l s', s = l ++ s' /\ forallb cls l = true /\ stops cls s'.
Proof.
  induction s as [| c s (l & s' & -> & Hl & Hs)].
  - exists [], []. repeat split.
  - destruct (cls c) eqn:E.
    + exists (c :: l), s'. cbn. rewrite E, Hl. repeat split. exact Hs.
    + exists [], (c :: l ++ s'). repeat split. exact E.
Qed.

Section SubShape.
Variables (r : regex) (repl : str) (U : str -> Prop).
Hypothesis match_sound :
  forall s rest caps, match_at r s = Some (rest, caps) ->
    exists u, s = u ++ rest /\ u <> [] /\ U u.

(** How [sub] goes on at the head of a text. *)
Lemma sub_cases (s : str) :
  (s = [] /\ sub r repl s = []) \/
  (exists c s', s = c :: s' /\ match_at r s = None /\
                sub r repl s = c :: sub r repl s') \/
  (exists u rest caps, s = u ++ rest /\ u <> [] /\ U u /\
                       match_at r s = Some (rest, caps) /\
                       sub r repl s = repl ++ sub r repl rest).
Proof.
  destruct (match_at r s) as [[rest caps] |] eqn:E.
  - right. right. destruct (match_sound _ E) as (u & -> & Hne & Hu).
    exists u, rest, caps. repeat split; auto.
    destruct u as [| c u]; [congruence |].
    cbn [app] in *. apply sub_hit with (u := u) (caps := caps); auto.
  - destruct s as [| c s'].
    + left. split; [reflexivity | apply sub_nil; exact E].
    + right. left. exists c, s'. repeat split; auto. apply sub_miss. exact E.
Qed.

Lemma sub_id (s : str) :
  (forall p q, s = p ++ q -> match_at r q = None) -> sub r repl s = s.
Proof.
  induction s as [| c s IH]; intros H.
  - apply sub_nil. apply (H [] []). reflexivity.
  - rewrite sub_miss by (apply (H []); reflexivity).
    f_equal. apply IH. intros p q ->. apply (H (c :: p)). reflexivity.
Qed.
End SubShape.

Lemma sub_shape (r : regex) (d : ascii) (U : str -> Prop) :
  (forall s rest caps, match_at r s = Some (rest, caps) ->
     exists u, s = u ++ rest /\ u <> [] /\ U u) ->
  forall s, shape U d s (sub r [d] s).
Proof.
  intros Hsound s. induction s as [s IH] using str_length_ind.
  destruct (@sub_cases r [d] U Hsound s)
    as [[-> ->] | [(c & s' & -> & _ & ->) | (u & rest & caps & -> & Hne & Hu & _ & ->)]].
  - constructor.
  - constructor. apply IH. cbn. lia.
  - cbn [app]. constructor; [exact Hu |]. apply IH.
    rewrite length_app. destruct u; [congruence | cbn; lia].
Qed.

Lemma not_occurs_strip (l s p q : str) :
  ~ occurs l s -> s = p ++ q -> strip_prefix l q = None.
Proof.
  intros Hno ->. destruct (strip_prefix l q) as [t |] eqn:E; [| reflexivity].
  exfalso. apply Hno. apply strip_prefix_Some in E. subst q. exists p, t. reflexivity.
Qed.

Lemma lit_cat_none (l : str) (r : regex) (q : str) :
  strip_prefix l q = None -> match_at (Lit l >> r) q = None.
Proof. intros H. unfold match_at. cbn [exec]. rewrite H. reflexivity. Qed.

Lemma lit_none (l q : str) : strip_prefix l q = None -> match_at (Lit l) q = None.
Proof. intros H. unfold match_at. cbn [exec]. rewrite H. reflexivity. Qed.

Lemma replace_from_skip (old new pre s : str) :
  replace_from old new (length pre) (pre ++ s) = replace_from old new 0 s.
Proof. induction pre as [| c pre IH]; cbn; [reflexivity | exact IH]. Qed.

Lemma str_find_Some (l s : str) (n : nat) :
  str_find l s = Some n ->
  forall pre t, s = pre ++ t -> length pre = n ->
  startswith t l = true /\
  forall p1 p2, pre = p1 ++ p2 -> p2 <> [] -> startswith (p2 ++ t) l = false.
Proof.
  revert n. induction s as [| c s IH]; intros n H pre t Hs Hn.
  - destruct pre; [| discriminate]. cbn in Hs. subst t.
    cbn in H. destruct (startswith [] l) eqn:E; [| discriminate].
    split; [reflexivity |]. intros p1 p2 Hp Hne. destruct p1, p2; cbn in Hp; congruence.
  - cbn [str_find] in H. destruct (startswith (c :: s) l) eqn:E.
    + injection H as <-. cbn in Hn. destruct pre; [| discriminate].
      cbn in Hs. subst t. split; [exact E |].
      intros p1 p2 Hp Hne. destruct p1, p2; cbn in Hp; congruence.
    + destruct (str_find l s) as [n' |] eqn:F; [| discriminate].
      cbn in H. injection H as <-.
      destruct pre as [| c' pre]; [discriminate |].
      cbn in Hs. injection Hs as <- Hs. cbn in Hn. injection Hn as Hn.
      destruct (IH n' eq_refl pre t Hs Hn) as [Ht Hmin].
      split; [exact Ht |]. intros p1 p2 Hp Hne.
      destruct p1 as [| c1 p1]; cbn in Hp.
      * subst p2. cbn [app]. rewrite <- Hs. exact E.
      * injection Hp as _ Hp. apply (Hmin p1 p2 Hp Hne).
Qed.

Lemma replace_first (old new pre post : str) :
  old <> [] ->
  (forall p1 p2, pre = p1 ++ p2 -> p2 <> [] ->
     startswith (p2 ++ old ++ post) old = false) ->
  str_replace (pre ++ old ++ post) old new = pre ++ new ++ str_replace post old new.
Proof.
  intros Hold. destruct old as [| o old]; [congruence |]. clear Hold.
  unfold str_replace. induction pre as [| c pre IH]; intros Hmin.
  - assert (E : startswith (o :: old ++ post) (o :: old) = true)
      by exact (startswith_app (o :: old) post).
    cbn [app replace_from]. rewrite E.
    cbn [length pred]. rewrite replace_from_skip. reflexivity.
  - assert (E : startswith (c :: pre ++ o :: old ++ post) (o :: old) = false)
      by (apply (Hmin [] (c :: pre) eq_refl); discriminate).
    cbn [app replace_from]. rewrite E.
    f_equal. apply IH. intros p1 p2 -> Hne. apply (Hmin (c :: p1) p2 eq_refl Hne).
Qed.

Lemma str_find_eq (l s : str) :
  str_find l s =
  if startswith s l then Some 0
  else match s with
       | [] => None
       | _ :: s' => option_map S (str_find l s')
       end.
Proof. destruct s; reflexivity. Qed.

Lemma str_find_None (l s : str) : str_find l s = None -> ~ occurs l s.
Proof.
  intros H (p & q & ->). revert H. induction p as [| c p IH]; rewrite str_find_eq.
  - cbn [app]. rewrite startswith_app. discriminate.
  - destruct (startswith ((c :: p) ++ l ++ q) l); [discriminate |].
    cbn [app]. destruct (str_find l (p ++ l ++ q)); [discriminate |].
    intros _. apply IH. reflexivity.
Qed.

Lemma first_occurrence (l s : str) :
  occurs l s ->
  exists pre rest,
    s = pre ++ l ++ rest /\
    forall p q, s = p ++ l ++ q -> length pre <= length p.
Proof.
  induction s as [| c s IH]; intros (p & q & E).
  - destruct p; [| discriminate]. exists [], q. split; [exact E |]. intros; cbn; lia.
  - destruct (startswith (c :: s) l) eqn:Hs.
    + apply startswith_true in Hs. destruct Hs as [t ->].
      exists [], t. split; [reflexivity |]. intros; cbn; lia.
    + destruct p as [| c' p]; cbn [app] in E.
      * exfalso. revert Hs. rewrite E. rewrite startswith_app. discriminate.
      * injection E as <- E.
        destruct IH as (pre & rest & -> & Hmin); [exists p, q; exact E |].
        exists (c :: pre), rest. split; [reflexivity |].
        intros p' q' E'. destruct p' as [| c'' p']; cbn [app] in E'.
        -- exfalso. revert Hs. rewrite E'. rewrite startswith_app. discriminate.
        -- injection E' as _ E'. cbn. apply le_n_S. apply (Hmin p' q' E').
Qed.

Lemma fold_left_ext_in (A B : Type) (g g' : A -> B -> A) (l : list B) (a : A) :
  (forall b, In b l -> forall x, g x b = g' x b) ->
  fold_left g l a = fold_left g' l a.
Proof.
  revert a. induction l as [| b l IH]; intros a H; [reflexivity |].
  cbn. rewrite (H b) by (left; reflexivity).
  apply IH. intros b' Hb'. apply H. right. exact Hb'.
Qed.

(** ** C1: the two directive spellings *)

(** C1 at [bundle_with_include]: the name [a] of the [\include] directive is
    found and [a.tex] is in the mapping, but only the text [\input{a}] is
    looked for, so the flattened document still holds [\include{a}]. *)
Theorem include_spelling_not_replaced :
  include_files (txt "\begin{document}\include{a}\end{document}") = [txt "a"] /\
  main_document bundle_with_include = Ok (Some (txt "main.tex")) /\
  tex (env_of_tar bundle_with_include) =
    Ok (Some [(txt "main.tex", txt "\begin{document}\include{a}\end{document}");
              (txt "a.tex", txt "AAA");
              (txt "all", txt "\begin{document}\include{a}\end{document}")]).
Proof. repeat split; vm_compute; reflexivity. Qed.

(** ** C2: the introduction and conclusion regions *)

Lemma exec_grp_top (r : regex) (s : str) :
  exec (Grp r) s [] (fun s' caps => Some (s', caps)) = exec r s [] (grp_top s).
Proof. reflexivity. Qed.

Lemma exec_alt_lit_grp (l : str) (r2 : regex) (s : str) :
  exec (Lit l <|> r2) s [] (grp_top s) =
  if startswith s l then Some (skipn (length l) s, [l])
  else exec r2 s [] (grp_top s).
Proof.
  cbn [exec]. unfold startswith.
  destruct (strip_prefix l s) as [t |] eqn:E; [| reflexivity].
  apply strip_prefix_Some in E. subst s. unfold grp_top.
  rewrite skipn_app, skipn_all, Nat.sub_diag, length_app. cbn [skipn app].
  replace (length l + length t - length t) with (length l + 0) by lia.
  rewrite firstn_app_2. cbn [firstn]. rewrite app_nil_r. reflexivity.
Qed.

Lemma end_word_exec (s : str) :
  exec (Grp re_end_word) s [] (fun s' caps => Some (s', caps)) = end_cont s.
Proof.
  rewrite exec_grp_top. unfold re_end_word, end_cont, end_word_at.
  rewrite !exec_alt_lit_grp.
  repeat match goal with
         | |- context [startswith s ?l] => destruct (startswith s l); [reflexivity |]
         end.
  cbn [exec]. unfold grp_top. rewrite Nat.sub_diag.
  destruct s as [| c [| c' s]]; cbn [firstn skipn length app]; try reflexivity.
  destruct (Ascii.eqb c nl); reflexivity.
Qed.

Lemma end_word_at_sound (s m : str) :
  end_word_at s = Some m ->
  exists after, s = m ++ after /\ ends_with_word m after /\ skipn (length m) s = after.
Proof.
  unfold end_word_at.
  repeat match goal with
         | |- context [startswith s ?l] =>
             let E := fresh "E" in
             destruct (startswith s l) eqn:E;
             [ intros Hm; injection Hm as <-; apply startswith_true in E;
               destruct E as [t ->]; exists t;
               rewrite skipn_app, skipn_all, Nat.sub_diag;
               split; [reflexivity | split; [left; cbn; tauto | reflexivity]]
             | ]
         end.
  destruct s as [| c [| c' s]]; try discriminate.
  - intros Hm. injection Hm as <-. exists [].
    split; [reflexivity | split; [right; auto | reflexivity]].
  - destruct (Ascii.eqb_spec c nl) as [-> | _]; [| discriminate].
    intros Hm. injection Hm as <-. exists [nl].
    split; [reflexivity | split; [right; auto | reflexivity]].
Qed.

Lemma end_word_at_none (s : str) : end_word_at s = None -> ~ end_word_here s.
Proof.
  intros H (m & after & -> & [Hin | [-> Hafter]]).
  - unfold end_word_at in H.
    cbn in Hin.
    repeat (destruct Hin as [<- | Hin];
            [ repeat match type of H with
                     | context [startswith ?a ?l] =>
                         first [ rewrite startswith_app in H
                               | destruct (startswith a l) ]
                     end; discriminate H | ]).
    exact Hin.
  - destruct Hafter as [-> | ->]; vm_compute in H; discriminate H.
Qed.

Lemma match_at_section (name s : str) :
  match_at (re_section name) s =
  match strip_prefix (section_heading name) s with
  | Some s1 => first_suffix end_cont s1
  | None => None
  end.
Proof.
  unfold match_at, re_section.
  change (exec (Lit (section_heading name) >> Rep false 0 None any >> Grp re_end_word)
            s [] (fun s' caps => Some (s', caps)))
    with (match strip_prefix (section_heading name) s with
          | Some s1 =>
              rep false any 0 None s1
                (fun s' => exec (Grp re_end_word) s' [] (fun s'' caps => Some (s'', caps)))
          | None => None
          end).
  destruct (strip_prefix (section_heading name) s) as [s1 |]; [| reflexivity].
  rewrite rep_lazy_any. apply first_suffix_ext. exact end_word_exec.
Qed.

Lemma find_region_spec (name content : str) :
  region_of name content (find_region name content).
Proof.
  unfold region_of, find_region. split.
  - intros Hno. rewrite search_none; [reflexivity |].
    intros p q ->. rewrite match_at_section.
    destruct (strip_prefix (section_heading name) q) as [t |] eqn:E; [| reflexivity].
    exfalso. apply Hno. apply strip_prefix_Some in E. subst q. exists p, t. reflexivity.
  - intros Hocc. destruct (first_occurrence Hocc) as (pre & rest & -> & Hfirst).
    assert (Hskip : option_map m_group0
                      (search (re_section name) (pre ++ section_heading name ++ rest))
                    = option_map m_group0
                        (search (re_section name) (section_heading name ++ rest))).
    { apply search_skip_prefix. intros p1 p2 -> Hne. rewrite match_at_section.
      destruct (strip_prefix (section_heading name) (p2 ++ section_heading name ++ rest))
        as [t |] eqn:E; [| reflexivity].
      exfalso. apply strip_prefix_Some in E.
      specialize (Hfirst p1 t). rewrite <- app_assoc in Hfirst.
      rewrite E in Hfirst. specialize (Hfirst eq_refl).
      rewrite length_app in Hfirst. destruct p2; [congruence | cbn in Hfirst; lia]. }
    assert (Hm := match_at_section name (section_heading name ++ rest)).
    rewrite strip_prefix_app in Hm.
    destruct (first_suffix end_cont rest) as [[rest' caps] |] eqn:E.
    2:{ exfalso. revert E. apply first_suffix_total. discriminate. }
    apply first_suffix_spec in E. destruct E as (body & tail & -> & Hk & Hmin).
    unfold end_cont in Hk. destruct (end_word_at tail) as [m |] eqn:Em; [| discriminate].
    injection Hk as <- <-.
    destruct (end_word_at_sound _ Em) as (after & -> & Hw & Hskipn).
    exists pre, body, m, after. repeat split; auto.
    + intros b1 b2 Hb Hne. apply end_word_at_none.
      specialize (Hmin b1 b2 Hb Hne). unfold end_cont in Hmin.
      destruct (end_word_at (b2 ++ m ++ after)); [discriminate | reflexivity].
    + rewrite Hskipn in Hm. rewrite (search_hit _ _ Hm) in Hskip.
      destruct (search (re_section name) (pre ++ section_heading name ++ body ++ m ++ after))
        as [mt |]; cbn [option_map m_group0] in Hskip; [| discriminate].
      assert (Hg : m_group0 mt =
                   consumed (section_heading name ++ body ++ m ++ after) after)
        by congruence.
      rewrite Hg.
      replace (section_heading name ++ body ++ m ++ after)
        with ((section_heading name ++ body ++ m) ++ after)
        by (rewrite <- !app_assoc; reflexivity).
      apply consumed_app.
Qed.

(** C2 as the code has it.  With [content] the flattened document after the
    removal of citations, figures and tables: when the heading does not occur
    in [content] the region is empty; when it occurs, the region runs from
    its first occurrence through the end word ([\section], [\end{document}],
    [\bibliography] or [\appendix]) at the earliest following place that has
    one, the end word included, or to the end of the text, a final newline
    left out. *)
Theorem tldr_regions_spec (d : dict) (all : str) :
  dict_get d (txt "all") = Some all ->
  region_of (txt "Introduction") (remove_noise all) (fst (tldr_regions (Some d))) /\
  region_of (txt "Conclusion") (remove_noise all) (snd (tldr_regions (Some d))).
Proof.
  intros Hall. unfold tldr_regions. rewrite Hall. cbn [fst snd].
  split; apply find_region_spec.
Qed.

Lemma tldr_regions_spec_witness :
  region_of (txt "Introduction") (remove_noise doc_two_sections)
    (fst (tldr_regions (Some [(txt "main.tex", doc_two_sections);
                              (txt "all", doc_two_sections)]))) /\
  region_of (txt "Conclusion") (remove_noise doc_two_sections)
    (snd (tldr_regions (Some [(txt "main.tex", doc_two_sections);
                              (txt "all", doc_two_sections)]))).
Proof.
  apply (@tldr_regions_spec [(txt "main.tex", doc_two_sections);
                             (txt "all", doc_two_sections)] doc_two_sections).
  reflexivity.
Defined.

(** C2 as the specification words it fails on a document with both sections: each region
    holds the end word that closes it. *)
Lemma region_includes_end_word :
  tldr_regions (Some [(txt "all", doc_two_sections)]) =
    (txt "\section{Introduction}Foo bar.\section",
     txt "\section{Conclusion}Baz.\end{document}") /\
  fst (tldr_regions (Some [(txt "all", doc_two_sections)]))
    <> txt "\section{Introduction}Foo bar." /\
  snd (tldr_regions (Some [(txt "all", doc_two_sections)]))
    <> txt "\section{Conclusion}Baz.".
Proof.
  split; [vm_compute; reflexivity |].
  split; vm_compute; discriminate.
Qed.

(** ** C3: one scan of the main document *)

(** C3 as the code has it.  The names to inline are collected in one scan of
    the main document before any replacement, so the flattened text depends
    on the mapping only through the files the main document names itself: a
    file named only inside an included file is never looked up.  When the
    scan finds the single name [a], the content of [a]'s file is put in place
    of the first [\input{a}] exactly as it is, directives included, and only
    the rest of the main document is searched for further [\input{a}]. *)
Theorem inline_single_scan (file_contents : dict) :
  (forall file_contents' main_source,
     (forall f, In f (include_files main_source) ->
        dict_get_default file_contents (tex_file_name f) [] =
        dict_get_default file_contents' (tex_file_name f) []) ->
     inline_includes file_contents main_source =
     inline_includes file_contents' main_source) /\
  (forall pre a post,
     include_files (pre ++ input_directive a ++ post) = [a] ->
     str_find (input_directive a) (pre ++ input_directive a ++ post)
       = Some (length pre) ->
     inline_includes file_contents (pre ++ input_directive a ++ post) =
     pre ++ dict_get_default file_contents (tex_file_name a) [] ++
     str_replace post (input_directive a)
       (dict_get_default file_contents (tex_file_name a) [])).
Proof.
  split.
  - intros d' main H. unfold inline_includes. apply fold_left_ext_in.
    intros f Hf x. unfold inline_one. rewrite (H f Hf). reflexivity.
  - intros pre a post Hscan Hfind. unfold inline_includes. rewrite Hscan.
    cbn [fold_left]. unfold inline_one. fold (input_directive a).
    destruct (@str_find_Some _ _ _ Hfind pre (input_directive a ++ post)
                eq_refl eq_refl) as [_ Hmin].
    apply replace_first; [discriminate | exact Hmin].
Qed.

Lemma inline_single_scan_witness :
  inline_includes nested_contents (txt "A:" ++ input_directive (txt "a") ++ txt ".")
    = inline_includes (dict_set nested_contents (txt "b.tex") (txt "changed"))
        (txt "A:" ++ input_directive (txt "a") ++ txt ".") /\
  inline_includes nested_contents (txt "A:" ++ input_directive (txt "a") ++ txt ".")
    = txt "A:" ++ txt "[\input{b}]" ++ txt ".".
Proof.
  destruct (inline_single_scan nested_contents) as [Hdep Hone].
  split.
  - apply Hdep. intros f Hf. vm_compute in Hf.
    destruct Hf as [<- | []]. reflexivity.
  - apply (Hone (txt "A:") (txt "a") (txt ".")); reflexivity.
Defined.

(** C3 as the specification words it fails when the main document names the inner file
    too: [a.tex] is included, its content holds [\input{b}], and the later
    replacement for the main document's own [\input{b}] rewrites that inner
    directive as well. *)
Lemma inner_directive_resolved :
  dict_get nested_contents (txt "a.tex") = Some (txt "[\input{b}]") /\
  inline_includes nested_contents (txt "\input{a}\input{b}") = txt "[BBB]BBB" /\
  str_find (txt "\input{b}")
    (inline_includes nested_contents (txt "\input{a}\input{b}")) = None.
Proof. repeat split; vm_compute; reflexivity. Qed.

(** ** C4: line comments *)

Lemma line_comment_miss (c : ascii) (s : str) :
  c <> percent -> match_at re_line_comment (c :: s) = None.
Proof.
  intros H. unfold match_at, re_line_comment. cbn [exec txt list_ascii_of_string].
  rewrite strip_prefix_head; [reflexivity |]. intros E. apply H. symmetry. exact E.
Qed.

Lemma line_comment_at_percent (l s' : str) :
  forallb dot l = true -> stops dot s' ->
  match_at re_line_comment (percent :: l ++ s') =
    match s' with
    | [] => None
    | _ :: rest => Some (rest, [])
    end.
Proof.
  intros Hl Hs. unfold match_at, re_line_comment.
  cbn [exec txt list_ascii_of_string strip_prefix]. rewrite Ascii.eqb_refl.
  rewrite rep_greedy_commit; auto.
  - destruct s' as [| c rest]; [reflexivity |].
    cbn in Hs. unfold dot in Hs. apply negb_false_iff in Hs.
    apply Ascii.eqb_eq in Hs. subst c. cbn. reflexivity.
  - intros c t Hc. unfold dot in Hc. apply negb_true_iff in Hc.
    apply Ascii.eqb_neq in Hc. cbn [exec].
    destruct (Ascii.eqb_spec nl c) as [E | _]; [| reflexivity].
    exfalso. apply Hc. symmetry. exact E.
Qed.

Lemma strip_line_comments_line (l rest : str) :
  forallb dot l = true ->
  strip_line_comments (l ++ nl :: rest) =
    before_percent l ++ nl :: strip_line_comments rest.
Proof.
  unfold strip_line_comments. induction l as [| c l IH]; intros Hl.
  - cbn [app before_percent]. apply sub_miss. apply line_comment_miss. discriminate.
  - cbn in Hl. apply andb_true_iff in Hl as [Hc Hl].
    cbn [app before_percent]. destruct (Ascii.eqb_spec c percent) as [-> | Hne].
    + change (nl :: sub re_line_comment [nl] rest)
        with ([nl] ++ sub re_line_comment [nl] rest).
      apply sub_hit with (u := l ++ [nl]) (caps := []).
      * rewrite <- app_assoc. reflexivity.
      * rewrite (line_comment_at_percent l (nl :: rest)); auto.
        cbn. reflexivity.
    + rewrite sub_miss by (apply line_comment_miss; exact Hne).
      rewrite IH by exact Hl. reflexivity.
Qed.

Lemma strip_line_comments_last (l : str) :
  forallb dot l = true -> strip_line_comments l = l.
Proof.
  unfold strip_line_comments. induction l as [| c l IH]; intros Hl.
  - apply sub_nil. reflexivity.
  - cbn in Hl. apply andb_true_iff in Hl as [Hc Hl].
    rewrite sub_miss; [rewrite IH by exact Hl; reflexivity |].
    destruct (Ascii.eqb_spec c percent) as [-> | Hne].
    + rewrite <- (app_nil_r l). rewrite (line_comment_at_percent l []); cbn; auto.
    + apply line_comment_miss. exact Hne.
Qed.

(** C4 as the code has it.  On every line that ends in a newline, the text
    from the first [%] of the line (whether or not a backslash precedes it)
    to the end of the line is removed and the newline is kept; a last line
    without a newline is left as it is. *)
Theorem strip_line_comments_lines (ls : list str) (last : str) :
  Forall (fun l => ~ In nl l) ls -> ~ In nl last ->
  strip_line_comments (unlines ls last) = unlines (map before_percent ls) last.
Proof.
  intros Hls Hlast. induction Hls as [| l ls Hl _ IH]; cbn [unlines fold_right map].
  - apply strip_line_comments_last. apply no_nl_dot. exact Hlast.
  - rewrite strip_line_comments_line by (apply no_nl_dot; exact Hl).
    f_equal. f_equal. exact IH.
Qed.

Lemma strip_line_comments_lines_witness :
  strip_line_comments (unlines [txt "x = 1 % set x"; txt "50\% of"] (txt "end % open"))
  = unlines [txt "x = 1 "; txt "50\"] (txt "end % open").
Proof.
  apply (@strip_line_comments_lines [txt "x = 1 % set x"; txt "50\% of"]
           (txt "end % open")).
  - repeat constructor; cbn; intros H;
      repeat (destruct H as [H | H]; [discriminate H |]); exact H.
  - cbn; intros H;
      repeat (destruct H as [H | H]; [discriminate H |]); exact H.
Defined.

(** C4 as the specification words it fails on a line with an escaped marker: the text
    after [\%] is removed with the marker. *)
Lemma escaped_percent_not_preserved :
  strip_line_comments (txt "50\% of cases" ++ [nl]) = txt "50\" ++ [nl] /\
  normalize (txt "50\% of cases" ++ [nl]) = txt "50\" ++ [nl] /\
  str_find (txt " of cases") (normalize (txt "50\% of cases" ++ [nl])) = None.
Proof. repeat split; vm_compute; reflexivity. Qed.

(** ** C5: a bundle without source-text files *)

(** C5. For a bundle with no [.tex] member the pipeline has no main document
    and [tex] returns [None]: no mapping is built, and what is returned is
    not the empty mapping. *)
Theorem no_tex_files_no_mapping (env : source_env) (file : str) (tar : tarball) :
  download_source env = Ok file ->
  tarfile_open env file = Ok tar ->
  names_ending tar (txt ".tex") = Ok [] ->
  main_document tar = Ok None /\
  tex env = Ok None /\
  tex env <> Ok (Some []).
Proof.
  intros Hd Ho Hf.
  assert (Ht : tex env = Ok None).
  { unfold tex. rewrite Hd, Ho. unfold tex_of_tar. rewrite Hf. reflexivity. }
  split; [| split].
  - unfold main_document. rewrite Hf. cbn [bind].
    destruct (names_ending tar (txt ".bbl")) as [bbl_file | e] eqn:Hb.
    + cbn [bind read_files fst]. unfold resolve_main.
      destruct bbl_file as [| b [| b' l]]; reflexivity.
    + exfalso. unfold names_ending in Hf, Hb.
      destruct (getnames tar); cbn [bind] in Hf, Hb; discriminate.
  - exact Ht.
  - rewrite Ht. discriminate.
Qed.

Lemma no_tex_files_no_mapping_witness :
  main_document bundle_without_tex = Ok None /\
  tex (env_of_tar bundle_without_tex) = Ok None /\
  tex (env_of_tar bundle_without_tex) <> Ok (Some []).
Proof.
  apply (no_tex_files_no_mapping (env_of_tar bundle_without_tex)
           (file := txt "source.tar.gz") (tar := bundle_without_tex));
    reflexivity.
Defined.

(** C5 as the claim words it fails at [bundle_without_tex]: [tex] returns
    [None] there, which is no mapping. *)
Lemma none_is_not_empty_mapping :
  names_ending bundle_without_tex (txt ".tex") = Ok [] /\
  tex (env_of_tar bundle_without_tex) = Ok None /\
  tex (env_of_tar bundle_without_tex) <> Ok (Some []).
Proof.
  split; [reflexivity |]. split; [reflexivity | discriminate].
Qed.

(** ** C6: normalizing twice *)

Section ShapeLemmas.
Variables (U : str -> Prop) (d : ascii).

Lemma shape_prefix (m s t q : str) :
  ~ In d m -> shape U d s t -> t = m ++ q -> exists q', s = m ++ q'.
Proof.
  revert s t. induction m as [| a m IH]; intros s t Hd Hsh Ht.
  - exists s. reflexivity.
  - subst t. inversion Hsh as [| c s' t' Hsh' | u s' t' Hu Hsh']; subst.
    + destruct (IH s' (m ++ q)) as [q' ->]; auto.
      * intros Hin. apply Hd. right. exact Hin.
      * exists q'. reflexivity.
    + exfalso. apply Hd. left. reflexivity.
Qed.

Lemma shape_occurs (m s t : str) :
  ~ In d m -> m <> [] -> shape U d s t -> occurs m t -> occurs m s.
Proof.
  intros Hd Hne Hsh. induction Hsh as [| c s t Hsh IH | u s t Hu Hsh IH];
    intros (p & q & Ht).
  - destruct p, m; cbn in Ht; congruence.
  - destruct p as [| c' p]; cbn [app] in Ht.
    + destruct (@shape_prefix m (c :: s) (c :: t) q Hd) as [q' ->]; auto.
      * constructor. exact Hsh.
      * exists [], q'. reflexivity.
    + injection Ht as <- Ht.
      destruct IH as (p' & q' & ->); [exists p, q; exact Ht |].
      exists (c :: p'), q'. reflexivity.
  - destruct p as [| c' p]; cbn [app] in Ht.
    + destruct m as [| a m]; [congruence |]. cbn in Ht. injection Ht as <- _.
      exfalso. apply Hd. left. reflexivity.
    + injection Ht as _ Ht.
      destruct IH as (p' & q' & ->); [exists p, q; exact Ht |].
      exists (u ++ p'), q'. rewrite <- app_assoc. reflexivity.
Qed.

Lemma shape_in (b : ascii) (s t : str) :
  (b = d -> forall u, U u -> In b u) ->
  shape U d s t -> In b t -> In b s.
Proof.
  intros Hb Hsh. induction Hsh as [| c s t Hsh IH | u s t Hu Hsh IH]; intros Hin.
  - exact Hin.
  - destruct Hin as [-> | Hin]; [left; reflexivity | right; apply IH; exact Hin].
  - apply in_or_app. destruct Hin as [<- | Hin].
    + left. apply Hb; auto.
    + right. apply IH. exact Hin.
Qed.

Lemma shape_pair (a b : ascii) (s t : str) :
  a <> d -> (b = d -> forall u, U u -> In b u) ->
  shape U d s t ->
  (exists p l r, t = p ++ a :: l ++ b :: r) ->
  exists p l r, s = p ++ a :: l ++ b :: r.
Proof.
  intros Ha Hb Hsh. induction Hsh as [| c s t Hsh IH | u s t Hu Hsh IH];
    intros (p & l & r & Ht).
  - destruct p; cbn in Ht; discriminate.
  - destruct p as [| c' p]; cbn [app] in Ht.
    + injection Ht as -> ->.
      assert (Hin : In b s).
      { apply (shape_in Hb Hsh). apply in_or_app. right. left. reflexivity. }
      apply in_split in Hin. destruct Hin as (l1 & l2 & ->).
      exists [], l1, l2. reflexivity.
    + injection Ht as <- Ht.
      destruct IH as (p' & l' & r' & ->); [exists p, l, r; exact Ht |].
      exists (c :: p'), l', r'. reflexivity.
  - destruct p as [| c' p]; cbn [app] in Ht.
    + injection Ht as E _. exfalso. apply Ha. symmetry. exact E.
    + injection Ht as _ Ht.
      destruct IH as (p' & l' & r' & ->); [exists p, l, r; exact Ht |].
      exists (u ++ p'), l', r'. rewrite <- app_assoc. reflexivity.
Qed.
End ShapeLemmas.

(** *** The matches of the three replacing steps *)

Lemma line_comment_sound (s rest : str) (caps : list str) :
  match_at re_line_comment s = Some (rest, caps) ->
  exists l, s = percent :: l ++ nl :: rest.
Proof.
  destruct s as [| c t]; [discriminate |].
  destruct (Ascii.eqb_spec c percent) as [-> | Hne].
  2:{ rewrite line_comment_miss by exact Hne. discriminate. }
  destruct (span dot t) as (l & s' & -> & Hl & Hs).
  rewrite line_comment_at_percent by assumption.
  destruct s' as [| x rest']; [discriminate |].
  intros H. injection H as <- _.
  cbn in Hs. unfold dot in Hs. apply negb_false_iff in Hs.
  apply Ascii.eqb_eq in Hs. subst x. exists l. reflexivity.
Qed.

Lemma line_comment_segment (s rest : str) (caps : list str) :
  match_at re_line_comment s = Some (rest, caps) ->
  exists u, s = u ++ rest /\ u <> [] /\ In nl u.
Proof.
  intros H. destruct (line_comment_sound _ H) as [l ->].
  exists (percent :: l ++ [nl]). repeat split.
  - cbn [app]. rewrite <- app_assoc. reflexivity.
  - discriminate.
  - right. apply in_or_app. right. left. reflexivity.
Qed.

Lemma newlines_segment (s rest : str) (caps : list str) :
  match_at re_newlines s = Some (rest, caps) ->
  exists u, s = u ++ rest /\ u <> [] /\ In nl u.
Proof.
  destruct (span (chr nl) s) as (l & s' & -> & Hl & Hs).
  unfold re_newlines. rewrite rep_greedy_top by assumption.
  destruct l as [| a l]; [discriminate |].
  cbn [length Nat.leb]. intros H. injection H as <- _.
  exists (a :: l). repeat split; [discriminate |].
  cbn [forallb] in Hl. apply andb_true_iff in Hl as [Ha _].
  unfold chr in Ha. apply Ascii.eqb_eq in Ha. left. symmetry. exact Ha.
Qed.

Lemma hspaces_sound (s rest : str) (caps : list str) :
  match_at re_hspaces s = Some (rest, caps) ->
  exists a b c u, s = a :: b :: c :: u ++ rest /\
                  hspace a = true /\ hspace b = true /\ hspace c = true.
Proof.
  destruct (span hspace s) as (l & s' & -> & Hl & Hs).
  unfold re_hspaces. rewrite rep_greedy_top by assumption.
  destruct l as [| a [| b [| c l]]]; try discriminate.
  cbn [length Nat.leb]. intros H. injection H as <- _.
  cbn [forallb] in Hl. repeat (apply andb_true_iff in Hl as [? Hl]).
  exists a, b, c, l. repeat split; assumption.
Qed.

Lemma hspaces_segment (s rest : str) (caps : list str) :
  match_at re_hspaces s = Some (rest, caps) ->
  exists u, s = u ++ rest /\ u <> [] /\ True.
Proof.
  intros H. destruct (hspaces_sound _ H) as (a & b & c & u & -> & _).
  exists (a :: b :: c :: u). repeat split. discriminate.
Qed.

Lemma strip_line_comments_shape (s : str) :
  shape (fun u => In nl u) nl s (strip_line_comments s).
Proof. apply sub_shape. exact line_comment_segment. Qed.

Lemma collapse_newlines_shape (s : str) :
  shape (fun u => In nl u) nl s (collapse_newlines s).
Proof. apply sub_shape. exact newlines_segment. Qed.

Lemma collapse_hspaces_shape (s : str) :
  shape (fun _ => True) space s (collapse_hspaces s).
Proof. apply sub_shape. exact hspaces_segment. Qed.

(** *** Steps that leave a text without their marker alone *)

Lemma strip_comment_blocks_id (s : str) :
  ~ occurs (txt "\begin{comment}") s -> strip_comment_blocks s = s.
Proof.
  intros H. apply sub_id. intros p q E. apply lit_cat_none.
  apply (@not_occurs_strip _ _ _ _ H E).
Qed.

Lemma strip_iffalse_blocks_id (s : str) :
  ~ occurs (txt "\iffalse") s -> strip_iffalse_blocks s = s.
Proof.
  intros H. apply sub_id. intros p q E. apply lit_cat_none.
  apply (@not_occurs_strip _ _ _ _ H E).
Qed.

Lemma remove_linebreaks_id (s : str) :
  ~ occurs [bslash; bslash] s -> remove_linebreaks s = s.
Proof.
  intros H. apply sub_id. intros p q E. apply lit_none.
  apply (@not_occurs_strip _ _ _ _ H E).
Qed.

(** *** Line comments *)

Lemma strip_line_comments_no_pct (s : str) :
  ~ pct_before_nl (strip_line_comments s).
Proof.
  induction s as [s IH] using str_length_ind. unfold strip_line_comments in *.
  destruct (@sub_cases re_line_comment [nl] _ line_comment_segment s)
    as [[-> ->] | [(c & s' & -> & Hnone & ->) | (u & rest & caps & -> & Hne & Hu & _ & ->)]].
  - intros (p & l & r & E). destruct p; discriminate.
  - intros (p & l & r & E). destruct p as [| c' p]; cbn [app] in E.
    + injection E as -> E.
      assert (Hin : In nl s').
      { apply (shape_in (U := fun u => In nl u) (d := nl) (b := nl))
          with (t := sub re_line_comment [nl] s').
        - intros _ u Hu. exact Hu.
        - apply strip_line_comments_shape.
        - rewrite E. apply in_or_app. right. left. reflexivity. }
      destruct (span dot s') as (l0 & s2 & -> & Hl0 & Hs2).
      rewrite line_comment_at_percent in Hnone by assumption.
      destruct s2 as [| x s2]; [| discriminate].
      rewrite app_nil_r in Hin. apply no_nl_dot in Hl0. contradiction.
    + injection E as _ E. apply (IH s'); [cbn; lia |]. exists p, l, r. exact E.
  - intros (p & l & r & E). destruct p as [| c' p]; cbn [app] in E.
    + discriminate.
    + injection E as _ E. apply (IH rest).
      * rewrite length_app. destruct u; [congruence | cbn; lia].
      * exists p, l, r. exact E.
Qed.

Lemma strip_line_comments_id (s : str) :
  ~ pct_before_nl s -> strip_line_comments s = s.
Proof.
  intros H. apply sub_id. intros p q ->.
  destruct (match_at re_line_comment q) as [[rest caps] |] eqn:E; [| reflexivity].
  exfalso. apply H. destruct (line_comment_sound _ E) as [l ->].
  exists p, l, rest. reflexivity.
Qed.

(** *** Blank lines *)

Lemma newlines_sound (s rest : str) (caps : list str) :
  match_at re_newlines s = Some (rest, caps) ->
  exists l, s = l ++ rest /\ l <> [] /\ forallb (chr nl) l = true /\
            stops (chr nl) rest.
Proof.
  destruct (span (chr nl) s) as (l & s' & -> & Hl & Hs).
  unfold re_newlines. rewrite rep_greedy_top by assumption.
  destruct l as [| a l]; [discriminate |].
  cbn [length Nat.leb]. intros H. injection H as <- _.
  exists (a :: l). repeat split; auto. discriminate.
Qed.

Lemma newlines_miss (c : ascii) (s : str) :
  match_at re_newlines (c :: s) = None -> c <> nl.
Proof.
  intros H ->. destruct (span (chr nl) s) as (l & s' & -> & Hl & Hs).
  unfold re_newlines in H.
  change (nl :: l ++ s') with ((nl :: l) ++ s') in H.
  assert (Hl' : forallb (chr nl) (nl :: l) = true).
  { cbn [forallb]. rewrite Hl. unfold chr. rewrite Ascii.eqb_refl. reflexivity. }
  rewrite (@rep_greedy_top (chr nl) 1 (nl :: l) s' Hl' Hs) in H. discriminate.
Qed.

Lemma collapse_newlines_stops (s : str) :
  stops (chr nl) s -> stops (chr nl) (collapse_newlines s).
Proof.
  destruct s as [| x s]; intros Hs.
  - exact I.
  - unfold collapse_newlines. rewrite sub_miss; [exact Hs |].
    unfold re_newlines. apply (@rep_greedy_top (chr nl) 1 [] (x :: s) eq_refl Hs).
Qed.

Lemma stops_not_head (cls : ascii -> bool) (b : ascii) (q : str) :
  stops cls (b :: q) -> cls b = true -> False.
Proof. cbn. intros H1 H2. rewrite H1 in H2. discriminate. Qed.

Lemma collapse_newlines_no_blank (s : str) :
  ~ occurs [nl; nl] (collapse_newlines s).
Proof.
  induction s as [s IH] using str_length_ind. unfold collapse_newlines in *.
  destruct (@sub_cases re_newlines [nl] _ newlines_segment s)
    as [[-> ->] | [(c & s' & -> & Hnone & ->) | (u & rest & caps & -> & Hne & _ & Hm & ->)]].
  - intros (p & q & E). destruct p; discriminate.
  - intros (p & q & E). destruct p as [| c' p]; cbn [app] in E.
    + injection E as -> _. apply (@newlines_miss _ _ Hnone). reflexivity.
    + injection E as _ E. apply (IH s'); [cbn; lia |]. exists p, q. exact E.
  - intros (p & q & E). destruct p as [| c' p]; cbn [app] in E.
    + injection E as E.
      destruct (newlines_sound _ Hm) as (l & _ & _ & _ & Hs).
      apply collapse_newlines_stops in Hs. unfold collapse_newlines in Hs.
      rewrite E in Hs. exact (@stops_not_head (chr nl) nl q Hs (Ascii.eqb_refl nl)).
    + injection E as _ E. apply (IH rest).
      * rewrite length_app. destruct u; [congruence | cbn; lia].
      * exists p, q. exact E.
Qed.

Lemma collapse_newlines_id (s : str) :
  ~ occurs [nl; nl] s -> collapse_newlines s = s.
Proof.
  induction s as [s IH] using str_length_ind. unfold collapse_newlines in *.
  intros Hno.
  destruct (@sub_cases re_newlines [nl] _ newlines_segment s)
    as [[-> ->] | [(c & s' & -> & Hnone & ->) | (u & rest & caps & -> & Hne & _ & Hm & ->)]].
  - reflexivity.
  - f_equal. apply IH; [cbn; lia |].
    intros (p & q & ->). apply Hno. exists (c :: p), q. reflexivity.
  - destruct (newlines_sound _ Hm) as (l & El & _ & Hl & _).
    apply app_inv_tail in El. subst l.
    destruct u as [| a [| b u]]; [congruence | |].
    + cbn [forallb] in Hl. apply andb_true_iff in Hl as [Ha _].
      unfold chr in Ha. apply Ascii.eqb_eq in Ha. subst a. cbn [app].
      f_equal. apply IH; [cbn; lia |].
      intros (p & q & ->). apply Hno. exists (nl :: p), q. reflexivity.
    + exfalso. apply Hno. cbn [forallb] in Hl.
      apply andb_true_iff in Hl as [Ha Hl]. apply andb_true_iff in Hl as [Hb _].
      unfold chr in Ha, Hb. apply Ascii.eqb_eq in Ha, Hb. subst a b.
      exists [], (u ++ rest). reflexivity.
Qed.

(** *** Runs of horizontal whitespace *)

Lemma hspaces_rest_stops (s rest : str) (caps : list str) :
  match_at re_hspaces s = Some (rest, caps) -> stops hspace rest.
Proof.
  destruct (span hspace s) as (l & s' & -> & Hl & Hs).
  unfold re_hspaces. rewrite rep_greedy_top by assumption.
  destruct (3 <=? length l); [| discriminate].
  intros H. injection H as <- _. exact Hs.
Qed.

Lemma hspaces_none_short (l s' : str) :
  forallb hspace l = true -> stops hspace s' ->
  match_at re_hspaces (l ++ s') = None -> length l < 3.
Proof.
  intros Hl Hs. unfold re_hspaces. rewrite rep_greedy_top by assumption.
  destruct (Nat.leb_spec 3 (length l)); [discriminate | auto].
Qed.

Lemma collapse_hspaces_stops (s : str) :
  stops hspace s -> stops hspace (collapse_hspaces s).
Proof.
  destruct s as [| x s]; intros Hs.
  - exact I.
  - unfold collapse_hspaces. rewrite sub_miss; [exact Hs |].
    unfold re_hspaces. apply (@rep_greedy_top hspace 3 [] (x :: s) eq_refl Hs).
Qed.

Lemma collapse_hspaces_no_long_run (s : str) :
  ~ long_run (collapse_hspaces s).
Proof.
  induction s as [s IH] using str_length_ind. unfold collapse_hspaces in *.
  destruct (@sub_cases re_hspaces [space] _ hspaces_segment s)
    as [[-> ->] | [(c & s' & -> & Hnone & ->) | (u & rest & caps & -> & Hne & _ & Hm & ->)]].
  - intros (p & a & b & c & q & E & _). destruct p; discriminate.
  - intros (p & a & b & c0 & q & E & Ha & Hb & Hc).
    destruct p as [| c' p]; cbn [app] in E.
    + injection E as -> E.
      destruct (span hspace s') as (l' & w2 & -> & Hl' & Hw2).
      assert (Hlen : length (a :: l') < 3).
      { apply (@hspaces_none_short (a :: l') w2); auto.
        cbn [forallb]. rewrite Ha, Hl'. reflexivity. }
      assert (Hw2' := collapse_hspaces_stops _ Hw2). unfold collapse_hspaces in Hw2'.
      destruct l' as [| a1 [| a2 l']]; cbn in Hlen; [| | lia].
      * cbn [app] in E. rewrite E in Hw2'. exact (@stops_not_head hspace _ _ Hw2' Hb).
      * cbn [app] in E.
        rewrite sub_miss in E.
        -- injection E as _ E. rewrite E in Hw2'. exact (@stops_not_head hspace _ _ Hw2' Hc).
        -- unfold re_hspaces.
           apply (@rep_greedy_top hspace 3 [a1] w2); auto.
    + injection E as _ E. apply (IH s'); [cbn; lia |].
      exists p, a, b, c0, q. auto.
  - intros (p & a & b & c0 & q & E & Ha & Hb & Hc).
    destruct p as [| c' p]; cbn [app] in E.
    + injection E as _ E.
      assert (Hs := collapse_hspaces_stops _ (hspaces_rest_stops _ Hm)).
      unfold collapse_hspaces in Hs. rewrite E in Hs.
      exact (@stops_not_head hspace _ _ Hs Hb).
    + injection E as _ E. apply (IH rest).
      * rewrite length_app. destruct u; [congruence | cbn; lia].
      * exists p, a, b, c0, q. auto.
Qed.

Lemma collapse_hspaces_id (s : str) :
  ~ long_run s -> collapse_hspaces s = s.
Proof.
  intros H. apply sub_id. intros p q ->.
  destruct (match_at re_hspaces q) as [[rest caps] |] eqn:E; [| reflexivity].
  exfalso. apply H. destruct (hspaces_sound _ E) as (a & b & c & u & -> & Ha & Hb & Hc).
  exists p, a, b, c, (u ++ rest). auto.
Qed.

(** *** The whole normalizer *)

Lemma marker_free_shape (U : str -> Prop) (d : ascii) (s t : str) :
  d = nl \/ d = space -> shape U d s t -> marker_free s -> marker_free t.
Proof.
  intros Hd Hsh (H1 & H2 & H3).
  repeat split; intros Ho;
    [apply H1 | apply H2 | apply H3];
    (apply (shape_occurs (U := U) (d := d) (t := t));
     [ destruct Hd as [-> | ->]; not_in_text | discriminate | exact Hsh | exact Ho ]).
Qed.

Lemma normalize_fixed (y : str) :
  marker_free y -> ~ pct_before_nl y -> ~ occurs [nl; nl] y -> ~ long_run y ->
  normalize y = y.
Proof.
  intros (H1 & H2 & H3) Hp Hn Hl. unfold normalize.
  rewrite (strip_line_comments_id Hp).
  rewrite (strip_comment_blocks_id H2).
  rewrite (strip_iffalse_blocks_id H3).
  rewrite (collapse_newlines_id Hn).
  rewrite (remove_linebreaks_id H1).
  apply (collapse_hspaces_id Hl).
Qed.

(** C6 as the code has it.  On a text with no line-break marker [\\], no
    [\begin{comment}] and no [\iffalse], normalizing the normalized text
    changes nothing. *)
Theorem normalize_idempotent_plain (x : str) :
  ~ occurs [bslash; bslash] x ->
  ~ occurs (txt "\begin{comment}") x ->
  ~ occurs (txt "\iffalse") x ->
  normalize (normalize x) = normalize x.
Proof.
  intros H1 H2 H3.
  assert (Hx : marker_free x) by (repeat split; assumption).
  pose (x1 := strip_line_comments x).
  pose (x4 := collapse_newlines x1).
  pose (x6 := collapse_hspaces x4).
  assert (Hs1 := strip_line_comments_shape x). fold x1 in Hs1.
  assert (Hs4 := collapse_newlines_shape x1). fold x4 in Hs4.
  assert (Hs6 := collapse_hspaces_shape x4). fold x6 in Hs6.
  assert (Hm1 : marker_free x1) by (apply (marker_free_shape (or_introl eq_refl) Hs1 Hx)).
  assert (Hm4 : marker_free x4) by (apply (marker_free_shape (or_introl eq_refl) Hs4 Hm1)).
  assert (Hm6 : marker_free x6) by (apply (marker_free_shape (or_intror eq_refl) Hs6 Hm4)).
  assert (Hnorm : normalize x = x6).
  { unfold normalize. fold x1.
    rewrite (strip_comment_blocks_id (proj1 (proj2 Hm1))).
    rewrite (strip_iffalse_blocks_id (proj2 (proj2 Hm1))).
    fold x4. rewrite (remove_linebreaks_id (proj1 Hm4)). reflexivity. }
  rewrite Hnorm. apply normalize_fixed.
  - exact Hm6.
  - intros Hp. apply (strip_line_comments_no_pct x). fold x1.
    apply (shape_pair (U := fun u => In nl u) (d := nl) (a := percent) (b := nl)
             (t := x4)); [discriminate | intros _ u Hu; exact Hu | exact Hs4 |].
    apply (shape_pair (U := fun _ => True) (d := space) (a := percent) (b := nl)
             (t := x6)); [discriminate | discriminate | exact Hs6 | exact Hp].
  - intros Ho. apply (collapse_newlines_no_blank x1). fold x4.
    apply (shape_occurs (U := fun _ => True) (d := space) (t := x6));
      [not_in_text | discriminate | exact Hs6 | exact Ho].
  - apply collapse_hspaces_no_long_run.
Qed.

Lemma normalize_idempotent_plain_witness :
  normalize (normalize plain_text) = normalize plain_text.
Proof.
  apply (@normalize_idempotent_plain plain_text);
    apply str_find_None; vm_compute; reflexivity.
Defined.

(** C6 as the specification words it fails: removing [\\] between two newlines leaves a
    blank line that only a second pass collapses. *)
Lemma normalize_not_idempotent :
  normalize ([nl] ++ txt "\\" ++ [nl]) = [nl; nl] /\
  normalize (normalize ([nl] ++ txt "\\" ++ [nl])) = [nl] /\
  normalize (normalize ([nl] ++ txt "\\" ++ [nl])) <> normalize ([nl] ++ txt "\\" ++ [nl]).
Proof.
  split; [vm_compute; reflexivity |].
  split; [vm_compute; reflexivity | vm_compute; discriminate].
Qed.

(** ** C7: the resolver with one bibliography-output file *)

(** C7 at [bundle_inner_bbl]: [replace('.bbl','')] removes both occurrences,
    the candidate becomes [a.tex], which is no member, and the search for the
    document block picks [b.tex]; with the members enumerated in the opposite
    order it picks [a.bbl.tex]. *)
Theorem resolver_inner_bbl_mismatch :
  names_ending bundle_inner_bbl (txt ".bbl") = Ok [txt "a.bbl.bbl"] /\
  names_ending bundle_inner_bbl (txt ".tex") = Ok [txt "b.tex"; txt "a.bbl.tex"] /\
  str_replace (txt "a.bbl.bbl") (txt ".bbl") [] = txt "a" /\
  main_document bundle_inner_bbl = Ok (Some (txt "b.tex")) /\
  main_document (files (rev inner_bbl_members)) = Ok (Some (txt "a.bbl.tex")).
Proof. repeat split; vm_compute; reflexivity. Qed.

(** *** C7, where the names hold [.bbl] only as a suffix *)

Lemma filter_perm (A : Type) (f : A -> bool) (l l' : list A) :
  Permutation l l' -> Permutation (filter f l) (filter f l').
Proof.
  induction 1 as [| x l l' _ IH | x y l | l l' l'' _ IH1 _ IH2]; cbn.
  - constructor.
  - destruct (f x); [constructor |]; exact IH.
  - destruct (f x), (f y); try reflexivity. constructor.
  - etransitivity; eassumption.
Qed.

Lemma read_files_keeps_main (tar : tarball) (tex_files : list str) (m : str) (d : dict) :
  regular_files tar tex_files ->
  exists d', read_files tar tex_files (Some m) d = Ok (Some m, d').
Proof.
  revert d. induction tex_files as [| t l IH]; intros d Hreg.
  - exists d. reflexivity.
  - cbn [read_files]. destruct (Hreg t (or_introl eq_refl)) as [c ->]. cbn [bind].
    apply IH. intros t' Ht'. apply Hreg. right. exact Ht'.
Qed.

(** For a bundle whose only [.bbl] member is [stem.bbl], with [.bbl] nowhere
    else in that name, which has the member [stem.tex] and whose [.tex]
    members are regular files, the main document is [stem.tex] in whatever
    order the members are enumerated. *)
Lemma resolver_selects_matching_tex (members members' : list (str * member))
    (tex_files' : list str) (stem : str) :
  Permutation members members' ->
  names_ending (Archive members) (txt ".bbl") = Ok [stem ++ txt ".bbl"] ->
  In (stem ++ txt ".tex") (map fst members) ->
  str_find (txt ".bbl") (stem ++ txt ".bbl") = Some (length stem) ->
  names_ending (Archive members') (txt ".tex") = Ok tex_files' ->
  regular_files (Archive members') tex_files' ->
  main_document (Archive members') = Ok (Some (stem ++ txt ".tex")).
Proof.
  intros Hperm Hbbl Htex Hfind Htex' Hreg.
  assert (Hnames : Permutation (map fst members) (map fst members'))
    by (apply Permutation_map; exact Hperm).
  assert (Hbbl0 : filter (fun f => endswith f (txt ".bbl")) (map fst members)
                  = [stem ++ txt ".bbl"]).
  { unfold names_ending in Hbbl. cbn [getnames bind] in Hbbl.
    injection Hbbl as Hbbl. exact Hbbl. }
  assert (Htex0 : filter (fun f => endswith f (txt ".tex")) (map fst members')
                  = tex_files').
  { unfold names_ending in Htex'. cbn [getnames bind] in Htex'.
    injection Htex' as Htex'. exact Htex'. }
  assert (Hbbl' : filter (fun f => endswith f (txt ".bbl")) (map fst members')
                  = [stem ++ txt ".bbl"]).
  { apply Permutation_length_1_inv. rewrite <- Hbbl0. apply filter_perm. exact Hnames. }
  assert (Hrep : str_replace (stem ++ txt ".bbl") (txt ".bbl") [] = stem).
  { destruct (@str_find_Some _ _ _ Hfind stem (txt ".bbl") eq_refl eq_refl) as [_ Hmin].
    rewrite <- (app_nil_r (stem ++ txt ".bbl")), <- app_assoc.
    rewrite replace_first.
    - cbn. apply app_nil_r.
    - discriminate.
    - intros p1 p2 E Hne. rewrite app_nil_r. apply (Hmin p1 p2 E Hne). }
  unfold main_document, names_ending. cbn [getnames bind].
  rewrite Hbbl', Htex0. unfold resolve_main. rewrite Hrep.
  assert (Hmem : mem_str (stem ++ txt ".tex") tex_files' = true).
  { apply mem_str_In. rewrite <- Htex0. apply filter_In. split.
    - apply (Permutation_in _ Hnames). exact Htex.
    - apply endswith_app. }
  rewrite Hmem.
  destruct (read_files_keeps_main (stem ++ txt ".tex") [] Hreg) as [d' Hd'].
  match goal with
  | |- context [read_files ?a ?b ?c ?d] =>
      assert (E : read_files a b c d = Ok (Some (stem ++ txt ".tex"), d')) by exact Hd';
      rewrite E
  end.
  reflexivity.
Qed.

(** ** C8: errors of the archive fetch *)

(** C8. During the archive download a 404 [HTTPError] gives an absent result
    and nothing is raised; an [HTTPError] with any other code is raised again
    to the caller; every other exception is turned into an absent result. *)
Theorem fetch_error_handling (env : source_env) :
  (download_source env = Raise (HTTPError 404) -> tex env = Ok None) /\
  (forall code, code <> 404%Z ->
     download_source env = Raise (HTTPError code) ->
     tex env = Raise (HTTPError code)) /\
  (forall e, (forall code, e <> HTTPError code) ->
     download_source env = Raise e -> tex env = Ok None).
Proof.
  unfold tex. repeat split.
  - intros ->. reflexivity.
  - intros code Hc ->. destruct (Z.eqb_spec code 404); [contradiction | reflexivity].
  - intros e He ->. destruct e; try reflexivity. exfalso. exact (He code eq_refl).
Qed.

Lemma fetch_error_handling_witness :
  tex (env_raising (HTTPError 404)) = Ok None /\
  tex (env_raising (HTTPError 503)) = Raise (HTTPError 503) /\
  tex (env_raising (OtherException (txt "ConnectionResetError"))) = Ok None.
Proof.
  destruct (fetch_error_handling (env_raising (HTTPError 404))) as (H404 & _ & _).
  destruct (fetch_error_handling (env_raising (HTTPError 503))) as (_ & H503 & _).
  destruct (fetch_error_handling
              (env_raising (OtherException (txt "ConnectionResetError"))))
    as (_ & _ & Hother).
  split; [| split].
  - apply H404. reflexivity.
  - apply H503; [discriminate | reflexivity].
  - apply (Hother (OtherException (txt "ConnectionResetError")));
      [discriminate | reflexivity].
Defined.

(** ** C9: the reply of the language model *)

Lemma match_at_bracket (s : str) :
  match_at re_bracket s =
  match strip_prefix [lbracket] s with
  | Some s1 => first_suffix close_cont s1
  | None => None
  end.
Proof.
  unfold match_at, re_bracket.
  change (exec (Lit (txt "[") >> Rep false 0 None any >> Lit (txt "]")) s []
            (fun s' caps => Some (s', caps)))
    with (match strip_prefix [lbracket] s with
          | Some s1 => rep false any 0 None s1 close_cont
          | None => None
          end).
  destruct (strip_prefix [lbracket] s); [apply rep_lazy_any | reflexivity].
Qed.

Lemma first_close (mid post : str) :
  ~ In rbracket mid ->
  first_suffix close_cont (mid ++ rbracket :: post) = Some (post, []).
Proof.
  induction mid as [| c mid IH]; intros H.
  - reflexivity.
  - cbn [app first_suffix]. unfold close_cont at 1.
    rewrite strip_prefix_head by (intros E; apply H; left; symmetry; exact E).
    apply IH. intros Hin. apply H. right. exact Hin.
Qed.

Lemma close_cont_Some (t rest : str) (caps : list str) :
  close_cont t = Some (rest, caps) -> t = rbracket :: rest.
Proof.
  unfold close_cont. destruct (strip_prefix [rbracket] t) as [t' |] eqn:E; [| discriminate].
  intros H. injection H as <- _. apply strip_prefix_Some in E. exact E.
Qed.

Lemma search_bracket_found (pre mid post : str) :
  ~ In lbracket pre -> ~ In rbracket mid ->
  option_map m_group0 (search re_bracket (pre ++ lbracket :: mid ++ rbracket :: post))
  = Some (lbracket :: mid ++ [rbracket]).
Proof.
  intros Hpre Hmid. rewrite search_skip_prefix.
  - assert (Hm : match_at re_bracket (lbracket :: mid ++ rbracket :: post)
                 = Some (post, [])).
    { rewrite match_at_bracket. cbn [strip_prefix]. rewrite Ascii.eqb_refl.
      apply first_close. exact Hmid. }
    rewrite (search_hit _ _ Hm). cbn [option_map m_group0]. f_equal.
    replace (lbracket :: mid ++ rbracket :: post)
      with ((lbracket :: mid ++ [rbracket]) ++ post)
      by (cbn [app]; rewrite <- app_assoc; reflexivity).
    apply consumed_app.
  - intros p1 p2 -> Hne. rewrite match_at_bracket.
    destruct p2 as [| c p2]; [congruence |]. cbn [app].
    rewrite strip_prefix_head; [reflexivity |].
    intros E. apply Hpre. apply in_or_app. right. left. symmetry. exact E.
Qed.

Lemma search_bracket_none (reply : str) :
  (forall pre mid post, reply <> pre ++ lbracket :: mid ++ rbracket :: post) ->
  search re_bracket reply = None.
Proof.
  intros H. apply search_none. intros p q ->. rewrite match_at_bracket.
  destruct (strip_prefix [lbracket] q) as [s1 |] eqn:E; [| reflexivity].
  apply strip_prefix_Some in E. subst q.
  destruct (first_suffix close_cont s1) as [[rest caps] |] eqn:F; [| reflexivity].
  exfalso. apply first_suffix_spec in F. destruct F as (mid & tail & -> & Hk & _).
  apply close_cont_Some in Hk. subst tail. apply (H p mid rest). reflexivity.
Qed.

(** *** Every reply has a first bracketed substring or none *)

Lemma first_char_split (a : ascii) (l : str) :
  In a l -> exists l1 l2, l = l1 ++ a :: l2 /\ ~ In a l1.
Proof.
  induction l as [| c l IH]; intros H; [contradiction |].
  destruct (Ascii.ascii_dec c a) as [-> | Hne].
  - exists [], l. split; [reflexivity | intros []].
  - destruct H as [E | H]; [contradiction |].
    destruct (IH H) as (l1 & l2 & -> & Hl1).
    exists (c :: l1), l2. split; [reflexivity |].
    intros [E | Hin]; [contradiction | exact (Hl1 Hin)].
Qed.

Lemma bracket_cases (reply : str) :
  (exists pre mid post,
     reply = pre ++ lbracket :: mid ++ rbracket :: post /\
     ~ In lbracket pre /\ ~ In rbracket mid) \/
  (forall pre mid post, reply <> pre ++ lbracket :: mid ++ rbracket :: post).
Proof.
  induction reply as [| c r IH].
  - right. intros pre mid post E. destruct pre; discriminate.
  - destruct (Ascii.ascii_dec c lbracket) as [-> | Hne].
    + destruct (in_dec Ascii.ascii_dec rbracket r) as [Hin | Hout].
      * left. destruct (first_char_split _ _ Hin) as (mid & post & -> & Hmid).
        exists [], mid, post. repeat split; auto.
      * destruct IH as [(pre & mid & post & -> & _) | IH].
        -- exfalso. apply Hout. apply in_or_app. right. right.
           apply in_or_app. right. left. reflexivity.
        -- right. intros pre mid post E. destruct pre as [| c' pre]; cbn [app] in E.
           ++ injection E as ->. apply Hout. apply in_or_app. right. left. reflexivity.
           ++ injection E as _ ->. apply (IH pre mid post). reflexivity.
    + destruct IH as [(pre & mid & post & -> & Hpre & Hmid) | IH].
      * left. exists (c :: pre), mid, post. repeat split; auto.
        intros [E | Hin]; [contradiction | exact (Hpre Hin)].
      * right. intros pre mid post E. destruct pre as [| c' pre]; cbn [app] in E.
        -- injection E as -> _. contradiction.
        -- injection E as _ ->. apply (IH pre mid post). reflexivity.
Qed.

Lemma mapM_all (A B : Type) (f : A -> outcome B) (l : list A) (out : list B) :
  Forall2 (fun a b => f a = Returns b) l out -> mapM f l = Returns out.
Proof.
  induction 1 as [| a b l out Hab _ IH]; [reflexivity |].
  cbn [mapM]. rewrite Hab. cbn [and_then]. rewrite IH. reflexivity.
Qed.

Lemma mapM_raises (A B : Type) (f : A -> outcome B) (l1 l2 : list A) (a : A) (e : exn) :
  Forall (fun a' => exists b, f a' = Returns b) l1 -> f a = Raises e ->
  mapM f (l1 ++ a :: l2) = Raises e.
Proof.
  intros H1 Ha. induction H1 as [| a' l1 [b Hb] _ IH]; cbn [app mapM].
  - rewrite Ha. reflexivity.
  - rewrite Hb. cbn [and_then]. rewrite IH. reflexivity.
Qed.

Lemma mapM_escapes (A B : Type) (f : A -> outcome B) (l1 l2 : list A) (a : A)
    (name : str) :
  Forall (fun a' => exists b, f a' = Returns b) l1 -> f a = Escapes name ->
  mapM f (l1 ++ a :: l2) = Escapes name.
Proof.
  intros H1 Ha. induction H1 as [| a' l1 [b Hb] _ IH]; cbn [app mapM].
  - rewrite Ha. reflexivity.
  - rewrite Hb. cbn [and_then]. rewrite IH. reflexivity.
Qed.

Section AffiliationsSpec.
Variable pyobj : Type.
Variable py_eval : str -> outcome pyobj.
Variable py_list_set : pyobj -> outcome (list pyobj).
Variable py_str : pyobj -> outcome str.

Lemma parse_found (pre mid post : str) :
  ~ In lbracket pre -> ~ In rbracket mid ->
  parse_reply py_eval py_list_set py_str (pre ++ lbracket :: mid ++ rbracket :: post)
  = (v <<- py_eval (lbracket :: mid ++ [rbracket]) ;;
     l <<- py_list_set v ;;
     out <<- mapM py_str l ;;
     Returns out).
Proof.
  intros Hpre Hmid.
  assert (Hs := search_bracket_found pre mid post Hpre Hmid).
  unfold parse_reply.
  destruct (search re_bracket (pre ++ lbracket :: mid ++ rbracket :: post)) as [m |];
    cbn [option_map] in Hs; [| discriminate].
  assert (Hg : m_group0 m = lbracket :: mid ++ [rbracket]) by congruence.
  rewrite Hg. reflexivity.
Qed.

End AffiliationsSpec.



(** ** C10: the write-back of [pdf_url] *)

(** When the stored link is absent and [links] is [None] or a non-empty
    list, the accessor computes a URL, stores it in the record's [pdf_url]
    field, leaves the record's other fields alone, and later accesses return
    the stored value without further change. *)
Lemma pdf_url_write_back (self : ArxivPaper) :
  pdf_url_field (_paper self) = None ->
  links (_paper self) <> Some [] ->
  exists u self',
    pdf_url self = (Ok u, self') /\
    pdf_url_field (_paper self') = Some u /\
    same_but_pdf_url (_paper self) (_paper self') /\
    score self' = score self /\
    pdf_url self' = (Ok u, self').
Proof.
  intros Hp Hl. unfold pdf_url. rewrite Hp.
  destruct (arxiv_id self) as [id self1] eqn:Hid.
  assert (H1 : _paper self1 = _paper self /\ score self1 = score self).
  { unfold arxiv_id in Hid. destruct (arxiv_id_slot self); inversion Hid; subst; auto. }
  destruct H1 as [H1 H1']. rewrite H1.
  destruct (links (_paper self)) as [[| l ls] |] eqn:Hlinks.
  - contradiction.
  - eexists; eexists. split; [reflexivity |]. cbn.
    repeat split; try assumption; try (rewrite H1; reflexivity).
  - eexists; eexists. split; [reflexivity |]. cbn.
    repeat split; try assumption; try (rewrite H1; reflexivity).
Qed.

(** C10 at a record whose stored link is absent and whose [links] is the
    empty list: [links[0]] raises [IndexError], no URL is computed from the
    identifier and the record's [pdf_url] field stays absent. *)
Theorem pdf_url_empty_links_raises :
  fst (pdf_url paper_without_links) = Raise IndexError /\
  pdf_url_field (_paper (snd (pdf_url paper_without_links))) = None.
Proof. split; reflexivity. Qed.

(** * Further properties *)

Unset Implicit Arguments.

(** ** Matches are prefixes of the text *)

Lemma rep_min_len (A : Type) (g : bool) (cls : ascii -> bool) (s : str) :
  forall (lo : nat) (hi : option nat) (k : str -> option A) (x : A),
    rep g cls lo hi s k = Some x ->
    exists u s', s = u ++ s' /\ lo <= length u /\ k s' = Some x.
Proof.
  induction s as [| c s IH]; intros lo hi k x.
  - cbn. destruct lo; [| discriminate]. intros H. exists [], []. auto.
  - cbn [rep].
    assert (Hstop : match lo with 0 => k (c :: s) | S _ => None end = Some x ->
                    exists u s', c :: s = u ++ s' /\ lo <= length u /\ k s' = Some x).
    { destruct lo; [| discriminate]. intros H. exists [], (c :: s). auto. }
    assert (Hmore : rep g cls (pred lo) (one_less hi) s k = Some x ->
                    exists u s', c :: s = u ++ s' /\ lo <= length u /\ k s' = Some x).
    { intros H. destruct (IH _ _ _ _ H) as (u & s' & -> & Hlen & Hk).
      exists (c :: u), s'. repeat split; auto. cbn. lia. }
    destruct (cls c && has_room hi); [| exact Hstop].
    destruct g.
    + destruct (rep true cls (pred lo) (one_less hi) s k) eqn:E; [| exact Hstop].
      intros H. apply Hmore. exact H.
    + destruct (match lo with 0 => k (c :: s) | S _ => None end) eqn:E.
      * intros H. apply Hstop. exact H.
      * exact Hmore.
Qed.

Lemma exec_min_len (A : Type) (r : regex) :
  forall (s : str) (caps : list str) (k : str -> list str -> option A) (x : A),
    exec r s caps k = Some x ->
    exists u s' caps', s = u ++ s' /\ min_len r <= length u /\ k s' caps' = Some x.
Proof.
  induction r as [l | g lo hi cls | r1 IH1 r2 IH2 | r1 IH1 r2 IH2 | r1 IH1 |];
    intros s caps k x; cbn [exec min_len].
  - destruct (strip_prefix l s) as [s' |] eqn:E; [| discriminate].
    apply strip_prefix_Some in E. subst s. intros H. exists l, s', caps. auto.
  - intros H. apply rep_min_len in H. destruct H as (u & s' & -> & Hlen & Hk).
    exists u, s', caps. auto.
  - intros H. apply IH1 in H. destruct H as (u1 & s1 & caps1 & -> & Hl1 & H).
    apply IH2 in H. destruct H as (u2 & s2 & caps2 & -> & Hl2 & H).
    exists (u1 ++ u2), s2, caps2. rewrite <- app_assoc, length_app.
    repeat split; auto. lia.
  - destruct (exec r1 s caps k) eqn:E.
    + intros H. injection H as ->. apply IH1 in E.
      destruct E as (u & s' & caps' & -> & Hl & H). exists u, s', caps'.
      repeat split; auto. lia.
    + intros H. apply IH2 in H.
      destruct H as (u & s' & caps' & -> & Hl & H). exists u, s', caps'.
      repeat split; auto. lia.
  - intros H. apply IH1 in H. destruct H as (u & s' & caps' & -> & Hl & H).
    exists u, s', (caps' ++ [firstn (length (u ++ s') - length s') (u ++ s')]). auto.
  - destruct s as [| c [| c' s]]; try discriminate.
    + intros H. exists [], [], caps. repeat split; auto.
    + destruct (Ascii.eqb c nl); [| discriminate].
      intros H. exists [], [c], caps. repeat split; auto.
Qed.

Lemma match_at_prefix (r : regex) (s rest : str) (caps : list str) :
  match_at r s = Some (rest, caps) ->
  exists u, s = u ++ rest /\ min_len r <= length u.
Proof.
  unfold match_at. intros H. apply exec_min_len in H.
  destruct H as (u & s' & caps' & -> & Hl & H). injection H as -> _.
  exists u. auto.
Qed.

Lemma match_at_segment (r : regex) :
  1 <= min_len r ->
  forall s rest caps, match_at r s = Some (rest, caps) ->
    exists u, s = u ++ rest /\ u <> [] /\ min_len r <= length u.
Proof.
  intros Hr s rest caps H. destruct (match_at_prefix _ _ _ _ H) as (u & -> & Hl).
  exists u. repeat split; auto. intros ->. cbn in Hl. lia.
Qed.

(** ** Replacement never inserts more than it removes *)

Lemma sub_length (r : regex) (repl : str) :
  1 <= min_len r -> length repl <= min_len r ->
  forall s, length (sub r repl s) <= length s.
Proof.
  intros Hr Hrepl s. induction s as [s IH] using str_length_ind.
  destruct (@sub_cases r repl (fun u => min_len r <= length u) (match_at_segment r Hr) s)
    as [[-> ->] | [(c & s' & -> & _ & ->) | (u & rest & caps & -> & Hne & Hu & _ & ->)]].
  - cbn. lia.
  - cbn [length]. apply le_n_S. apply IH. cbn. lia.
  - rewrite !length_app.
    assert (length (sub r repl rest) <= length rest).
    { apply IH. rewrite length_app. destruct u; [congruence | cbn; lia]. }
    lia.
Qed.

Lemma sub_cut (r : regex) :
  1 <= min_len r -> forall s, cut s (sub r [] s).
Proof.
  intros Hr s. induction s as [s IH] using str_length_ind.
  destruct (@sub_cases r [] (fun u => min_len r <= length u) (match_at_segment r Hr) s)
    as [[-> ->] | [(c & s' & -> & _ & ->) | (u & rest & caps & -> & Hne & Hu & _ & ->)]].
  - constructor.
  - constructor. apply IH. cbn. lia.
  - cbn [app]. constructor. apply IH.
    rewrite length_app. destruct u; [congruence | cbn; lia].
Qed.

Lemma cut_in (b : ascii) (s t : str) : cut s t -> In b t -> In b s.
Proof.
  induction 1 as [| c s t _ IH | u s t _ IH]; intros Hin.
  - exact Hin.
  - destruct Hin as [-> | Hin]; [left; reflexivity | right; auto].
  - apply in_or_app. right. auto.
Qed.

Lemma cut_pair (a b : ascii) (s t : str) :
  cut s t ->
  (exists p l r, t = p ++ a :: l ++ b :: r) ->
  exists p l r, s = p ++ a :: l ++ b :: r.
Proof.
  induction 1 as [| c s t Hc IH | u s t Hc IH]; intros (p & l & r & Ht).
  - destruct p; discriminate.
  - destruct p as [| c' p]; cbn [app] in Ht.
    + injection Ht as -> ->.
      assert (Hin : In b s).
      { apply (cut_in b s _ Hc). apply in_or_app. right. left. reflexivity. }
      apply in_split in Hin. destruct Hin as (l1 & l2 & ->).
      exists [], l1, l2. reflexivity.
    + injection Ht as <- Ht.
      destruct IH as (p' & l' & r' & ->); [exists p, l, r; exact Ht |].
      exists (c :: p'), l', r'. reflexivity.
  - destruct IH as (p' & l' & r' & ->); [exists p, l, r; exact Ht |].
    exists (u ++ p'), l', r'. rewrite <- app_assoc. reflexivity.
Qed.

(** ** Splitting one text in two ways *)

Lemma app_split_shorter (x1 x2 y1 y2 : str) :
  x1 ++ x2 = y1 ++ y2 -> length y1 < length x1 ->
  exists l, l <> [] /\ x1 = y1 ++ l /\ y2 = l ++ x2.
Proof.
  revert x1. induction y1 as [| c y1 IH]; intros x1 E Hlen.
  - cbn in E. exists x1. repeat split; auto. intros ->. cbn in Hlen. lia.
  - destruct x1 as [| c' x1]; [cbn in Hlen; lia |].
    cbn in E. injection E as -> E. cbn in Hlen.
    destruct (IH x1 E) as (l & Hne & -> & ->); [lia |].
    exists l. auto.
Qed.

Lemma app_split_longer (x1 x2 y1 y2 : str) :
  x1 ++ x2 = y1 ++ y2 -> length x1 <= length y1 ->
  exists l, y1 = x1 ++ l /\ x2 = l ++ y2.
Proof.
  revert y1. induction x1 as [| c x1 IH]; intros y1 E Hlen.
  - cbn in E. exists y1. auto.
  - destruct y1 as [| c' y1]; [cbn in Hlen; lia |].
    cbn in E. injection E as -> E. cbn in Hlen.
    destruct (IH y1 E) as (l & -> & ->); [lia |].
    exists l. auto.
Qed.

Lemma occurs_first_tail (l : str) (x : ascii) (pre s : str) :
  occurs_first l (x :: pre) (x :: s) -> occurs_first l pre s.
Proof.
  intros H p q E. specialize (H (x :: p) q). cbn in H.
  rewrite E in H. specialize (H eq_refl). lia.
Qed.

Lemma occurs_first_not_head (l : str) (x : ascii) (pre s : str) :
  occurs_first l (x :: pre) s -> strip_prefix l s = None.
Proof.
  intros H. destruct (strip_prefix l s) as [t |] eqn:E; [| reflexivity].
  apply strip_prefix_Some in E. specialize (H [] t E). cbn in H. lia.
Qed.

Lemma str_find_occurs (l s : str) (n : nat) : str_find l s = Some n -> occurs l s.
Proof.
  revert n. induction s as [| c s IH]; intros n; rewrite str_find_eq.
  - destruct (startswith [] l) eqn:E; [| discriminate].
    intros _. apply startswith_true in E. destruct E as [t E]. exists [], t. exact E.
  - destruct (startswith (c :: s) l) eqn:E.
    + intros _. apply startswith_true in E. destruct E as [t E]. exists [], t. exact E.
    + destruct (str_find l s) as [n' |]; [| discriminate].
      intros _. destruct (IH n' eq_refl) as (p & q & ->). exists (c :: p), q. reflexivity.
Qed.

Lemma occurs_dec (l s : str) : occurs l s \/ ~ occurs l s.
Proof.
  destruct (str_find l s) as [n |] eqn:E.
  - left. exact (str_find_occurs _ _ _ E).
  - right. exact (str_find_None E).
Qed.

(** ** Delimited blocks *)

Lemma first_suffix_eq (A : Type) (k : str -> option A) (s : str) :
  first_suffix k s =
  match k s with
  | Some x => Some x
  | None => match s with [] => None | _ :: s' => first_suffix k s' end
  end.
Proof. destruct s; reflexivity. Qed.

Lemma match_at_block (o c s : str) :
  match_at (block_regex o c) s =
  match strip_prefix o s with
  | Some s1 => first_suffix (lit_cont c) s1
  | None => None
  end.
Proof.
  unfold match_at, block_regex.
  change (exec (Lit o >> Rep false 0 None any >> Lit c) s []
            (fun s' caps => Some (s', caps)))
    with (match strip_prefix o s with
          | Some s1 => rep false any 0 None s1 (lit_cont c)
          | None => None
          end).
  destruct (strip_prefix o s); [apply rep_lazy_any | reflexivity].
Qed.

Lemma first_lit_hit (c mid rest : str) :
  occurs_first c mid (mid ++ c ++ rest) ->
  first_suffix (lit_cont c) (mid ++ c ++ rest) = Some (rest, []).
Proof.
  induction mid as [| a mid IH]; intros H; rewrite first_suffix_eq.
  - cbn [app]. unfold lit_cont. rewrite strip_prefix_app. reflexivity.
  - unfold lit_cont at 1. rewrite (occurs_first_not_head _ _ _ _ H).
    cbn [app]. apply IH. apply (occurs_first_tail _ _ _ _ H).
Qed.

Lemma first_lit_Some (c s rest : str) (caps : list str) :
  first_suffix (lit_cont c) s = Some (rest, caps) ->
  exists mid, s = mid ++ c ++ rest /\ occurs_first c mid s /\ caps = [].
Proof.
  intros H. apply first_suffix_spec in H. destruct H as (body & tail & -> & Hk & Hmin).
  unfold lit_cont in Hk. destruct (strip_prefix c tail) as [t |] eqn:E; [| discriminate].
  injection Hk as <- <-. apply strip_prefix_Some in E. subst tail.
  exists body. repeat split; auto.
  intros p q Epq. destruct (Nat.le_gt_cases (length body) (length p)) as [Hle | Hlt]; [exact Hle |].
  exfalso. destruct (app_split_shorter _ _ _ _ Epq Hlt) as (l & Hne & -> & El).
  specialize (Hmin p l eq_refl Hne). unfold lit_cont in Hmin.
  rewrite <- El, strip_prefix_app in Hmin. discriminate.
Qed.

Lemma first_lit_None (c s : str) :
  ~ occurs c s -> first_suffix (lit_cont c) s = None.
Proof.
  intros H. destruct (first_suffix (lit_cont c) s) as [[rest caps] |] eqn:E; [| reflexivity].
  exfalso. apply H. destruct (first_lit_Some _ _ _ _ E) as (mid & -> & _).
  exists mid, rest. reflexivity.
Qed.

Lemma match_block_Some (o c s rest : str) (caps : list str) :
  match_at (block_regex o c) s = Some (rest, caps) ->
  exists mid, s = o ++ mid ++ c ++ rest /\ occurs_first c mid (mid ++ c ++ rest).
Proof.
  rewrite match_at_block. destruct (strip_prefix o s) as [s1 |] eqn:E; [| discriminate].
  apply strip_prefix_Some in E. subst s. intros H.
  destruct (first_lit_Some _ _ _ _ H) as (mid & -> & Hf & _). exists mid. auto.
Qed.

Lemma match_block_hit (o c mid rest : str) :
  occurs_first c mid (mid ++ c ++ rest) ->
  match_at (block_regex o c) (o ++ mid ++ c ++ rest) = Some (rest, []).
Proof.
  intros H. rewrite match_at_block, strip_prefix_app. apply first_lit_hit. exact H.
Qed.

Lemma sub_block (o c repl pre mid post : str) :
  o <> [] ->
  occurs_first o pre (pre ++ o ++ mid ++ c ++ post) ->
  occurs_first c mid (mid ++ c ++ post) ->
  sub (block_regex o c) repl (pre ++ o ++ mid ++ c ++ post)
  = pre ++ repl ++ sub (block_regex o c) repl post.
Proof.
  intros Ho Hpre Hmid. induction pre as [| x pre IH].
  - destruct o as [| a o]; [congruence |]. cbn [app].
    apply sub_hit with (u := o ++ mid ++ c) (caps := []).
    + rewrite <- !app_assoc. reflexivity.
    + apply (match_block_hit (a :: o) _ _ _ Hmid).
  - cbn [app]. rewrite sub_miss.
    + f_equal. apply IH. apply (occurs_first_tail _ _ _ _ Hpre).
    + rewrite match_at_block.
      change (x :: pre ++ o ++ mid ++ c ++ post) with ((x :: pre) ++ o ++ mid ++ c ++ post).
      rewrite (occurs_first_not_head _ _ _ _ Hpre). reflexivity.
Qed.

Lemma sub_block_unclosed (o c repl s : str) :
  ~ occurs c s -> sub (block_regex o c) repl s = s.
Proof.
  intros H. apply sub_id. intros p q ->. rewrite match_at_block.
  destruct (strip_prefix o q) as [s1 |] eqn:E; [| reflexivity].
  apply strip_prefix_Some in E. subst q. apply first_lit_None.
  intros (p' & q' & ->). apply H. exists (p ++ o ++ p'), q'.
  rewrite <- !app_assoc. reflexivity.
Qed.

Lemma search_block_found (o c pre mid post : str) :
  occurs_first o pre (pre ++ o ++ mid ++ c ++ post) ->
  occurs_first c mid (mid ++ c ++ post) ->
  option_map m_group0 (search (block_regex o c) (pre ++ o ++ mid ++ c ++ post))
  = Some (o ++ mid ++ c).
Proof.
  intros Hpre Hmid. rewrite search_skip_prefix.
  - rewrite (search_hit _ _ (match_block_hit o _ _ _ Hmid)). cbn [option_map m_group0].
    f_equal. replace (o ++ mid ++ c ++ post) with ((o ++ mid ++ c) ++ post)
      by (rewrite <- !app_assoc; reflexivity).
    apply consumed_app.
  - intros p1 p2 -> Hne. rewrite match_at_block.
    destruct (strip_prefix o (p2 ++ o ++ mid ++ c ++ post)) as [t |] eqn:E; [| reflexivity].
    exfalso. apply strip_prefix_Some in E.
    specialize (Hpre p1 t). rewrite <- app_assoc in Hpre. rewrite E in Hpre.
    specialize (Hpre eq_refl). rewrite length_app in Hpre.
    destruct p2; [congruence | cbn in Hpre; lia].
Qed.

Lemma search_block_none (o c s : str) :
  (forall pre mid post, s <> pre ++ o ++ mid ++ c ++ post) ->
  search (block_regex o c) s = None.
Proof.
  intros H. apply search_none. intros p q ->.
  destruct (match_at (block_regex o c) q) as [[rest caps] |] eqn:E; [| reflexivity].
  exfalso. destruct (match_block_Some _ _ _ _ _ E) as (mid & -> & _).
  apply (H p mid rest). reflexivity.
Qed.

Lemma block_cases (o c s : str) :
  (exists pre mid post,
     s = pre ++ o ++ mid ++ c ++ post /\
     occurs_first o pre s /\ occurs_first c mid (mid ++ c ++ post)) \/
  (forall pre mid post, s <> pre ++ o ++ mid ++ c ++ post).
Proof.
  destruct (occurs_dec o s) as [Ho | Ho].
  - destruct (first_occurrence Ho) as (pre & rest & -> & Hpre).
    destruct (occurs_dec c rest) as [Hc | Hc].
    + destruct (first_occurrence Hc) as (mid & post & -> & Hmid).
      left. exists pre, mid, post. auto.
    + right. intros p m q E. apply Hc.
      assert (Hlen : length (pre ++ o) <= length (p ++ o ++ m)).
      { specialize (Hpre p (m ++ c ++ q) E). rewrite !length_app. lia. }
      assert (E' : (pre ++ o) ++ rest = (p ++ o ++ m) ++ c ++ q).
      { rewrite <- !app_assoc. exact E. }
      destruct (app_split_longer _ _ _ _ E' Hlen) as (l & _ & ->).
      exists l, q. reflexivity.
  - right. intros p m q ->. apply Ho. exists p, (m ++ c ++ q). reflexivity.
Qed.

(** ** Search, and the mapping built by the loop *)

Lemma search_Some (r : regex) (s : str) (m : mtch) :
  search r s = Some m ->
  exists p q rest caps, s = p ++ q /\ match_at r q = Some (rest, caps).
Proof.
  revert m. induction s as [| c s IH]; intros m; cbn [search].
  - destruct (match_at r []) as [[rest caps] |] eqn:E; [| discriminate].
    intros _. exists [], [], rest, caps. auto.
  - destruct (match_at r (c :: s)) as [[rest caps] |] eqn:E.
    + intros _. exists [], (c :: s), rest, caps. auto.
    + destruct (search r s) as [m' |]; [| discriminate]. intros _.
      destruct (IH m' eq_refl) as (p & q & rest & caps & -> & H).
      exists (c :: p), q, rest, caps. auto.
Qed.

Lemma search_complete (r : regex) (p q : str) :
  match_at r q <> None -> search r (p ++ q) <> None.
Proof.
  intros H. induction p as [| c p IH]; cbn [app].
  - destruct (match_at r q) as [[rest caps] |] eqn:E; [| congruence].
    rewrite (search_hit _ _ E). discriminate.
  - destruct (match_at r (c :: p ++ q)) as [[rest caps] |] eqn:E.
    + rewrite (search_hit _ _ E). discriminate.
    + rewrite (search_miss _ _ _ E). destruct (search r (p ++ q)); [discriminate | congruence].
Qed.

Lemma is_match_lit (l s : str) : is_match (Lit l) s = true <-> occurs l s.
Proof.
  unfold is_match. split.
  - destruct (search (Lit l) s) as [m |] eqn:E; [| discriminate]. intros _.
    destruct (search_Some _ _ _ E) as (p & q & rest & caps & -> & H).
    unfold match_at in H. cbn [exec] in H.
    destruct (strip_prefix l q) as [t |] eqn:F; [| discriminate].
    apply strip_prefix_Some in F. subst q. exists p, t. reflexivity.
  - intros (p & q & ->).
    assert (H : search (Lit l) (p ++ l ++ q) <> None).
    { apply search_complete. unfold match_at. cbn [exec].
      rewrite strip_prefix_app. discriminate. }
    destruct (search (Lit l) (p ++ l ++ q)); [reflexivity | congruence].
Qed.

Lemma dict_get_set_same (d : dict) (k v : str) : dict_get (dict_set d k v) k = Some v.
Proof.
  induction d as [| [k' v'] d IH]; cbn.
  - rewrite (proj2 (str_eqb_eq k k) eq_refl). reflexivity.
  - destruct (str_eqb k' k) eqn:E; cbn; rewrite E; [reflexivity | exact IH].
Qed.

Lemma dict_get_set_other (d : dict) (k k' v : str) :
  k <> k' -> dict_get (dict_set d k v) k' = dict_get d k'.
Proof.
  intros Hne. induction d as [| [k0 v0] d IH]; cbn.
  - destruct (str_eqb k k') eqn:E; [| reflexivity].
    apply str_eqb_eq in E. contradiction.
  - destruct (str_eqb k0 k) eqn:E; cbn.
    + apply str_eqb_eq in E. subst k0.
      destruct (str_eqb k k') eqn:E'; [| reflexivity].
      apply str_eqb_eq in E'. contradiction.
    + rewrite IH. reflexivity.
Qed.

Lemma read_files_run (tar : tarball) (l : list str) :
  regular_files tar l ->
  forall (m : option str) (d : dict),
  exists d',
    read_files tar l m d
      = Ok (match m with Some x => Some x | None => find (block_found tar) l end, d') /\
    forall t,
      dict_get d' t =
      if mem_str t l
      then match extractfile tar t with
           | Ok content => Some (normalize content)
           | Raise _ => None
           end
      else dict_get d t.
Proof.
  induction l as [| t0 l IH]; intros Hreg m d.
  - exists d. split; [destruct m; reflexivity | reflexivity].
  - destruct (Hreg t0 (or_introl eq_refl)) as [c Hc].
    cbn [read_files find]. unfold block_found at 1. rewrite Hc. cbn [bind].
    destruct (IH (fun t Ht => Hreg t (or_intror Ht))
                 (match m with
                  | Some x => Some x
                  | None => if is_match re_begin_document (normalize c)
                            then Some t0 else None
                  end)
                 (dict_set d t0 (normalize c))) as (d' & Hrun & Hget).
    exists d'. split.
    + rewrite Hrun. destruct m as [x |]; [reflexivity |].
      destruct (is_match re_begin_document (normalize c)); reflexivity.
    + intros t. rewrite Hget. unfold mem_str. cbn [existsb]. fold (mem_str t l).
      destruct (mem_str t l); [rewrite orb_true_r; reflexivity |].
      rewrite orb_false_r. destruct (str_eqb t t0) eqn:E.
      * apply str_eqb_eq in E. subst t0. rewrite Hc. apply dict_get_set_same.
      * apply dict_get_set_other. intros ->.
        rewrite (proj2 (str_eqb_eq t t) eq_refl) in E. discriminate.
Qed.

Lemma read_files_raises (tar : tarball) (l : list str) (e : exn) :
  forall (m : option str) (d : dict),
    read_files tar l m d = Raise e ->
    exists before t after,
      l = before ++ t :: after /\ regular_files tar before /\
      extractfile tar t = Raise e.
Proof.
  induction l as [| t0 l IH]; intros m d; cbn [read_files]; [discriminate |].
  destruct (extractfile tar t0) as [c | e0] eqn:Hc; cbn [bind].
  - intros H. destruct (IH _ _ H) as (before & t & after & -> & Hreg & Ht).
    exists (t0 :: before), t, after. split; [reflexivity |]. split; [| exact Ht].
    intros x [<- | Hx]; [exists c; exact Hc | apply Hreg; exact Hx].
  - intros H. injection H as ->. exists [], t0, l. split; [reflexivity |].
    split; [intros x [] | exact Hc].
Qed.

Lemma read_files_returns (tar : tarball) (l : list str) :
  forall (m : option str) (d : dict) (r : option str * dict),
    read_files tar l m d = Ok r -> regular_files tar l.
Proof.
  induction l as [| t0 l IH]; intros m d r; cbn [read_files]; [intros _ x [] |].
  destruct (extractfile tar t0) as [c | e0] eqn:Hc; cbn [bind]; [| discriminate].
  intros H x [<- | Hx]; [exists c; exact Hc | exact (IH _ _ _ H x Hx)].
Qed.

Lemma members_listed (tar : tarball) (suffix : str) (l : list str) :
  names_ending tar suffix = Ok l ->
  exists names,
    getnames tar = Ok names /\ l = filter (fun f => endswith f suffix) names.
Proof.
  unfold names_ending. destruct (getnames tar) as [names | e]; cbn [bind]; [| discriminate].
  intros H. injection H as <-. exists names. split; reflexivity.
Qed.

Lemma bbl_members_listed (tar : tarball) (tex_files : list str) :
  tex_members tar = Ok tex_files -> exists bbl_file, bbl_members tar = Ok bbl_file.
Proof.
  intros H. apply members_listed in H. destruct H as (names & Hn & _).
  unfold bbl_members, names_ending. rewrite Hn. eexists. reflexivity.
Qed.

Lemma find_first (A : Type) (f : A -> bool) (before after : list A) (t : A) :
  (forall x, In x before -> f x = false) -> f t = true ->
  find f (before ++ t :: after) = Some t.
Proof.
  intros Hb Ht. induction before as [| x before IH]; cbn.
  - rewrite Ht. reflexivity.
  - rewrite (Hb x (or_introl eq_refl)). apply IH. intros y Hy. apply Hb. right. exact Hy.
Qed.

Lemma find_none_all (A : Type) (f : A -> bool) (l : list A) :
  (forall x, In x l -> f x = false) -> find f l = None.
Proof.
  induction l as [| x l IH]; intros H; cbn; [reflexivity |].
  rewrite (H x (or_introl eq_refl)). apply IH. intros y Hy. apply H. right. exact Hy.
Qed.

Lemma resolve_main_in (tex_files bbl_file : list str) (m : str) :
  resolve_main tex_files bbl_file = Some m -> In m tex_files.
Proof.
  unfold resolve_main. destruct bbl_file as [| b [| b' l]]; [| | discriminate].
  - destruct (1 <? length tex_files); [discriminate |].
    destruct tex_files as [| t l]; [discriminate |]. cbn. intros H. injection H as ->.
    left. reflexivity.
  - destruct (mem_str (str_replace b (txt ".bbl") [] ++ txt ".tex") tex_files) eqn:E;
      [| discriminate].
    intros H. injection H as <-. apply mem_str_In. exact E.
Qed.

Lemma resolve_main_deferred (tex_files bbl_file : list str) :
  deferred tex_files bbl_file -> resolve_main tex_files bbl_file = None.
Proof.
  unfold resolve_main. intros [[-> Hlen] | [(b & -> & Hb) | Hlen]].
  - destruct (Nat.ltb_spec 1 (length tex_files)); [reflexivity | lia].
  - destruct (mem_str (str_replace b (txt ".bbl") [] ++ txt ".tex") tex_files) eqn:E;
      [| reflexivity].
    apply mem_str_In in E. contradiction.
  - destruct bbl_file as [| b [| b' l]]; cbn in Hlen; try lia. reflexivity.
Qed.

Lemma main_document_eq (tar : tarball) (tex_files bbl_file : list str) :
  tex_members tar = Ok tex_files -> bbl_members tar = Ok bbl_file ->
  regular_files tar tex_files ->
  main_document tar =
  Ok (match resolve_main tex_files bbl_file with
      | Some m => Some m
      | None => find (block_found tar) tex_files
      end) /\
  exists file_contents,
    normalized_files tar = Ok file_contents /\
    forall t, In t tex_files ->
      exists content,
        extractfile tar t = Ok content /\
        dict_get file_contents t = Some (normalize content).
Proof.
  intros Ht Hb Hreg. unfold main_document, normalized_files.
  unfold tex_members in Ht. unfold bbl_members in Hb. unfold tex_members, bbl_members.
  rewrite Ht, Hb. cbn [bind].
  destruct (read_files_run tar tex_files Hreg (resolve_main tex_files bbl_file) [])
    as (d' & Hrun & Hget).
  rewrite Hrun. cbn [bind fst snd]. split; [reflexivity |].
  exists d'. split; [reflexivity |]. intros t Hin.
  destruct (Hreg t Hin) as [c Hc]. exists c. split; [exact Hc |].
  rewrite Hget, (proj2 (mem_str_In t tex_files) Hin), Hc. reflexivity.
Qed.

Lemma main_document_in (tex_files bbl_file : list str) (f : str -> bool) (m : str) :
  match resolve_main tex_files bbl_file with
  | Some x => Some x
  | None => find f tex_files
  end = Some m ->
  In m tex_files.
Proof.
  destruct (resolve_main tex_files bbl_file) as [x |] eqn:E.
  - intros H. injection H as <-. exact (resolve_main_in _ _ _ E).
  - intros H. apply find_some in H. apply H.
Qed.

Lemma tex_member_not_all (tar : tarball) (tex_files : list str) (t : str) :
  tex_members tar = Ok tex_files -> In t tex_files -> txt "all" <> t.
Proof.
  intros H Hin E. subst t. apply members_listed in H. destruct H as (names & _ & ->).
  apply filter_In in Hin. destruct Hin as [_ Hin]. vm_compute in Hin. discriminate.
Qed.

(** ** The [tex] pipeline: what it returns *)

Lemma tex_of_tar_run (tar : tarball) (tex_files bbl_file : list str) :
  tex_members tar = Ok tex_files -> bbl_members tar = Ok bbl_file ->
  regular_files tar tex_files ->
  exists m file_contents,
    main_document tar = Ok m /\
    normalized_files tar = Ok file_contents /\
    (forall t, In t tex_files ->
       exists content,
         extractfile tar t = Ok content /\
         dict_get file_contents t = Some (normalize content)) /\
    match m with
    | None => tex_of_tar tar = Ok None
    | Some x =>
        In x tex_files /\
        exists content,
          extractfile tar x = Ok content /\
          tex_of_tar tar =
            Ok (Some (dict_set file_contents (txt "all")
                        (inline_includes file_contents (normalize content))))
    end.
Proof.
  intros Ht Hb Hreg.
  destruct (main_document_eq tar tex_files bbl_file Ht Hb Hreg)
    as (Hmain & fc & Hfc & Hget).
  exists (match resolve_main tex_files bbl_file with
          | Some m => Some m
          | None => find (block_found tar) tex_files
          end), fc.
  split; [exact Hmain |]. split; [exact Hfc |]. split; [exact Hget |].
  unfold main_document in Hmain. unfold normalized_files in Hfc.
  unfold tex_of_tar. unfold tex_members in Ht, Hfc. unfold bbl_members in Hb, Hfc.
  rewrite Ht, Hb in Hmain, Hfc. rewrite Ht. cbn [bind] in *.
  destruct (read_files tar tex_files (resolve_main tex_files bbl_file) [])
    as [[m' fc'] | e] eqn:Hrun; cbn [bind fst snd] in Hmain, Hfc; [| discriminate].
  injection Hmain as Hm'. injection Hfc as Hfc'. subst fc'.
  destruct (length tex_files =? 0) eqn:Elen.
  - apply Nat.eqb_eq in Elen. destruct tex_files; [| discriminate].
    cbn [find]. unfold resolve_main.
    destruct bbl_file as [| b [| b' l]]; reflexivity.
  - rewrite Hb. cbn [bind]. rewrite Hrun. cbn [bind]. rewrite Hm'.
    destruct (match resolve_main tex_files bbl_file with
              | Some m => Some m
              | None => find (block_found tar) tex_files
              end) as [x |] eqn:Ex; [| reflexivity].
    assert (Hin : In x tex_files) by exact (main_document_in _ _ _ _ Ex).
    split; [exact Hin |]. destruct (Hget x Hin) as (c & Hc & Hgx).
    exists c. split; [exact Hc |]. rewrite Hgx. reflexivity.
Qed.

Lemma tex_of_tar_raises (tar : tarball) (e : exn) :
  tex_of_tar tar = Raise e ->
  getnames tar = Raise e \/
  exists before t after,
    tex_members tar = Ok (before ++ t :: after) /\
    regular_files tar before /\ extractfile tar t = Raise e.
Proof.
  unfold tex_of_tar, tex_members.
  destruct (names_ending tar (txt ".tex")) as [tex_files | e0] eqn:Ht; cbn [bind].
  - destruct (length tex_files =? 0); [discriminate |].
    destruct (bbl_members_listed tar tex_files Ht) as [bbl_file Hb].
    unfold bbl_members in Hb. rewrite Hb. cbn [bind].
    destruct (read_files tar tex_files (resolve_main tex_files bbl_file) [])
      as [[m fc] | e1] eqn:Hrun; cbn [bind].
    + destruct m as [x |]; [| discriminate].
      destruct (dict_get fc x) eqn:Hx; [discriminate |]. exfalso.
      assert (Hreg : regular_files tar tex_files) by exact (read_files_returns _ _ _ _ _ Hrun).
      destruct (read_files_run tar tex_files Hreg (resolve_main tex_files bbl_file) [])
        as (d' & Hrun' & Hget).
      rewrite Hrun in Hrun'. injection Hrun' as Hm ->.
      assert (Hin : In x tex_files) by (symmetry in Hm; exact (main_document_in _ _ _ _ Hm)).
      rewrite Hget, (proj2 (mem_str_In x tex_files) Hin) in Hx.
      destruct (Hreg x Hin) as [c Hc]. rewrite Hc in Hx. discriminate.
    + intros H. injection H as ->. right.
      destruct (read_files_raises _ _ _ _ _ Hrun) as (before & t & after & -> & Hreg & He).
      exists before, t, after. auto.
  - intros H. injection H as ->. left. unfold names_ending in Ht.
    destruct (getnames tar); cbn [bind] in Ht; [discriminate | exact Ht].
Qed.

(** X1. On an archive whose members can be listed and whose [.tex] members
    are all regular files the pipeline returns: [file_contents[main_tex]]
    always finds its key.  It returns [None] exactly when no main document is
    found.  Otherwise what it raises is what listing the members raises, or
    what reading the first [.tex] member that cannot be read raises. *)
Theorem tex_of_tar_returns (tar : tarball) :
  (forall tex_files,
     tex_members tar = Ok tex_files -> regular_files tar tex_files ->
     (exists r, tex_of_tar tar = Ok r) /\
     (exists m, main_document tar = Ok m) /\
     (tex_of_tar tar = Ok None <-> main_document tar = Ok None)) /\
  (forall e,
     tex_of_tar tar = Raise e ->
     getnames tar = Raise e \/
     exists before t after,
       tex_members tar = Ok (before ++ t :: after) /\
       regular_files tar before /\ extractfile tar t = Raise e).
Proof.
  split; [| exact (tex_of_tar_raises tar)].
  intros tex_files Ht Hreg.
  destruct (bbl_members_listed tar tex_files Ht) as [bbl_file Hb].
  destruct (tex_of_tar_run tar tex_files bbl_file Ht Hb Hreg)
    as (m & fc & Hm & _ & _ & Hcase).
  destruct m as [x |].
  - destruct Hcase as (_ & c & _ & Hrun).
    split; [eexists; exact Hrun |]. split; [eexists; exact Hm |].
    rewrite Hrun, Hm. split; discriminate.
  - split; [eexists; exact Hcase |]. split; [eexists; exact Hm |].
    rewrite Hcase, Hm. split; reflexivity.
Qed.

Lemma tex_of_tar_returns_witness :
  tex_of_tar bundle_two_tex <> Ok None /\
  tex_of_tar bundle_with_directory = Raise AttributeError.
Proof.
  destruct (tex_of_tar_returns bundle_two_tex) as [H _].
  destruct (H [txt "notes.tex"; txt "paper.tex"] eq_refl) as (_ & _ & Hiff).
  - intros t [<- | [<- | []]]; eexists; reflexivity.
  - split; [| reflexivity].
    intros E. apply Hiff in E. vm_compute in E. discriminate.
Defined.

(** X2. When [tex] returns a mapping, the [.tex] members were all read as
    regular files and a main document was found among them; every [.tex]
    member is a key whose value is the normalized content of that member,
    and the key ["all"] holds the main document's normalized content with
    its includes inlined. *)
Theorem tex_mapping_contents (tar : tarball) (d : dict) :
  tex_of_tar tar = Ok (Some d) ->
  exists tex_files m file_contents main_source,
    tex_members tar = Ok tex_files /\
    main_document tar = Ok (Some m) /\ In m tex_files /\
    normalized_files tar = Ok file_contents /\
    extractfile tar m = Ok main_source /\
    dict_get d (txt "all") =
      Some (inline_includes file_contents (normalize main_source)) /\
    forall t, In t tex_files ->
      exists content,
        extractfile tar t = Ok content /\ dict_get d t = Some (normalize content).
Proof.
  intros Hrun.
  destruct (tex_members tar) as [tex_files | e] eqn:Ht.
  2: { unfold tex_of_tar in Hrun. unfold tex_members in Ht. rewrite Ht in Hrun.
       discriminate. }
  destruct (bbl_members_listed tar tex_files Ht) as [bbl_file Hb].
  assert (Hreg : regular_files tar tex_files).
  { unfold tex_of_tar in Hrun. unfold tex_members in Ht. unfold bbl_members in Hb.
    rewrite Ht in Hrun. cbn [bind] in Hrun.
    destruct (length tex_files =? 0); [discriminate |].
    rewrite Hb in Hrun. cbn [bind] in Hrun.
    destruct (read_files tar tex_files (resolve_main tex_files bbl_file) [])
      as [r | e] eqn:E; [| discriminate].
    exact (read_files_returns _ _ _ _ _ E). }
  destruct (tex_of_tar_run tar tex_files bbl_file Ht Hb Hreg)
    as (m & fc & Hm & Hfc & Hget & Hcase).
  destruct m as [x |]; [| rewrite Hcase in Hrun; discriminate].
  destruct Hcase as (Hin & c & Hc & Hrun'). rewrite Hrun' in Hrun.
  injection Hrun as <-.
  exists tex_files, x, fc, c. repeat split; auto.
  - apply dict_get_set_same.
  - intros t Hin'. destruct (Hget t Hin') as (c' & Hc' & Hg). exists c'.
    split; [exact Hc' |].
    rewrite dict_get_set_other by (apply (tex_member_not_all tar tex_files t Ht Hin')).
    exact Hg.
Qed.

Lemma tex_mapping_contents_witness :
  exists tex_files m file_contents main_source,
    tex_members bundle_two_tex = Ok tex_files /\
    main_document bundle_two_tex = Ok (Some m) /\ In m tex_files /\
    normalized_files bundle_two_tex = Ok file_contents /\
    extractfile bundle_two_tex m = Ok main_source /\
    dict_get [(txt "notes.tex", [nl] ++ txt "notes");
              (txt "paper.tex", txt "\begin{document}\input{notes}\end{document}");
              (txt "all", txt "\begin{document}" ++ [nl] ++ txt "notes\end{document}")]
      (txt "all") =
      Some (inline_includes file_contents (normalize main_source)) /\
    forall t, In t tex_files ->
      exists content,
        extractfile bundle_two_tex t = Ok content /\
        dict_get [(txt "notes.tex", [nl] ++ txt "notes");
                  (txt "paper.tex", txt "\begin{document}\input{notes}\end{document}");
                  (txt "all", txt "\begin{document}" ++ [nl] ++ txt "notes\end{document}")]
          t = Some (normalize content).
Proof.
  apply (tex_mapping_contents bundle_two_tex). vm_compute. reflexivity.
Defined.

(** X3. The only exceptions that leave [tex] are the ones it is handed: an
    [HTTPError] of the download with a code other than 404, an exception of
    [tarfile.open] other than [ReadError], the exception that listing the
    members raises, and the exception that reading the first [.tex] member
    which cannot be read raises ([AttributeError] when it is no file). *)
Theorem tex_raises_only_foreign (env : source_env) (e : exn) :
  tex env = Raise e ->
  (exists code, e = HTTPError code /\ code <> 404%Z /\ download_source env = Raise e) \/
  (exists file, download_source env = Ok file /\ tarfile_open env file = Raise e /\
                e <> ReadError) \/
  (exists file tar,
     download_source env = Ok file /\ tarfile_open env file = Ok tar /\
     (getnames tar = Raise e \/
      exists before t after,
        tex_members tar = Ok (before ++ t :: after) /\
        regular_files tar before /\ extractfile tar t = Raise e)).
Proof.
  unfold tex. destruct (download_source env) as [file | e0] eqn:Ed.
  - destruct (tarfile_open env file) as [tar | e1] eqn:Eo.
    + intros H. right. right. exists file, tar. split; [reflexivity |].
      split; [exact Eo | exact (tex_of_tar_raises tar e H)].
    + intros H. right. left. exists file. split; [reflexivity |].
      destruct e1; try discriminate; injection H as <-; split; auto; discriminate.
  - destruct e0; try discriminate.
    destruct (Z.eqb_spec code 404); [discriminate |].
    intros H. injection H as <-. left. exists code. auto.
Qed.

Lemma tex_raises_only_foreign_witness :
  (exists code, AttributeError = HTTPError code /\ code <> 404%Z /\
                download_source (env_of_tar bundle_with_directory)
                  = Raise AttributeError) \/
  (exists file, download_source (env_of_tar bundle_with_directory) = Ok file /\
                tarfile_open (env_of_tar bundle_with_directory) file
                  = Raise AttributeError /\
                AttributeError <> ReadError) \/
  (exists file tar,
     download_source (env_of_tar bundle_with_directory) = Ok file /\
     tarfile_open (env_of_tar bundle_with_directory) file = Ok tar /\
     (getnames tar = Raise AttributeError \/
      exists before t after,
        tex_members tar = Ok (before ++ t :: after) /\
        regular_files tar before /\ extractfile tar t = Raise AttributeError)).
Proof.
  apply (tex_raises_only_foreign (env_of_tar bundle_with_directory) AttributeError).
  reflexivity.
Defined.

(** X4. A bundle with a single [.tex] member, a regular file, and no [.bbl]
    member: that member is the main document whatever it holds, and the
    mapping has exactly its normalized content and the flattened ["all"]. *)
Theorem single_tex_is_main (tar : tarball) (t content : str) :
  tex_members tar = Ok [t] -> bbl_members tar = Ok [] ->
  extractfile tar t = Ok content ->
  main_document tar = Ok (Some t) /\
  tex_of_tar tar =
    Ok (Some [(t, normalize content);
              (txt "all",
               inline_includes [(t, normalize content)] (normalize content))]).
Proof.
  intros Ht Hb Hc.
  unfold main_document, tex_of_tar. unfold tex_members in Ht. unfold bbl_members in Hb.
  rewrite Ht, Hb. cbn [bind length Nat.eqb read_files]. rewrite Hc.
  cbn [bind resolve_main length Nat.ltb Nat.leb hd_error fst dict_set dict_get].
  split; [reflexivity |].
  rewrite (proj2 (str_eqb_eq t t) eq_refl).
  destruct (str_eqb t (txt "all")) eqn:E; [| reflexivity].
  exfalso. apply str_eqb_eq in E.
  apply (tex_member_not_all tar [t] t Ht); [left; reflexivity | congruence].
Qed.

Lemma single_tex_is_main_witness :
  main_document bundle_one_tex = Ok (Some (txt "only.tex")) /\
  tex_of_tar bundle_one_tex =
    Ok (Some [(txt "only.tex", normalize (txt "no document block %x" ++ [nl]));
              (txt "all",
               inline_includes
                 [(txt "only.tex", normalize (txt "no document block %x" ++ [nl]))]
                 (normalize (txt "no document block %x" ++ [nl])))]).
Proof.
  apply (single_tex_is_main bundle_one_tex (txt "only.tex")); reflexivity.
Defined.

Lemma block_found_true (tar : tarball) (t : str) :
  has_document_block tar t -> block_found tar t = true.
Proof.
  intros (c & Hc & Ho). unfold block_found. rewrite Hc. apply is_match_lit. exact Ho.
Qed.

Lemma block_found_false (tar : tarball) (t : str) :
  lacks_document_block tar t -> block_found tar t = false.
Proof.
  intros (c & Hc & Ho). unfold block_found. rewrite Hc.
  destruct (is_match re_begin_document (normalize c)) eqn:E; [| reflexivity].
  exfalso. apply Ho. apply is_match_lit. exact E.
Qed.

(** X5. When the resolver defers and the [.tex] members are regular files,
    the main document is the first [.tex] member, in enumeration order,
    whose normalized content holds [\begin{document}]. *)
Theorem deferred_main_is_first_with_block (tar : tarball)
    (before after bbl_file : list str) (t : str) :
  tex_members tar = Ok (before ++ t :: after) ->
  bbl_members tar = Ok bbl_file ->
  deferred (before ++ t :: after) bbl_file ->
  (forall t', In t' before -> lacks_document_block tar t') ->
  has_document_block tar t ->
  regular_files tar after ->
  main_document tar = Ok (Some t).
Proof.
  intros Ht Hb Hdef Hbefore Hblock Hafter.
  assert (Hreg : regular_files tar (before ++ t :: after)).
  { intros x Hx. apply in_app_or in Hx. destruct Hx as [Hx | [<- | Hx]].
    - destruct (Hbefore x Hx) as (c & Hc & _). exists c. exact Hc.
    - destruct Hblock as (c & Hc & _). exists c. exact Hc.
    - apply Hafter. exact Hx. }
  destruct (main_document_eq tar _ _ Ht Hb Hreg) as [-> _].
  rewrite (resolve_main_deferred _ _ Hdef). f_equal.
  apply find_first.
  - intros x Hx. apply block_found_false. apply Hbefore. exact Hx.
  - apply block_found_true. exact Hblock.
Qed.

Lemma deferred_main_is_first_with_block_witness :
  main_document bundle_two_tex = Ok (Some (txt "paper.tex")).
Proof.
  apply (deferred_main_is_first_with_block bundle_two_tex [txt "notes.tex"] [] []
           (txt "paper.tex")).
  - reflexivity.
  - reflexivity.
  - left. split; [reflexivity | vm_compute; lia].
  - intros t' [<- | []]. eexists. split; [reflexivity |].
    apply str_find_None. vm_compute. reflexivity.
  - eexists. split; [reflexivity |]. apply (str_find_occurs _ _ 0). vm_compute. reflexivity.
  - intros x [].
Defined.

(** X6. When the resolver defers and no [.tex] member, all of them regular
    files, holds [\begin{document}] after normalization, there is no main
    document and [tex] returns [None]. *)
Theorem deferred_without_block (tar : tarball) (tex_files bbl_file : list str) :
  tex_members tar = Ok tex_files ->
  bbl_members tar = Ok bbl_file ->
  deferred tex_files bbl_file ->
  (forall t, In t tex_files -> lacks_document_block tar t) ->
  main_document tar = Ok None /\ tex_of_tar tar = Ok None.
Proof.
  intros Ht Hb Hdef Hnone.
  assert (Hreg : regular_files tar tex_files).
  { intros x Hx. destruct (Hnone x Hx) as (c & Hc & _). exists c. exact Hc. }
  destruct (tex_of_tar_run tar tex_files bbl_file Ht Hb Hreg)
    as (m & fc & Hm & _ & _ & Hcase).
  destruct (main_document_eq tar _ _ Ht Hb Hreg) as [Hmain _].
  rewrite (resolve_main_deferred _ _ Hdef) in Hmain.
  rewrite (find_none_all _ (block_found tar) tex_files) in Hmain
    by (intros x Hx; apply block_found_false; apply Hnone; exact Hx).
  rewrite Hmain in Hm. injection Hm as <-.
  split; [exact Hmain | exact Hcase].
Qed.

Lemma deferred_without_block_witness :
  main_document bundle_no_block = Ok None /\ tex_of_tar bundle_no_block = Ok None.
Proof.
  apply (deferred_without_block bundle_no_block [txt "a.tex"; txt "b.tex"]
           [txt "a.bbl"; txt "b.bbl"]).
  - reflexivity.
  - reflexivity.
  - right. right. vm_compute. lia.
  - intros t [<- | [<- | []]]; (eexists; split; [reflexivity |]);
      apply str_find_None; vm_compute; reflexivity.
Defined.

(** ** The inliner on its edge cases *)

Lemma finditer_none (r : regex) (s : str) :
  (forall p q, s = p ++ q -> match_at r q = None) -> finditer_from r 0 s = [].
Proof.
  induction s as [| c s IH]; intros H; cbn [finditer_from].
  - rewrite (H [] [] eq_refl). reflexivity.
  - rewrite (H [] (c :: s) eq_refl). apply IH. intros p q ->.
    apply (H (c :: p) q). reflexivity.
Qed.

Lemma findall_without_opening (o : str) (r : regex) (s : str) :
  ~ occurs o s -> findall (Lit o >> r) s = [].
Proof.
  intros H. unfold findall. rewrite finditer_none; [reflexivity |].
  intros p q E. apply lit_cat_none. exact (@not_occurs_strip _ _ _ _ H E).
Qed.

(** X7. A main document that holds neither [\input{] nor [\include{] is
    flattened to itself, whatever the mapping holds. *)
Theorem inline_without_directives (file_contents : dict) (main_source : str) :
  ~ occurs (txt "\input{") main_source ->
  ~ occurs (txt "\include{") main_source ->
  inline_includes file_contents main_source = main_source.
Proof.
  intros Hin Hinc. unfold inline_includes, include_files, re_input, re_include.
  rewrite (findall_without_opening _ _ _ Hin), (findall_without_opening _ _ _ Hinc).
  reflexivity.
Qed.

Lemma inline_without_directives_witness :
  inline_includes nested_contents (txt "\begin{document}\inputs and \includeonly\end{document}")
  = txt "\begin{document}\inputs and \includeonly\end{document}".
Proof.
  apply inline_without_directives; apply str_find_None; vm_compute; reflexivity.
Defined.

(** X8. The file name that is looked up for a directive always ends in
    [.tex], and resolving a resolved name changes nothing. *)
Theorem tex_file_name_ends_in_tex (f : str) :
  endswith (tex_file_name f) (txt ".tex") = true /\
  tex_file_name (tex_file_name f) = tex_file_name f.
Proof.
  assert (H : endswith (tex_file_name f) (txt ".tex") = true).
  { unfold tex_file_name. destruct (endswith f (txt ".tex")) eqn:E; cbn [negb].
    - exact E.
    - apply endswith_app. }
  split; [exact H |]. unfold tex_file_name at 1. rewrite H. reflexivity.
Qed.

(** ** The normalizer on every text *)

Lemma str_find_first (l s : str) (n : nat) :
  str_find l s = Some n -> forall p q, s = p ++ l ++ q -> n <= length p.
Proof.
  revert n. induction s as [| c s IH]; intros n; rewrite str_find_eq.
  - destruct (startswith [] l); [| discriminate]. intros H. injection H as <-. intros; lia.
  - destruct (startswith (c :: s) l) eqn:E.
    + intros H. injection H as <-. intros; lia.
    + destruct (str_find l s) as [n' |] eqn:F; [| discriminate].
      cbn. intros H. injection H as <-. intros p q Epq.
      destruct p as [| c' p]; cbn [app] in Epq.
      * exfalso. rewrite Epq, startswith_app in E. discriminate.
      * injection Epq as _ Epq. cbn. apply le_n_S. apply (IH n' eq_refl p q Epq).
Qed.

Lemma str_find_occurs_first (l pre s : str) :
  str_find l s = Some (length pre) -> occurs_first l pre s.
Proof. intros H p q E. exact (str_find_first l s _ H p q E). Qed.

(** X9. Normalizing never makes a text longer. *)
Theorem normalize_never_longer (s : str) : length (normalize s) <= length s.
Proof.
  unfold normalize, strip_line_comments, strip_comment_blocks, strip_iffalse_blocks,
    collapse_newlines, remove_linebreaks, collapse_hspaces.
  repeat match goal with
         | |- length (sub ?r ?repl ?x) <= _ =>
             apply Nat.le_trans with (m := length x);
             [apply sub_length; vm_compute; lia |]
         end.
  apply Nat.le_refl.
Qed.

Lemma remove_linebreaks_stops (s : str) :
  stops (chr bslash) s -> stops (chr bslash) (remove_linebreaks s).
Proof.
  destruct s as [| x s]; intros Hs; [exact I |].
  unfold remove_linebreaks. rewrite sub_miss; [exact Hs |].
  apply lit_none. apply strip_prefix_head. intros E. subst x.
  unfold stops, chr in Hs. rewrite Ascii.eqb_refl in Hs. discriminate.
Qed.

Lemma remove_linebreaks_no_pair (s : str) :
  ~ occurs [bslash; bslash] (remove_linebreaks s).
Proof.
  induction s as [s IH] using str_length_ind. unfold remove_linebreaks in *.
  assert (Hseg := match_at_segment re_linebreak (le_S _ _ (le_n 1))).
  destruct (@sub_cases re_linebreak [] _ Hseg s)
    as [[-> ->] | [(c & s' & -> & Hnone & ->) | (u & rest & caps & -> & Hne & _ & _ & ->)]].
  - intros (p & q & E). destruct p; discriminate.
  - intros (p & q & E). destruct p as [| c' p]; cbn [app] in E.
    + injection E as -> E.
      assert (Hs' : stops (chr bslash) s').
      { destruct s' as [| x s'']; [exact I |]. unfold stops, chr.
        destruct (Ascii.eqb_spec bslash x) as [<- | _]; [| reflexivity].
        vm_compute in Hnone. discriminate. }
      apply remove_linebreaks_stops in Hs'. unfold remove_linebreaks in Hs'.
      rewrite E in Hs'. unfold stops, chr in Hs'.
      rewrite Ascii.eqb_refl in Hs'. discriminate.
    + injection E as _ E. apply (IH s'); [cbn; lia |]. exists p, q. exact E.
  - cbn [app]. apply IH. rewrite length_app. destruct u; [congruence | cbn; lia].
Qed.

Lemma cut_no_pct (s t : str) : cut s t -> ~ pct_before_nl s -> ~ pct_before_nl t.
Proof. intros Hc Hs Ht. apply Hs. exact (cut_pair percent nl s t Hc Ht). Qed.

Lemma normalize_no_pct (s : str) : ~ pct_before_nl (normalize s).
Proof.
  unfold normalize.
  set (x1 := strip_line_comments s).
  set (x2 := strip_comment_blocks x1).
  set (x3 := strip_iffalse_blocks x2).
  set (x4 := collapse_newlines x3).
  set (x5 := remove_linebreaks x4).
  assert (H1 : ~ pct_before_nl x1) by apply strip_line_comments_no_pct.
  assert (H2 : ~ pct_before_nl x2).
  { apply (cut_no_pct x1); [| exact H1]. apply sub_cut. vm_compute. lia. }
  assert (H3 : ~ pct_before_nl x3).
  { apply (cut_no_pct x2); [| exact H2]. apply sub_cut. vm_compute. lia. }
  assert (H4 : ~ pct_before_nl x4).
  { intros H. apply H3.
    apply (shape_pair (U := fun u => In nl u) (d := nl) (a := percent) (b := nl)
             (t := x4)); [discriminate | intros _ u Hu; exact Hu | | exact H].
    apply collapse_newlines_shape. }
  assert (H5 : ~ pct_before_nl x5).
  { apply (cut_no_pct x4); [| exact H4]. apply sub_cut. vm_compute. lia. }
  intros H. apply H5.
  apply (shape_pair (U := fun _ => True) (d := space) (a := percent) (b := nl)
           (t := collapse_hspaces x5)); [discriminate | discriminate | | exact H].
  apply collapse_hspaces_shape.
Qed.

Lemma normalize_no_linebreak (s : str) : ~ occurs [bslash; bslash] (normalize s).
Proof.
  unfold normalize.
  set (x5 := remove_linebreaks _).
  intros H. apply (remove_linebreaks_no_pair (collapse_newlines
    (strip_iffalse_blocks (strip_comment_blocks (strip_line_comments s))))).
  fold x5.
  apply (shape_occurs (U := fun _ => True) (d := space) (t := collapse_hspaces x5));
    [not_in_text | discriminate | apply collapse_hspaces_shape | exact H].
Qed.

(** X10. Whatever the input, the normalized text has no [%] with a newline
    after it, no line-break marker [\\] and no run of three horizontal
    whitespace characters; so on a normalized text the line-comment step, the
    line-break step and the whitespace step change nothing. *)
Theorem normalized_text_is_stable (s : str) :
  (~ pct_before_nl (normalize s) /\
   ~ occurs [bslash; bslash] (normalize s) /\
   ~ long_run (normalize s)) /\
  strip_line_comments (normalize s) = normalize s /\
  remove_linebreaks (normalize s) = normalize s /\
  collapse_hspaces (normalize s) = normalize s.
Proof.
  assert (H1 := normalize_no_pct s).
  assert (H2 := normalize_no_linebreak s).
  assert (H3 : ~ long_run (normalize s)) by (unfold normalize; apply collapse_hspaces_no_long_run).
  repeat split; auto.
  - apply strip_line_comments_id. exact H1.
  - apply remove_linebreaks_id. exact H2.
  - apply collapse_hspaces_id. exact H3.
Qed.

(** X11. A text with no [%] before a newline, no [\\], no [\begin{comment}],
    no [\iffalse], no blank line and no run of three horizontal whitespace
    characters is returned as it is. *)
Theorem normalize_fixed_point (s : str) :
  ~ pct_before_nl s ->
  ~ occurs [bslash; bslash] s ->
  ~ occurs (txt "\begin{comment}") s ->
  ~ occurs (txt "\iffalse") s ->
  ~ occurs [nl; nl] s ->
  ~ long_run s ->
  normalize s = s.
Proof.
  intros Hp H1 H2 H3 Hn Hl. apply normalize_fixed; auto. repeat split; assumption.
Qed.

(** X12. The block steps remove the first complete block, from the first
    opening text to the first closing text after it, and go on after it; a
    text in which the closing text ([\end{comment}], respectively [\fi])
    never occurs is left as it is. *)
Theorem disabled_blocks_removed :
  (forall pre mid post,
     occurs_first (txt "\begin{comment}") pre
       (pre ++ txt "\begin{comment}" ++ mid ++ txt "\end{comment}" ++ post) ->
     occurs_first (txt "\end{comment}") mid (mid ++ txt "\end{comment}" ++ post) ->
     strip_comment_blocks
       (pre ++ txt "\begin{comment}" ++ mid ++ txt "\end{comment}" ++ post)
     = pre ++ strip_comment_blocks post) /\
  (forall s, ~ occurs (txt "\end{comment}") s -> strip_comment_blocks s = s) /\
  (forall pre mid post,
     occurs_first (txt "\iffalse") pre
       (pre ++ txt "\iffalse" ++ mid ++ txt "\fi" ++ post) ->
     occurs_first (txt "\fi") mid (mid ++ txt "\fi" ++ post) ->
     strip_iffalse_blocks (pre ++ txt "\iffalse" ++ mid ++ txt "\fi" ++ post)
     = pre ++ strip_iffalse_blocks post) /\
  (forall s, ~ occurs (txt "\fi") s -> strip_iffalse_blocks s = s).
Proof.
  unfold strip_comment_blocks, strip_iffalse_blocks.
  change re_comment_block with (block_regex (txt "\begin{comment}") (txt "\end{comment}")).
  change re_iffalse_block with (block_regex (txt "\iffalse") (txt "\fi")).
  repeat split.
  - intros pre mid post Hpre Hmid.
    apply (sub_block _ _ [] pre mid post); [discriminate | exact Hpre | exact Hmid].
  - intros s H. apply sub_block_unclosed. exact H.
  - intros pre mid post Hpre Hmid.
    apply (sub_block _ _ [] pre mid post); [discriminate | exact Hpre | exact Hmid].
  - intros s H. apply sub_block_unclosed. exact H.
Qed.

Lemma disabled_blocks_removed_witness :
  strip_iffalse_blocks (txt "keep " ++ txt "\iffalse" ++ txt " old " ++ txt "\fi" ++ txt "gure 1")
    = txt "keep " ++ strip_iffalse_blocks (txt "gure 1") /\
  strip_comment_blocks (txt "a \begin{comment} never closed") = txt "a \begin{comment} never closed".
Proof.
  destruct disabled_blocks_removed as (_ & Hopen & Hfi & _).
  split.
  - apply (Hfi (txt "keep ") (txt " old ") (txt "gure 1"));
      apply str_find_occurs_first; vm_compute; reflexivity.
  - apply Hopen. apply str_find_None. vm_compute. reflexivity.
Defined.

Lemma normalize_fixed_point_witness : normalize clean_text = clean_text.
Proof.
  apply normalize_fixed_point.
  - assert (E : strip_line_comments clean_text = clean_text) by (vm_compute; reflexivity).
    rewrite <- E. apply strip_line_comments_no_pct.
  - apply str_find_None. vm_compute. reflexivity.
  - apply str_find_None. vm_compute. reflexivity.
  - apply str_find_None. vm_compute. reflexivity.
  - apply str_find_None. vm_compute. reflexivity.
  - assert (E : collapse_hspaces clean_text = clean_text) by (vm_compute; reflexivity).
    rewrite <- E. apply collapse_hspaces_no_long_run.
Defined.

(** ** Regions and the author block *)

Lemma find_region_props (name content : str) :
  (find_region name content = [] <-> ~ occurs (section_heading name) content) /\
  occurs (find_region name content) content.
Proof.
  destruct (find_region_spec name content) as [Hno Hyes].
  destruct (occurs_dec (section_heading name) content) as [Ho | Ho].
  - destruct (Hyes Ho) as (pre & body & m & after & E & _ & _ & _ & Er).
    split.
    + split; [| contradiction]. rewrite Er. discriminate.
    + rewrite Er. exists pre, after. rewrite E, <- !app_assoc. reflexivity.
  - split.
    + split; [intros _; exact Ho | intros _; exact (Hno Ho)].
    + rewrite (Hno Ho). exists [], content. reflexivity.
Qed.

(** X13. Each region of [tldr] is empty exactly when its heading does not
    occur in the text left after the removal of citations, figures and
    tables, and it is always a substring of that text, which is never longer
    than the flattened document. *)
Theorem tldr_regions_presence (d : dict) (all : str) :
  dict_get d (txt "all") = Some all ->
  (fst (tldr_regions (Some d)) = [] <->
   ~ occurs (section_heading (txt "Introduction")) (remove_noise all)) /\
  (snd (tldr_regions (Some d)) = [] <->
   ~ occurs (section_heading (txt "Conclusion")) (remove_noise all)) /\
  occurs (fst (tldr_regions (Some d))) (remove_noise all) /\
  occurs (snd (tldr_regions (Some d))) (remove_noise all) /\
  length (remove_noise all) <= length all.
Proof.
  intros Hall. unfold tldr_regions. rewrite Hall. cbn [fst snd].
  destruct (find_region_props (txt "Introduction") (remove_noise all)) as [Hi1 Hi2].
  destruct (find_region_props (txt "Conclusion") (remove_noise all)) as [Hc1 Hc2].
  repeat split; try (apply Hi1); try (apply Hc1); auto.
  unfold remove_noise.
  repeat match goal with
         | |- length (sub ?r ?repl ?x) <= _ =>
             apply Nat.le_trans with (m := length x);
             [apply sub_length; vm_compute; lia |]
         end.
  apply Nat.le_refl.
Qed.

Lemma tldr_regions_presence_witness :
  fst (tldr_regions (Some [(txt "all", doc_conclusion_only)])) = [] /\
  snd (tldr_regions (Some [(txt "all", doc_conclusion_only)])) <> [].
Proof.
  destruct (tldr_regions_presence [(txt "all", doc_conclusion_only)] doc_conclusion_only
              eq_refl) as (Hi & Hc & _).
  split.
  - apply Hi. apply str_find_None. vm_compute. reflexivity.
  - intros E. apply Hc in E. apply E.
    apply (str_find_occurs _ _ 21). vm_compute. reflexivity.
Defined.

Lemma information_region_eq (content : str) :
  information_region content =
  match search (block_regex (txt "\author") (txt "\maketitle")) content with
  | Some m => Some (m_group0 m)
  | None =>
      match search (block_regex (txt "\begin{document}") (txt "\begin{abstract}")) content with
      | Some m => Some (m_group0 m)
      | None => None
      end
  end.
Proof.
  unfold information_region, possible_regions. cbn [map find].
  change re_author_block with (block_regex (txt "\author") (txt "\maketitle")).
  change re_document_head
    with (block_regex (txt "\begin{document}") (txt "\begin{abstract}")).
  destruct (search (block_regex (txt "\author") (txt "\maketitle")) content);
    [reflexivity |].
  destruct (search (block_regex (txt "\begin{document}") (txt "\begin{abstract}")) content);
    reflexivity.
Qed.

Lemma information_region_cases (content : str) :
  (forall pre mid post,
     content = pre ++ txt "\author" ++ mid ++ txt "\maketitle" ++ post ->
     occurs_first (txt "\author") pre content ->
     occurs_first (txt "\maketitle") mid (mid ++ txt "\maketitle" ++ post) ->
     information_region content = Some (txt "\author" ++ mid ++ txt "\maketitle")) /\
  ((forall pre mid post,
      content <> pre ++ txt "\author" ++ mid ++ txt "\maketitle" ++ post) ->
   forall pre mid post,
     content = pre ++ txt "\begin{document}" ++ mid ++ txt "\begin{abstract}" ++ post ->
     occurs_first (txt "\begin{document}") pre content ->
     occurs_first (txt "\begin{abstract}") mid (mid ++ txt "\begin{abstract}" ++ post) ->
     information_region content
     = Some (txt "\begin{document}" ++ mid ++ txt "\begin{abstract}")) /\
  ((forall pre mid post,
      content <> pre ++ txt "\author" ++ mid ++ txt "\maketitle" ++ post) ->
   (forall pre mid post,
      content <> pre ++ txt "\begin{document}" ++ mid ++ txt "\begin{abstract}" ++ post) ->
   information_region content = None).
Proof.
  rewrite information_region_eq. repeat split.
  - intros pre mid post -> Hpre Hmid.
    assert (H := search_block_found _ _ pre mid post Hpre Hmid).
    destruct (search (block_regex (txt "\author") (txt "\maketitle")) _) as [m |];
      cbn [option_map] in H; [exact H | discriminate].
  - intros Hno pre mid post -> Hpre Hmid.
    rewrite (search_block_none _ _ _ Hno).
    assert (H := search_block_found _ _ pre mid post Hpre Hmid).
    destruct (search (block_regex (txt "\begin{document}") (txt "\begin{abstract}")) _)
      as [m |]; cbn [option_map] in H; [exact H | discriminate].
  - intros Hno1 Hno2.
    rewrite (search_block_none _ _ _ Hno1), (search_block_none _ _ _ Hno2). reflexivity.
Qed.

(** X14. The author information region is the first [\author] ...
    [\maketitle] block when the text has one; only when it has none, the
    first [\begin{document}] ... [\begin{abstract}] block; and absent when
    the text has neither.  Each block runs from the first opening text to
    the first closing text after it, both included. *)
Theorem information_region_spec (content : str) :
  (forall pre mid post,
     content = pre ++ txt "\author" ++ mid ++ txt "\maketitle" ++ post ->
     occurs_first (txt "\author") pre content ->
     occurs_first (txt "\maketitle") mid (mid ++ txt "\maketitle" ++ post) ->
     information_region content = Some (txt "\author" ++ mid ++ txt "\maketitle")) /\
  ((forall pre mid post,
      content <> pre ++ txt "\author" ++ mid ++ txt "\maketitle" ++ post) ->
   forall pre mid post,
     content = pre ++ txt "\begin{document}" ++ mid ++ txt "\begin{abstract}" ++ post ->
     occurs_first (txt "\begin{document}") pre content ->
     occurs_first (txt "\begin{abstract}") mid (mid ++ txt "\begin{abstract}" ++ post) ->
     information_region content
     = Some (txt "\begin{document}" ++ mid ++ txt "\begin{abstract}")) /\
  ((forall pre mid post,
      content <> pre ++ txt "\author" ++ mid ++ txt "\maketitle" ++ post) ->
   (forall pre mid post,
      content <> pre ++ txt "\begin{document}" ++ mid ++ txt "\begin{abstract}" ++ post) ->
   information_region content = None).
Proof. exact (information_region_cases content). Qed.

Lemma no_block_without_opening (o c s : str) :
  ~ occurs o s -> forall pre mid post, s <> pre ++ o ++ mid ++ c ++ post.
Proof. intros H pre mid post ->. apply H. exists pre, (mid ++ c ++ post). reflexivity. Qed.

Lemma information_region_spec_witness :
  information_region doc_with_author
    = Some (txt "\author" ++ txt "{A. B.\\ Univ}" ++ txt "\maketitle") /\
  information_region doc_with_head
    = Some (txt "\begin{document}" ++ txt "\title{T} C. D., Inst" ++ txt "\begin{abstract}") /\
  information_region (txt "\section{Introduction} no author here") = None.
Proof.
  split; [| split].
  - destruct (information_region_spec doc_with_author) as (H & _ & _).
    apply (H (txt "\title{T}") (txt "{A. B.\\ Univ}") (txt "\begin{document}\begin{abstract}")).
    + reflexivity.
    + apply str_find_occurs_first. vm_compute. reflexivity.
    + apply str_find_occurs_first. vm_compute. reflexivity.
  - destruct (information_region_spec doc_with_head) as (_ & H & _).
    apply (H (no_block_without_opening _ _ _
                (str_find_None (l := txt "\author") (s := doc_with_head) eq_refl))
             [] (txt "\title{T} C. D., Inst") (txt "Abs")).
    + reflexivity.
    + apply str_find_occurs_first. vm_compute. reflexivity.
    + apply str_find_occurs_first. vm_compute. reflexivity.
  - destruct (information_region_spec (txt "\section{Introduction} no author here"))
      as (_ & _ & H).
    apply H; apply no_block_without_opening; apply str_find_None; vm_compute; reflexivity.
Defined.

Section AffiliationsEdges.
Variable pyobj : Type.
Variable py_eval : str -> outcome pyobj.
Variable py_list_set : pyobj -> outcome (list pyobj).
Variable py_str : pyobj -> outcome str.
Variable truncate_tokens : str -> str.
Variable llm_generate : str -> str.

(** X15. [affiliations] is [None], whatever the language model would answer,
    when [tex] is [None] or an empty mapping, when the key ["all"] is missing
    or empty, and when the flattened document has neither an author block
    nor a document head; otherwise the reply to the prompt built from the
    region is what gets parsed. *)
Theorem affiliations_needs_region (tex : option dict) :
  (tex = None \/ tex = Some [] -> 
   affiliations py_eval py_list_set py_str truncate_tokens llm_generate tex = Returns None) /\
  (forall d, tex = Some d ->
     dict_get d (txt "all") = None \/ dict_get d (txt "all") = Some [] ->
     affiliations py_eval py_list_set py_str truncate_tokens llm_generate tex = Returns None) /\
  (forall d content, tex = Some d -> dict_get d (txt "all") = Some content ->
     (forall pre mid post,
        content <> pre ++ txt "\author" ++ mid ++ txt "\maketitle" ++ post) ->
     (forall pre mid post,
        content <> pre ++ txt "\begin{document}" ++ mid ++ txt "\begin{abstract}" ++ post) ->
     affiliations py_eval py_list_set py_str truncate_tokens llm_generate tex = Returns None) /\
  (forall d content region, tex = Some d -> dict_get d (txt "all") = Some content ->
     information_region content = Some region ->
     affiliations py_eval py_list_set py_str truncate_tokens llm_generate tex
     = parse_affiliations py_eval py_list_set py_str
         (llm_generate (truncate_tokens (affiliation_prompt region)))).
Proof.
  repeat split.
  - intros [-> | ->]; reflexivity.
  - intros d -> [H | H]; (destruct d; cbn [affiliations]; [reflexivity |]);
      rewrite H; reflexivity.
  - intros d content -> Hall Hno1 Hno2.
    destruct d as [| kv d]; [reflexivity |]. cbn [affiliations]. rewrite Hall.
    destruct content as [| c content]; [reflexivity |].
    destruct (information_region_cases (c :: content)) as (_ & _ & H).
    rewrite (H Hno1 Hno2). reflexivity.
  - intros d content region -> Hall Hreg.
    destruct d as [| kv d]; [discriminate |]. cbn [affiliations]. rewrite Hall.
    destruct content as [| c content].
    + vm_compute in Hreg. discriminate.
    + rewrite Hreg. reflexivity.
Qed.
End AffiliationsEdges.

Lemma affiliations_needs_region_witness :
  affiliations toy_eval toy_list_set toy_str (fun p => p) (fun _ => txt "[]")
    (Some [(txt "main.tex", txt "x"); (txt "all", txt "\section{Introduction} no author")])
  = Returns None /\
  affiliations toy_eval toy_list_set toy_str (fun p => p) (fun _ => txt "[]")
    (Some [(txt "all", doc_with_author)])
  = Returns (Some []).
Proof.
  destruct (affiliations_needs_region toy_obj toy_eval toy_list_set toy_str (fun p => p)
              (fun _ => txt "[]")
              (Some [(txt "main.tex", txt "x");
                     (txt "all", txt "\section{Introduction} no author")]))
    as (_ & _ & Hno & _).
  destruct (affiliations_needs_region toy_obj toy_eval toy_list_set toy_str (fun p => p)
              (fun _ => txt "[]") (Some [(txt "all", doc_with_author)]))
    as (_ & _ & _ & Hyes).
  split.
  - apply (Hno _ (txt "\section{Introduction} no author") eq_refl eq_refl);
      apply no_block_without_opening; apply str_find_None; vm_compute; reflexivity.
  - rewrite (Hyes _ doc_with_author (txt "\author{A. B.\\ Univ}\maketitle") eq_refl eq_refl);
      vm_compute; reflexivity.
Defined.

(** ** [arxiv_id] and [pdf_url] *)

Lemma rep_class (A : Type) (g : bool) (cls : ascii -> bool) (s : str) :
  forall (lo : nat) (hi : option nat) (k : str -> option A) (x : A),
    rep g cls lo hi s k = Some x ->
    exists u s', s = u ++ s' /\ forallb cls u = true /\ lo <= length u /\ k s' = Some x.
Proof.
  induction s as [| c s IH]; intros lo hi k x.
  - cbn. destruct lo; [| discriminate]. intros H. exists [], []. auto.
  - cbn [rep].
    assert (Hstop : match lo with 0 => k (c :: s) | S _ => None end = Some x ->
                    exists u s', c :: s = u ++ s' /\ forallb cls u = true /\
                                 lo <= length u /\ k s' = Some x).
    { destruct lo; [| discriminate]. intros H. exists [], (c :: s). auto. }
    destruct (cls c && has_room hi) eqn:Ec; [| exact Hstop].
    apply andb_true_iff in Ec. destruct Ec as [Ec _].
    assert (Hmore : rep g cls (pred lo) (one_less hi) s k = Some x ->
                    exists u s', c :: s = u ++ s' /\ forallb cls u = true /\
                                 lo <= length u /\ k s' = Some x).
    { intros H. destruct (IH _ _ _ _ H) as (u & s' & -> & Hu & Hlen & Hk).
      exists (c :: u), s'. cbn [forallb length]. rewrite Ec, Hu.
      repeat split; auto. lia. }
    destruct g.
    + destruct (rep true cls (pred lo) (one_less hi) s k) eqn:E; [| exact Hstop].
      intros H. apply Hmore. exact H.
    + destruct (match lo with 0 => k (c :: s) | S _ => None end) eqn:E.
      * intros H. apply Hstop. exact H.
      * exact Hmore.
Qed.

Lemma version_match (s rest : str) (caps : list str) :
  match_at re_version s = Some (rest, caps) ->
  exists u, s = txt "v" ++ u ++ rest /\ forallb digit u = true /\ u <> [] /\
            (rest = [] \/ rest = [nl]).
Proof.
  unfold match_at, re_version. cbn [exec].
  destruct (strip_prefix (txt "v") s) as [t |] eqn:E; [| discriminate].
  apply strip_prefix_Some in E. subst s. intros H.
  apply rep_class in H. destruct H as (u & s' & -> & Hu & Hlen & H).
  exists u. 
  destruct s' as [| c [| c' s']]; try discriminate.
  - injection H as <- _. repeat split; auto. intros ->. cbn in Hlen. lia.
  - destruct (Ascii.eqb_spec c nl) as [-> | _]; [| discriminate].
    injection H as <- _. repeat split; auto. intros ->. cbn in Hlen. lia.
Qed.

Lemma version_match_end (ds : str) :
  ds <> [] -> forallb digit ds = true ->
  match_at re_version (txt "v" ++ ds) = Some ([], []).
Proof.
  intros Hne Hd. unfold match_at, re_version. cbn [exec].
  rewrite strip_prefix_app. rewrite <- (app_nil_r ds).
  apply rep_greedy_hit; auto.
  - exact I.
  - destruct ds; [congruence | cbn; lia].
Qed.

Lemma digits_no_v (u : str) : forallb digit u = true -> ~ In "v"%char u.
Proof.
  intros H Hin. rewrite forallb_forall in H. specialize (H _ Hin). vm_compute in H.
  discriminate.
Qed.

Lemma sub_version_strips (base ds : str) :
  ds <> [] -> forallb digit ds = true ->
  sub re_version [] (base ++ txt "v" ++ ds) = base.
Proof.
  intros Hne Hd. induction base as [| c base IH].
  - cbn [app]. 
    change (txt "v" ++ ds) with ("v"%char :: ds).
    rewrite (@sub_hit re_version [] "v"%char ds ds [] [] (eq_sym (app_nil_r ds))
               (version_match_end ds Hne Hd)).
    reflexivity.
  - cbn [app]. rewrite sub_miss; [rewrite IH; reflexivity |].
    destruct (match_at re_version (c :: base ++ txt "v" ++ ds)) as [[rest caps] |] eqn:E;
      [| reflexivity].
    exfalso. destruct (version_match _ _ _ E) as (u & Eu & Hu & _ & Hrest).
    cbn [app txt list_ascii_of_string] in Eu. injection Eu as _ Eu.
    destruct (Nat.le_gt_cases (length u) (length base)) as [Hle | Hlt].
    + destruct (app_split_longer _ _ _ _ (eq_sym Eu) Hle) as (l & _ & Er).
      assert (Hlen : 2 <= length rest).
      { rewrite Er, length_app. cbn. destruct ds; [congruence | cbn; lia]. }
      destruct Hrest as [-> | ->]; cbn in Hlen; lia.
    + destruct (app_split_shorter _ _ _ _ (eq_sym Eu) Hlt) as (l & Hl & -> & El).
      destruct l as [| x l]; [congruence |]. cbn in El. injection El as <- _.
      apply (digits_no_v _ Hu). apply in_or_app. right. left. reflexivity.
Qed.

Lemma sub_version_keeps (id : str) :
  ~ In nl id ->
  (forall base ds, ds <> [] -> forallb digit ds = true -> id <> base ++ txt "v" ++ ds) ->
  sub re_version [] id = id.
Proof.
  intros Hnl H. apply sub_id. intros p q ->.
  destruct (match_at re_version q) as [[rest caps] |] eqn:E; [| reflexivity].
  exfalso. destruct (version_match _ _ _ E) as (u & -> & Hu & Hne & [-> | ->]).
  - apply (H p u Hne Hu). rewrite app_nil_r. reflexivity.
  - apply Hnl. apply in_or_app. right. apply in_or_app. right.
    apply in_or_app. right. left. reflexivity.
Qed.

(** X16. [arxiv_id] drops a trailing version suffix: for a short id
    [base] + [v] + digits it is [base], and the value is kept for later
    accesses; a short id without newline that does not end in [v] and digits
    is returned unchanged. *)
Theorem arxiv_id_drops_version (self : ArxivPaper) :
  arxiv_id_slot self = None ->
  (forall base ds, ds <> [] -> forallb digit ds = true ->
     short_id (_paper self) = base ++ txt "v" ++ ds ->
     arxiv_id self = (base, with_arxiv_id self base) /\
     arxiv_id (with_arxiv_id self base) = (base, with_arxiv_id self base)) /\
  (~ In nl (short_id (_paper self)) ->
   (forall base ds, ds <> [] -> forallb digit ds = true ->
      short_id (_paper self) <> base ++ txt "v" ++ ds) ->
   fst (arxiv_id self) = short_id (_paper self)).
Proof.
  intros Hslot. unfold arxiv_id. rewrite Hslot. split.
  - intros base ds Hne Hd Hid. rewrite Hid, (sub_version_strips base ds Hne Hd).
    split; reflexivity.
  - intros Hnl H. cbn [fst]. apply sub_version_keeps; assumption.
Qed.

Lemma arxiv_id_drops_version_witness :
  arxiv_id paper_versioned
    = (txt "2101.00001", with_arxiv_id paper_versioned (txt "2101.00001")) /\
  fst (arxiv_id (with_arxiv_id paper_versioned (txt "2101.00001"))) = txt "2101.00001".
Proof.
  destruct (arxiv_id_drops_version paper_versioned eq_refl) as [H _].
  destruct (H (txt "2101.00001") (txt "12")) as [H1 H2];
    [discriminate | reflexivity | reflexivity |].
  split; [exact H1 | rewrite H2; reflexivity].
Defined.

Lemma str_replace_without (s old new : str) :
  old <> [] -> ~ occurs old s -> str_replace s old new = s.
Proof.
  intros Hold. destruct old as [| o old]; [congruence |]. clear Hold.
  unfold str_replace. induction s as [| c s IH]; intros H; [reflexivity |].
  cbn [replace_from].
  destruct (startswith (c :: s) (o :: old)) eqn:E.
  - exfalso. apply H. apply startswith_true in E. destruct E as [t E].
    exists [], t. exact E.
  - f_equal. apply IH. intros (p & q & ->). apply H. exists (c :: p), q. reflexivity.
Qed.

(** X17. [pdf_url] with a stored link returns it and changes nothing.  With
    no stored link and [links] either [None] or non-empty it returns a URL,
    stores it in the record and leaves the other fields alone, so that the
    next access returns the stored URL: built from [arxiv_id] when [links] is
    [None], and from the first link with every [abs] turned into [pdf]
    otherwise; for a first link [http://arxiv.org/abs/ID] whose [ID] has no
    [abs] the URL is [http://arxiv.org/pdf/ID]. *)
Theorem pdf_url_spec (self : ArxivPaper) :
  (forall u, pdf_url_field (_paper self) = Some u -> pdf_url self = (Ok u, self)) /\
  (pdf_url_field (_paper self) = None -> links (_paper self) <> Some [] ->
   exists u self',
     pdf_url self = (Ok u, self') /\
     pdf_url_field (_paper self') = Some u /\
     same_but_pdf_url (_paper self) (_paper self') /\
     score self' = score self /\
     pdf_url self' = (Ok u, self')) /\
  (pdf_url_field (_paper self) = None -> links (_paper self) = None ->
   fst (pdf_url self) = Ok (txt "https://arxiv.org/pdf/" ++ fst (arxiv_id self) ++ txt ".pdf")) /\
  (forall l ls id,
     pdf_url_field (_paper self) = None -> links (_paper self) = Some (l :: ls) ->
     href l = txt "http://arxiv.org/abs/" ++ id -> ~ occurs (txt "abs") id ->
     fst (pdf_url self) = Ok (txt "http://arxiv.org/pdf/" ++ id)).
Proof.
  split; [| split; [| split]].
  - intros u Hu. unfold pdf_url. rewrite Hu. reflexivity.
  - intros Hp Hl. exact (pdf_url_write_back self Hp Hl).
  - intros Hp Hl. unfold pdf_url. rewrite Hp.
    destruct (arxiv_id self) as [id self1] eqn:Hid.
    assert (H1 : _paper self1 = _paper self).
    { unfold arxiv_id in Hid. destruct (arxiv_id_slot self); inversion Hid; subst; auto. }
    rewrite H1, Hl. reflexivity.
  - intros l ls id Hp Hl Hh Hno. unfold pdf_url. rewrite Hp.
    destruct (arxiv_id self) as [id0 self1] eqn:Hid.
    assert (H1 : _paper self1 = _paper self).
    { unfold arxiv_id in Hid. destruct (arxiv_id_slot self); inversion Hid; subst; auto. }
    rewrite H1, Hl, Hh. cbn [fst]. f_equal.
    change (txt "http://arxiv.org/abs/" ++ id)
      with (txt "http://arxiv.org/" ++ txt "abs" ++ txt "/" ++ id).
    rewrite replace_first.
    + rewrite str_replace_without; [reflexivity | discriminate |].
      intros (p & q & E). destruct p as [| c p]; [discriminate E |].
      cbn in E. injection E as _ E. apply Hno. exists p, q. exact E.
    + discriminate.
    + intros p1 p2 E Hne.
      do 18 (destruct p1 as [| ? p1];
             [cbn in E; subst p2; try reflexivity; congruence |];
             cbn in E; try discriminate E; injection E as <- E).
Qed.

Lemma pdf_url_spec_witness :
  fst (pdf_url paper_versioned) = Ok (txt "http://arxiv.org/pdf/2101.00001v12").
Proof.
  destruct (pdf_url_spec paper_versioned) as (_ & _ & _ & H).
  apply (H {| href := txt "http://arxiv.org/abs/2101.00001v12"; link_title := None |}
           [] (txt "2101.00001v12")); try reflexivity.
  apply str_find_None. vm_compute. reflexivity.
Defined.

(** ** The code-repository lookup *)

Import Pwc PwcSpec.

Lemma arxiv_id_again (p p' : ArxivPaper) (id : str) :
  arxiv_id p = (id, p') -> arxiv_id p' = (id, p').
Proof.
  unfold arxiv_id. destruct (arxiv_id_slot p) eqn:E; intros H; inversion H; subst.
  - rewrite E. reflexivity.
  - reflexivity.
Qed.

Lemma arxiv_id_pair (p : ArxivPaper) :
  arxiv_id p = (fst (arxiv_id p), snd (arxiv_id p)).
Proof. destruct (arxiv_id p); reflexivity. Qed.

Lemma self_arxiv_id_first (st : State) :
  self_arxiv_id st = (Ok (id_of (this st)), {| this := id_read (this st); klass := klass st |}).
Proof.
  unfold self_arxiv_id, id_of, id_read. destruct (arxiv_id (paper (this st))). reflexivity.
Qed.

Lemma self_arxiv_id_later (o : Instance) (w : World) :
  self_arxiv_id {| this := id_read o; klass := w |}
    = (Ok (id_of o), {| this := id_read o; klass := w |}).
Proof.
  unfold self_arxiv_id, id_of, id_read. cbn [this paper klass code_url_slot].
  rewrite (arxiv_id_again _ _ _ (arxiv_id_pair (paper o))). reflexivity.
Qed.
Lemma self_arxiv_id_at (o : Instance) (w : World) :
  self_arxiv_id (at_object o w) = (Ok (id_of o), at_object o w).
Proof. apply self_arxiv_id_later. Qed.

Lemma runs_ret (A : Type) (o : Instance) (a : A) (w : World)
    (Q : result A -> World -> Prop) :
  Q (Ok a) w -> runs o (ret a) w Q.
Proof. intros H. exists (Ok a), w. split; [reflexivity | exact H]. Qed.

Lemma runs_lift (A : Type) (o : Instance) (r : result A) (w : World)
    (Q : result A -> World -> Prop) :
  Q r w -> runs o (lift r) w Q.
Proof. intros H. exists r, w. split; [reflexivity | exact H]. Qed.

Lemma runs_bind (A B : Type) (o : Instance) (m : M A) (f : A -> M B) (w : World)
    (Q : result B -> World -> Prop) :
  runs o m w (fun r w' => match r with
                          | Ok a => runs o (f a) w' Q
                          | Raise e => Q (Raise e) w'
                          end) ->
  runs o (bindM m f) w Q.
Proof.
  intros (r & w' & E & H). unfold runs, bindM. rewrite E. destruct r as [a | e].
  - exact H.
  - exists (Raise e), w'. split; [reflexivity | exact H].
Qed.

Lemma runs_self_arxiv_id (o : Instance) (w : World) (Q : result str -> World -> Prop) :
  Q (Ok (id_of o)) w -> runs o self_arxiv_id w Q.
Proof. intros H. exists (Ok (id_of o)), w. split; [apply self_arxiv_id_at | exact H]. Qed.

Lemma runs_cache_contains (o : Instance) (k : str) (w : World)
    (Q : result bool -> World -> Prop) :
  Q (Ok (match item (_CODE_URL_CACHE w) k with Some _ => true | None => false end)) w ->
  runs o (cache_contains k) w Q.
Proof. intros H. eexists _, w. split; [reflexivity | exact H]. Qed.

Lemma runs_cache_getitem (o : Instance) (k : str) (w : World)
    (Q : result pyval -> World -> Prop) :
  Q (match item (_CODE_URL_CACHE w) k with Some v => Ok v | None => Raise KeyError end) w ->
  runs o (cache_getitem k) w Q.
Proof. intros H. eexists _, w. split; [reflexivity | exact H]. Qed.

Lemma runs_cache_setitem (o : Instance) (k : str) (v : pyval) (w : World)
    (Q : result unit -> World -> Prop) :
  Q (Ok tt) (cached w k v) -> runs o (cache_setitem k v) w Q.
Proof. intros H. exists (Ok tt), (cached w k v). split; [reflexivity | exact H]. Qed.

Lemma runs_session (o : Instance) (w : World) (Q : result Session -> World -> Prop) :
  Q (Ok (session_for w)) (with_session w) -> runs o _session w Q.
Proof.
  intros H. exists (Ok (session_for w)), (with_session w). split; [| exact H].
  unfold _session, session_for, with_session, at_object. cbn [klass].
  destruct (_PWC_SESSION w); reflexivity.
Qed.

Lemma runs_get_json (http_get : list Request -> Request -> get_outcome)
    (o : Instance) (s : Session) (u : str) (w : World)
    (Q : result pyval -> World -> Prop) :
  (forall r, Q r (request_sent w (the_request s u))) ->
  runs o (_get_json http_get s u) w Q.
Proof.
  intros H. unfold runs, _get_json, session_get. cbn [at_object klass with_klass this].
  assert (Hdone : forall r : result pyval,
            exists r' w',
              (r, {| this := id_read o;
                     klass := {| _PWC_SESSION := _PWC_SESSION w;
                                 _CODE_URL_CACHE := _CODE_URL_CACHE w;
                                 sessions_made := sessions_made w;
                                 sent := sent w ++ [{| via := s; url := u;
                                                       timeout := (5, 15)%Z |}] |} |})
                = (r', {| this := id_read o; klass := w' |}) /\ Q r' w').
  { intros r. exists r, (request_sent w (the_request s u)).
    split; [reflexivity | apply H]. }
  destruct (http_get (sent w) {| via := s; url := u; timeout := (5, 15)%Z |})
    as [r | | e]; try apply Hdone.
  destruct (negb (status_code r =? 200)%Z); try apply Hdone.
  destruct (negb (contains (txt "application/json") (lower (or_empty (content_type r)))));
    try apply Hdone.
  destruct (json r); apply Hdone.
Qed.

Ltac lookup_step :=
  first [ apply runs_bind
        | apply runs_self_arxiv_id
        | apply runs_cache_contains
        | apply runs_cache_getitem
        | apply runs_cache_setitem
        | apply runs_session
        | apply runs_get_json; intros [? | ?]
        | apply runs_ret
        | apply runs_lift ].

Lemma code_url_body_at (http_get : list Request -> Request -> get_outcome)
    (format_value : pyval -> str) (st : State) :
  code_url_body http_get format_value st
    = code_url_body http_get format_value (at_object (this st) (klass st)).
Proof.
  unfold code_url_body.
  set (f := fun id : str => _).
  unfold bindM. rewrite self_arxiv_id_first, self_arxiv_id_at. reflexivity.
Qed.

Lemma with_session_session (w : World) :
  _PWC_SESSION (with_session w) = Some (session_for w).
Proof. unfold with_session, session_for. destruct (_PWC_SESSION w) eqn:E; [exact E | reflexivity]. Qed.

Lemma with_session_cache (w : World) :
  _CODE_URL_CACHE (with_session w) = _CODE_URL_CACHE w.
Proof. unfold with_session. destruct (_PWC_SESSION w); reflexivity. Qed.

Lemma with_session_sent (w : World) : sent (with_session w) = sent w.
Proof. unfold with_session. destruct (_PWC_SESSION w); reflexivity. Qed.

Ltac lookup_done :=
  cbn [request_sent cached _PWC_SESSION _CODE_URL_CACHE sessions_made sent];
  rewrite ?with_session_session, ?with_session_cache, ?with_session_sent;
  eexists;
  split; [reflexivity |];
  split; [reflexivity |];
  split; [rewrite <- ?app_assoc; reflexivity |];
  split; [cbn [length app]; lia |];
  split; [repeat constructor | reflexivity].

Ltac lookup_run :=
  repeat first
    [ lookup_step
    | match goal with
      | |- runs _ (if ?b then _ else _) _ _ => destruct b
      | |- match ?x with Ok _ => _ | Raise _ => _ end => destruct x
      end ].

Lemma code_url_body_runs (http_get : list Request -> Request -> get_outcome)
    (format_value : pyval -> str) (o : Instance) (w : World) :
  runs o (code_url_body http_get format_value) w (lookup_effect (id_of o) w).
Proof.
  unfold code_url_body, lookup_effect.
  do 4 lookup_step.
  destruct (item (_CODE_URL_CACHE w) (id_of o)) as [v |] eqn:Hc.
  - do 3 lookup_step. rewrite Hc. auto.
  - lookup_run; lookup_done.
Qed.

Lemma item_setitem_same (V : Type) (d : list (str * V)) (k : str) (v : V) :
  item d k = None -> item (setitem d k v) k = Some v.
Proof.
  induction d as [| [k' v'] d IH]; cbn.
  - intros _. replace (str_eqb k k) with true; [reflexivity |].
    symmetry. apply str_eqb_eq. reflexivity.
  - destruct (str_eqb k' k) eqn:E; [discriminate |]. intros H. cbn. rewrite E. auto.
Qed.

Lemma item_setitem_other (V : Type) (d : list (str * V)) (k k' : str) (v : V) :
  k' <> k -> item (setitem d k v) k' = item d k'.
Proof.
  intros Hne. induction d as [| [k0 v0] d IH]; cbn.
  - destruct (str_eqb k k') eqn:E; [| reflexivity].
    apply str_eqb_eq in E. congruence.
  - destruct (str_eqb k0 k) eqn:E; cbn.
    + apply str_eqb_eq in E. subst k0. destruct (str_eqb k k') eqn:E'; [| reflexivity].
      apply str_eqb_eq in E'. congruence.
    + rewrite IH. reflexivity.
Qed.

Lemma code_url_effect (http_get : list Request -> Request -> get_outcome)
    (format_value : pyval -> str) (st : State) :
  code_url_slot (this st) = None ->
  exists r w',
    lookup_effect (id_of (this st)) (klass st) r w' /\
    code_url http_get format_value st
      = (r, {| this := match r with
                       | Ok v => url_read (this st) v
                       | Raise _ => id_read (this st)
                       end;
               klass := w' |}).
Proof.
  intros Hslot. unfold code_url. rewrite Hslot, code_url_body_at.
  destruct (code_url_body_runs http_get format_value (this st) (klass st))
    as (r & w' & E & H).
  exists r, w'. split; [exact H |]. rewrite E. destruct r; reflexivity.
Qed.

Lemma code_url_hit (http_get : list Request -> Request -> get_outcome)
    (format_value : pyval -> str) (o : Instance) (w : World) (v : pyval) :
  code_url_slot o = None ->
  item (_CODE_URL_CACHE w) (id_of o) = Some v ->
  code_url http_get format_value {| this := o; klass := w |}
    = (Ok v, {| this := url_read o v; klass := w |}).
Proof.
  intros Hslot Hc.
  destruct (code_url_effect http_get format_value {| this := o; klass := w |} Hslot)
    as (r & w' & H & E).
  unfold lookup_effect in H. cbn [this klass] in H, E. rewrite Hc in H.
  destruct H as [-> ->]. exact E.
Qed.

(** X18. A cache entry for the paper's identifier answers the access:
    whatever the network would say, [code_url] returns the cached value,
    creates no session and sends no request, and leaves the class state as
    it is. *)
Theorem code_url_cache_hit (http_get : list Request -> Request -> get_outcome)
    (format_value : pyval -> str) (o : Instance) (w : World) (v : pyval) :
  code_url_slot o = None ->
  item (_CODE_URL_CACHE w) (id_of o) = Some v ->
  code_url http_get format_value {| this := o; klass := w |}
    = (Ok v, {| this := url_read o v; klass := w |}).
Proof. apply code_url_hit. Qed.

Lemma code_url_cache_hit_witness :
  code_url network_up show
    {| this := fresh paper_plain;
       klass := {| _PWC_SESSION := None;
                   _CODE_URL_CACHE := [(txt "2101.00001", PNone)];
                   sessions_made := 0; sent := [] |} |}
  = (Ok PNone,
     {| this := url_read (fresh paper_plain) PNone;
        klass := {| _PWC_SESSION := None;
                    _CODE_URL_CACHE := [(txt "2101.00001", PNone)];
                    sessions_made := 0; sent := [] |} |}).
Proof.
  apply (code_url_cache_hit network_up show (fresh paper_plain)); reflexivity.
Defined.

(** X19. A value that [code_url] returns is remembered twice: in the object,
    so that the object's later accesses return it whatever the class state
    and the network are, and in the class cache under the paper's
    identifier, other entries unchanged, so that every other object with the
    same identifier gets the same value without any request. *)
Theorem code_url_result_is_cached (http_get : list Request -> Request -> get_outcome)
    (format_value : pyval -> str) (st st' : State) (v : pyval) :
  code_url_slot (this st) = None ->
  code_url http_get format_value st = (Ok v, st') ->
  this st' = url_read (this st) v /\
  item (_CODE_URL_CACHE (klass st')) (id_of (this st)) = Some v /\
  (forall k, k <> id_of (this st) ->
     item (_CODE_URL_CACHE (klass st')) k = item (_CODE_URL_CACHE (klass st)) k) /\
  (forall http_get' format_value' w,
     code_url http_get' format_value' {| this := this st'; klass := w |}
       = (Ok v, {| this := this st'; klass := w |})) /\
  (forall http_get' format_value' o,
     code_url_slot o = None -> id_of o = id_of (this st) ->
     code_url http_get' format_value' {| this := o; klass := klass st' |}
       = (Ok v, {| this := url_read o v; klass := klass st' |})).
Proof.
  intros Hslot Hrun.
  destruct (code_url_effect http_get format_value st Hslot) as (r & w' & H & E).
  rewrite Hrun in E. injection E as <- ->. cbn [this klass].
  assert (Hitem : item (_CODE_URL_CACHE w') (id_of (this st)) = Some v).
  { unfold lookup_effect in H.
    destruct (item (_CODE_URL_CACHE (klass st)) (id_of (this st))) as [v0 |] eqn:Hc.
    - destruct H as [Hv ->]. injection Hv as <-. exact Hc.
    - destruct H as (new & _ & _ & _ & _ & _ & ->). apply item_setitem_same. exact Hc. }
  split; [reflexivity |]. split; [exact Hitem |]. split; [| split].
  - intros k Hk. unfold lookup_effect in H.
    destruct (item (_CODE_URL_CACHE (klass st)) (id_of (this st))) as [v0 |].
    + destruct H as [_ ->]. reflexivity.
    + destruct H as (new & _ & _ & _ & _ & _ & ->). apply item_setitem_other. exact Hk.
  - intros http_get' format_value' w. reflexivity.
  - intros http_get' format_value' o Ho Hid. apply code_url_hit; [exact Ho |].
    rewrite Hid. exact Hitem.
Qed.

Lemma code_url_result_is_cached_witness :
  item (_CODE_URL_CACHE
          (klass (snd (code_url network_up show
                         {| this := fresh paper_plain; klass := initial |}))))
       (txt "2101.00001")
  = Some (PStr (txt "https://github.com/a/b")).
Proof.
  destruct (code_url_result_is_cached network_up show
              {| this := fresh paper_plain; klass := initial |}
              (snd (code_url network_up show
                      {| this := fresh paper_plain; klass := initial |}))
              (PStr (txt "https://github.com/a/b")) eq_refl)
    as (_ & H & _).
  - vm_compute. reflexivity.
  - exact H.
Defined.

(** X20. An access that raises leaves no value behind: the class cache is
    what it was and the object's slot is still empty, so the next access
    runs the lookup again. *)
Theorem code_url_exception_keeps_cache
    (http_get : list Request -> Request -> get_outcome)
    (format_value : pyval -> str) (st st' : State) (e : exn) :
  code_url_slot (this st) = None ->
  code_url http_get format_value st = (Raise e, st') ->
  _CODE_URL_CACHE (klass st') = _CODE_URL_CACHE (klass st) /\
  code_url_slot (this st') = None.
Proof.
  intros Hslot Hrun.
  destruct (code_url_effect http_get format_value st Hslot) as (r & w' & H & E).
  rewrite Hrun in E. injection E as <- ->. cbn [this klass id_read code_url_slot].
  split; [| exact Hslot].
  unfold lookup_effect in H.
  destruct (item (_CODE_URL_CACHE (klass st)) (id_of (this st))).
  - destruct H as [H _]. discriminate H.
  - destruct H as (new & _ & _ & _ & _ & _ & ->). reflexivity.
Qed.

Lemma code_url_exception_keeps_cache_witness :
  fst (code_url network_array show {| this := fresh paper_plain; klass := initial |})
    = Raise AttributeError /\
  _CODE_URL_CACHE
    (klass (snd (code_url network_array show
                   {| this := fresh paper_plain; klass := initial |}))) = [].
Proof.
  split; [vm_compute; reflexivity |].
  destruct (code_url_exception_keeps_cache network_array show
              {| this := fresh paper_plain; klass := initial |}
              (snd (code_url network_array show
                      {| this := fresh paper_plain; klass := initial |}))
              AttributeError eq_refl) as [H _].
  - vm_compute. reflexivity.
  - exact H.
Defined.

Lemma with_session_made (w : World) :
  sessions_made w <= sessions_made (with_session w) <= S (sessions_made w).
Proof. unfold with_session. destruct (_PWC_SESSION w); cbn; lia. Qed.

(** X21. One access sends at most two requests, each with the timeout
    [(5, 15)] and through the session that the class holds afterwards; it
    makes at most one session, and none when the class already holds one,
    which it then keeps. *)
Theorem code_url_requests_bounded (http_get : list Request -> Request -> get_outcome)
    (format_value : pyval -> str) (st : State) :
  let w := klass st in
  let w' := klass (snd (code_url http_get format_value st)) in
  (exists new,
     sent w' = sent w ++ new /\ length new <= 2 /\
     forall rq, In rq new -> _PWC_SESSION w' = Some (via rq) /\ timeout rq = (5, 15)%Z) /\
  sessions_made w <= sessions_made w' <= S (sessions_made w) /\
  (forall s, _PWC_SESSION w = Some s ->
     _PWC_SESSION w' = Some s /\ sessions_made w' = sessions_made w).
Proof.
  cbn zeta.
  destruct (code_url_slot (this st)) as [v |] eqn:Hslot.
  - unfold code_url. rewrite Hslot. cbn [snd].
    split; [exists []; rewrite app_nil_r; cbn; intuition lia |].
    split; [lia | auto].
  - destruct (code_url_effect http_get format_value st Hslot) as (r & w' & H & E).
    rewrite E. cbn [snd klass]. clear E. unfold lookup_effect in H.
    destruct (item (_CODE_URL_CACHE (klass st)) (id_of (this st))).
    + destruct H as [_ ->].
      split; [exists []; rewrite app_nil_r; cbn; intuition lia |].
      split; [lia | auto].
    + destruct H as (new & Hs & Hm & Hsent & Hlen & Hall & _).
      split; [| split].
      * exists new. split; [exact Hsent |]. split; [lia |].
        intros rq Hin. rewrite Forall_forall in Hall. destruct (Hall rq Hin) as [-> Ht].
        split; assumption.
      * rewrite Hm. apply with_session_made.
      * intros s Hw. rewrite Hs, Hm. unfold session_for, with_session. rewrite Hw.
        split; reflexivity.
Qed.

Lemma code_url_one_session (http_get : list Request -> Request -> get_outcome)
    (format_value : pyval -> str) (st : State) :
  one_session (klass st) ->
  one_session (klass (snd (code_url http_get format_value st))).
Proof.
  intros Hinv.
  destruct (code_url_slot (this st)) as [v |] eqn:Hslot.
  - unfold code_url. rewrite Hslot. exact Hinv.
  - destruct (code_url_effect http_get format_value st Hslot) as (r & w' & H & E).
    rewrite E. cbn [snd klass]. clear E. unfold lookup_effect in H.
    destruct (item (_CODE_URL_CACHE (klass st)) (id_of (this st))).
    + destruct H as [_ ->]. exact Hinv.
    + destruct H as (new & Hs & Hm & Hsent & _ & Hall & _).
      unfold one_session in *. rewrite Hs, Hm, Hsent.
      unfold session_for, with_session in *.
      destruct (_PWC_SESSION (klass st)) as [s |].
      * destruct Hinv as (H1 & H2 & H3).
        split; [exact H1 |]. split; [exact H2 |]. apply Forall_app. split; assumption.
      * destruct Hinv as [H1 H2]. rewrite H1, H2 in *. cbn [sessions_made app].
        split; [reflexivity |]. split; [reflexivity | exact Hall].
Qed.

Lemma accesses_one_session (http_get : list Request -> Request -> get_outcome)
    (format_value : pyval -> str) (os : list Instance) (w : World) :
  one_session w -> one_session (accesses http_get format_value os w).
Proof.
  revert w. induction os as [| o os IH]; intros w H; cbn [accesses]; [exact H |].
  apply IH. apply (code_url_one_session http_get format_value {| this := o; klass := w |}).
  exact H.
Qed.

(** X22. Over any sequence of accesses from any objects, starting from the
    class state in which no session exists, [requests.Session()] is called
    at most once, and every request ever sent went through that one session,
    the one the class holds, with the timeout [(5, 15)]. *)
Theorem one_session_for_all_accesses
    (http_get : list Request -> Request -> get_outcome)
    (format_value : pyval -> str) (os : list Instance) :
  let w := accesses http_get format_value os initial in
  sessions_made w <= 1 /\
  forall rq, In rq (sent w) ->
    _PWC_SESSION w = Some (via rq) /\ session_no (via rq) = 0 /\
    timeout rq = (5, 15)%Z.
Proof.
  cbn zeta.
  assert (H : one_session (accesses http_get format_value os initial)).
  { apply accesses_one_session. split; reflexivity. }
  unfold one_session in H.
  destruct (_PWC_SESSION (accesses http_get format_value os initial)) as [s |].
  - destruct H as (H1 & H2 & H3). split; [lia |].
    intros rq Hin. rewrite Forall_forall in H3. destruct (H3 rq Hin) as [-> Ht].
    split; [reflexivity |]. split; [rewrite H2; reflexivity | exact Ht].
  - destruct H as [H1 H2]. split; [lia |]. rewrite H2. intros rq [].
Qed.

Lemma code_url_keeps_entry (http_get : list Request -> Request -> get_outcome)
    (format_value : pyval -> str) (st : State) (k : str) (v : pyval) :
  item (_CODE_URL_CACHE (klass st)) k = Some v ->
  item (_CODE_URL_CACHE (klass (snd (code_url http_get format_value st)))) k = Some v.
Proof.
  intros Hk.
  destruct (code_url_slot (this st)) as [v0 |] eqn:Hslot.
  - unfold code_url. rewrite Hslot. exact Hk.
  - destruct (code_url_effect http_get format_value st Hslot) as (r & w' & H & E).
    rewrite E. cbn [snd klass]. clear E. unfold lookup_effect in H.
    destruct (item (_CODE_URL_CACHE (klass st)) (id_of (this st))) eqn:Hc.
    + destruct H as [_ ->]. exact Hk.
    + destruct H as (new & _ & _ & _ & _ & _ & ->).
      destruct r; [| exact Hk].
      rewrite item_setitem_other; [exact Hk |]. intros ->. congruence.
Qed.

(** X23. The class cache only grows: an entry, once there, is never changed
    or removed by later accesses, whichever objects make them and whatever
    the network answers. *)
Theorem cache_entries_are_permanent
    (http_get : list Request -> Request -> get_outcome)
    (format_value : pyval -> str) (os : list Instance) (w : World)
    (k : str) (v : pyval) :
  item (_CODE_URL_CACHE w) k = Some v ->
  item (_CODE_URL_CACHE (accesses http_get format_value os w)) k = Some v.
Proof.
  revert w. induction os as [| o os IH]; intros w H; cbn [accesses]; [exact H |].
  apply IH.
  apply (code_url_keeps_entry http_get format_value {| this := o; klass := w |}).
  exact H.
Qed.

Lemma cache_entries_are_permanent_witness :
  item (_CODE_URL_CACHE
          (accesses network_up show [fresh paper_plain; fresh paper_versioned]
             {| _PWC_SESSION := None;
                _CODE_URL_CACHE := [(txt "2101.00001", PNone)];
                sessions_made := 0; sent := [] |}))
       (txt "2101.00001")
  = Some PNone.
Proof.
  apply (cache_entries_are_permanent network_up show). reflexivity.
Defined.

Lemma runs_exact (A : Type) (o : Instance) (m : M A) (w w' : World) (r : result A)
    (Q : result A -> World -> Prop) :
  m (at_object o w) = (r, at_object o w') -> Q r w' -> runs o m w Q.
Proof. intros E H. exists r, w'. split; assumption. Qed.

Lemma _get_json_nothing (http_get : list Request -> Request -> get_outcome)
    (s : Session) (u : str) (st : State) :
  (http_get (sent (klass st)) (the_request s u) = RequestFails \/
   exists r, http_get (sent (klass st)) (the_request s u) = Responds r /\
             status_code r <> 200%Z) ->
  _get_json http_get s u st
    = (Ok PNone, with_klass st (request_sent (klass st) (the_request s u))).
Proof.
  unfold _get_json, session_get.
  change {| via := s; url := u; timeout := (5, 15)%Z |} with (the_request s u).
  intros [-> | (r & -> & Hr)]; [reflexivity |].
  destruct (Z.eqb_spec (status_code r) 200) as [E | _]; [contradiction | reflexivity].
Qed.

(** X24. A failed first request is remembered as "no repository": when the
    cache has no entry and the first request ends in a
    [requests.RequestException] or in a status other than 200, [code_url]
    returns [None] after that single request and stores [None] in the cache,
    so every later access for the same identifier returns [None] without
    asking again, whatever the network has become. *)
Theorem lookup_failure_is_cached (http_get : list Request -> Request -> get_outcome)
    (format_value : pyval -> str) (o : Instance) (w : World) :
  code_url_slot o = None ->
  item (_CODE_URL_CACHE w) (id_of o) = None ->
  (forall rq, http_get (sent w) rq = RequestFails \/
              exists r, http_get (sent w) rq = Responds r /\ status_code r <> 200%Z) ->
  let w' := cached (request_sent (with_session w)
                      (the_request (session_for w) (papers_url (id_of o))))
                   (id_of o) PNone in
  code_url http_get format_value {| this := o; klass := w |}
    = (Ok PNone, {| this := url_read o PNone; klass := w' |}) /\
  forall http_get' format_value' o',
    code_url_slot o' = None -> id_of o' = id_of o ->
    code_url http_get' format_value' {| this := o'; klass := w' |}
      = (Ok PNone, {| this := url_read o' PNone; klass := w' |}).
Proof.
  intros Hslot Hc Hnet w'.
  assert (Hrun : runs o (code_url_body http_get format_value) w
                   (fun r w1 => r = Ok PNone /\ w1 = w')).
  { unfold code_url_body. do 4 lookup_step. rewrite Hc. do 5 lookup_step.
    eapply runs_exact.
    - apply _get_json_nothing. cbn [at_object klass]. rewrite with_session_sent.
      apply Hnet.
    - cbn [at_object klass with_klass this]. do 2 lookup_step. cbn [nothing_found truthy negb].
      do 5 lookup_step. split; reflexivity. }
  split.
  - unfold code_url. cbn [this]. rewrite Hslot, code_url_body_at. cbn [this klass].
    destruct Hrun as (r & w1 & E & -> & ->). rewrite E. reflexivity.
  - intros http_get' format_value' o' Ho' Hid. apply code_url_hit; [exact Ho' |].
    rewrite Hid. unfold w'. cbn [cached _CODE_URL_CACHE request_sent].
    rewrite with_session_cache. apply item_setitem_same. exact Hc.
Qed.

Lemma lookup_failure_is_cached_witness :
  fst (code_url network_down show {| this := fresh paper_plain; klass := initial |})
    = Ok PNone /\
  fst (code_url network_up show
         {| this := fresh paper_versioned;
            klass := klass (snd (code_url network_down show
                                   {| this := fresh paper_plain; klass := initial |})) |})
    = Ok PNone.
Proof.
  destruct (lookup_failure_is_cached network_down show (fresh paper_plain) initial
              eq_refl eq_refl (fun _ => or_introl eq_refl)) as [H1 H2].
  split.
  - rewrite H1. reflexivity.
  - rewrite H1. cbn [snd klass].
    rewrite (H2 network_up show (fresh paper_versioned) eq_refl); reflexivity.
Defined.

Lemma contains_occurs (l s : str) : contains l s = true <-> occurs l s.
Proof.
  unfold contains. destruct (str_find l s) as [n |] eqn:E.
  - split; [intros _; exact (str_find_occurs _ _ _ E) | reflexivity].
  - split; [discriminate | intros H; destruct (str_find_None E H)].
Qed.

Lemma or_empty_Some (h : str) : or_empty (Some h) = h.
Proof. destruct h; reflexivity. Qed.

(** X25. [_get_json] sends exactly one request, through the session it is
    given and with the timeout [(5, 15)], and changes nothing else.  It
    returns a value other than [None] only when the answer has status 200, a
    content type that contains [application/json] once lowered, and a body
    that decodes to that value; a [requests.RequestException] and a
    [ValueError] of the decoder both give [None]; it raises only what
    [s.get] raises beyond [RequestException] or what the decoder of such an
    accepted answer raises beyond [ValueError]. *)
Theorem get_json_only_from_json_200 (http_get : list Request -> Request -> get_outcome)
    (s : Session) (u : str) (st : State) :
  let answer := http_get (sent (klass st)) (the_request s u) in
  let accepted (r : Response) :=
    status_code r = 200%Z /\
    contains (txt "application/json") (lower (or_empty (content_type r))) = true in
  snd (_get_json http_get s u st)
    = with_klass st (request_sent (klass st) (the_request s u)) /\
  (forall v, fst (_get_json http_get s u st) = Ok v -> v <> PNone ->
     exists r, answer = Responds r /\ accepted r /\ json r = Decoded v) /\
  (forall e, fst (_get_json http_get s u st) = Raise e ->
     answer = GetRaises e \/
     exists r, answer = Responds r /\ accepted r /\ json r = JsonRaises e) /\
  (answer = RequestFails -> fst (_get_json http_get s u st) = Ok PNone) /\
  (forall r, answer = Responds r -> json r = DecodeFails ->
     fst (_get_json http_get s u st) = Ok PNone).
Proof.
  cbn zeta. unfold _get_json, session_get.
  change {| via := s; url := u; timeout := (5, 15)%Z |} with (the_request s u).
  destruct (http_get (sent (klass st)) (the_request s u)) as [r | | e].
  - destruct (Z.eqb_spec (status_code r) 200) as [Hs | Hs]; cbn [negb].
    + destruct (contains (txt "application/json") (lower (or_empty (content_type r))))
        eqn:Hct; cbn [negb].
      * destruct (json r) as [v | | e] eqn:Hj; cbn [fst snd].
        -- split; [reflexivity |]. split; [| split; [| split]].
           ++ intros v' Hv _. injection Hv as <-. exists r. auto.
           ++ discriminate.
           ++ discriminate.
           ++ intros r' Hr'. injection Hr' as <-. rewrite Hj. discriminate.
        -- split; [reflexivity |]. split; [| split; [| split]].
           ++ intros v' Hv Hne. injection Hv as <-. congruence.
           ++ discriminate.
           ++ discriminate.
           ++ reflexivity.
        -- split; [reflexivity |]. split; [| split; [| split]].
           ++ discriminate.
           ++ intros e' He. injection He as <-. right. exists r. auto.
           ++ discriminate.
           ++ intros r' Hr'. injection Hr' as <-. rewrite Hj. discriminate.
      * cbn [fst snd]. split; [reflexivity |]. split; [| split; [| split]].
        -- intros v' Hv Hne. injection Hv as <-. congruence.
        -- discriminate.
        -- discriminate.
        -- reflexivity.
    + cbn [fst snd]. split; [reflexivity |]. split; [| split; [| split]].
      * intros v' Hv Hne. injection Hv as <-. congruence.
      * discriminate.
      * discriminate.
      * reflexivity.
  - cbn [fst snd]. split; [reflexivity |]. split; [| split; [| split]].
    + intros v' Hv Hne. injection Hv as <-. congruence.
    + discriminate.
    + reflexivity.
    + discriminate.
  - cbn [fst snd]. split; [reflexivity |]. split; [| split; [| split]].
    + discriminate.
    + intros e' He. injection He as <-. left. reflexivity.
    + discriminate.
    + discriminate.
Qed.

Lemma get_json_only_from_json_200_witness :
  fst (_get_json network_down (configured 0) (papers_url (txt "2101.00001"))
         {| this := fresh paper_plain; klass := initial |}) = Ok PNone.
Proof.
  destruct (get_json_only_from_json_200 network_down (configured 0)
              (papers_url (txt "2101.00001"))
              {| this := fresh paper_plain; klass := initial |}) as (_ & _ & _ & H & _).
  apply H. reflexivity.
Defined.

(** X26. The content-type test of [_get_json] ignores case and position: it
    passes exactly when the header is present and some part of its value
    reads [application/json] once lowered. *)
Theorem content_type_ignores_case (header : option str) :
  contains (txt "application/json") (lower (or_empty header)) = true <->
  exists h p x q,
    header = Some h /\ h = p ++ x ++ q /\ lower x = txt "application/json".
Proof.
  rewrite contains_occurs. split.
  - intros (p' & q' & E). destruct header as [h |].
    + rewrite or_empty_Some in E. unfold lower in E.
      apply map_eq_app in E. destruct E as (p & r & -> & _ & E).
      apply map_eq_app in E. destruct E as (x & q & -> & Hx & _).
      exists (p ++ x ++ q), p, x, q. auto.
    + destruct p'; discriminate E.
  - intros (h & p & x & q & -> & -> & Hx). rewrite or_empty_Some.
    exists (lower p), (lower q). unfold lower in *. rewrite !map_app, Hx. reflexivity.
Qed.

Lemma content_type_ignores_case_witness :
  contains (txt "application/json")
    (lower (or_empty (Some (txt "Application/JSON; charset=utf-8")))) = true.
Proof.
  apply (content_type_ignores_case (Some (txt "Application/JSON; charset=utf-8"))).
  exists (txt "Application/JSON; charset=utf-8"), [], (txt "Application/JSON"),
    (txt "; charset=utf-8").
  repeat split.
Defined.
